(** * ChessBot / Thera: board representation and move generator

    A shallow embedding of the bitboard primitives (Thera/Bitboard.hpp), the
    precomputed tables (Thera/MoveGenerator.hpp), the board state
    (Thera/Board.hpp) and the move generator (ChessBot/src/MoveGenerator.cpp),
    followed by the properties established for them. Machine integers are
    modelled as [Z] with the wrap-around written out. *)

From Stdlib Require Import String ZArith List Bool Lia Sorted.
Import ListNotations.
Local Open Scope Z_scope.

(** ** Machine arithmetic *)

Definition wrap32 (z : Z) : Z := z mod 2 ^ 32.
Definition wrap64 (z : Z) : Z := z mod 2 ^ 64.
Definition wrap128 (z : Z) : Z := z mod 2 ^ 128.

(** The squares [lo, lo+1, ..., lo+n-1]. *)
Fixpoint zrange (lo : Z) (n : nat) : list Z :=
  match n with
  | O => []
  | S m => lo :: zrange (lo + 1) m
  end.

(** Number of trailing zero bits of a positive number. *)
Fixpoint trailingZeros (p : positive) : Z :=
  match p with
  | xO q => 1 + trailingZeros q
  | _ => 0
  end.

(** ** Outcomes of fallible operations

    C++ exceptions are kept by class and message; an access outside an array
    through an unchecked [operator[]] or iterator has no defined behaviour
    and is modelled by [Undefined]. *)

Inductive Exception : Type :=
| runtime_error (msg : string)
| invalid_argument (msg : string)
| out_of_range (msg : string).

Inductive outcome (A : Type) : Type :=
| Ok (a : A)
| Throw (e : Exception)
| Undefined.
Arguments Ok {A} a.
Arguments Throw {A} e.
Arguments Undefined {A}.

Definition bind {A B : Type} (x : outcome A) (f : A -> outcome B) : outcome B :=
  match x with
  | Ok a => f a
  | Throw e => Throw e
  | Undefined => Undefined
  end.

Notation "x <- c ;; k" := (bind c (fun x => k))
  (at level 61, c at next level, right associativity).

Inductive BuildType : Type := Debug | Release.

(** Writing entry [i] of a fixed-size array through unchecked indexing. *)
Fixpoint replaceNth {A : Type} (n : nat) (x : A) (l : list A) : list A :=
  match l, n with
  | [], _ => []
  | _ :: t, O => x :: t
  | h :: t, S m => h :: replaceNth m x t
  end.

Definition arrayWrite {A : Type} (l : list A) (i : Z) (x : A) : outcome (list A) :=
  if (0 <=? i) && (i <? Z.of_nat (length l))
  then Ok (replaceNth (Z.to_nat i) x l)
  else Undefined.

(** Reading and writing through the checked [std::array::at]. *)
Definition arrayAt (l : list Z) (i : Z) : outcome Z :=
  if (0 <=? i) && (i <? Z.of_nat (length l))
  then Ok (nth (Z.to_nat i) l 0)
  else Throw (out_of_range "array::at").

Definition arrayAtWrite (l : list Z) (i : Z) (x : Z) : outcome (list Z) :=
  if (0 <=? i) && (i <? Z.of_nat (length l))
  then Ok (replaceNth (Z.to_nat i) x l)
  else Throw (out_of_range "array::at").

(** ** Utils (Thera/Utils/Math.hpp, Thera/Utils/Coordinates.hpp) *)

Module Utils.

(** Modelled from the spec: [Utils::isInRange] is declared in
    Thera/Utils/Math.hpp, which is not among the sources; the bounds are
    inclusive, as the assertion [isInRange(N, 0, 64)] on a capacity that may
    be 64 requires. *)
Definition isInRange (x lo hi : Z) : bool := (lo <=? x) && (x <=? hi).

(** Modelled from the spec: [Utils::getBit] (Thera/Utils/Math.hpp, not among
    the sources) tests one bit of a word. *)
Definition getBit (bits : Z) (i : Z) : bool := Z.testbit bits i.

(** Modelled from the spec: [Utils::setBit] (Thera/Utils/Math.hpp, not among
    the sources) returns the word with bit [i] set to [value]. *)
Definition setBit (bits : Z) (i : Z) (value : bool) : Z :=
  if value then Z.lor bits (wrap128 (Z.shiftl 1 i))
  else Z.land bits (Z.lxor (2 ^ 128 - 1) (wrap128 (Z.shiftl 1 i))).

(** Modelled from the spec: [Utils::isOnBoard] on a [Coordinate8x8]
    (Thera/Utils/Coordinates.hpp, not among the sources) accepts the compact
    indices 0..63. *)
Definition isOnBoard (pos : Z) : bool := (0 <=? pos) && (pos <? 64).

End Utils.

(** ** Bitboard (Thera/Bitboard.hpp) *)

Module Bitboard.

(** The object state of [Bitboard<N>]: the 128-bit word and the three
    members that only debug builds maintain. *)
Record t : Type := mk {
  bits : Z;
  occupiedSquares : list Z;
  reverseOccupiedSquares : list Z;
  numPieces : Z
}.

Definition lsb_64_table : list Z :=
  [63; 30;  3; 32; 59; 14; 11; 33;
   60; 24; 50;  9; 55; 19; 21; 34;
   61; 29;  2; 53; 51; 23; 41; 18;
   56; 28;  1; 43; 46; 27;  0; 35;
   62; 31; 58;  4;  5; 49; 54;  6;
   15; 52; 12; 40;  7; 42; 45; 16;
   25; 57; 48; 13; 10; 39;  8; 44;
   20; 47; 38; 22; 17; 37; 36; 26].

(** The table lookup at the end of [bitScanForward], on the word obtained
    after [bb ^= bb - 1]. *)
Definition foldedLookup (bb : Z) : Z :=
  let folded := wrap32 (Z.lxor (wrap32 bb) (Z.shiftr bb 32)) in
  nth (Z.to_nat (Z.shiftr (wrap32 (folded * 0x78291ACF)) 26)) lsb_64_table 0.

(** [bitScanForward(uint64_t bb)]; the argument is a 64-bit word. *)
Definition bitScanForward (bb : Z) : Z :=
  foldedLookup (Z.lxor bb (wrap64 (bb - 1))).

Definition popcount (x : Z) : Z :=
  Z.of_nat (length (filter (Z.testbit x) (zrange 0 128))).

(** The [do ... while (x &= x-1)] loop of [getPieces]: each round scans the
    low 64 bits of [x] (the call converts to [uint64_t]), appends the index
    and resets the least significant one bit. [None] when the rounds given
    do not suffice. *)
Fixpoint scanLoop (fuel : nat) (x : Z) : option (list Z) :=
  match fuel with
  | O => None
  | S fuel' =>
      let idx := bitScanForward (wrap64 x) in
      let x' := Z.land x (wrap128 (x - 1)) in
      if x' =? 0 then Some [idx]
      else option_map (cons idx) (scanLoop fuel' x')
  end.

Definition scan (x : Z) : option (list Z) :=
  if x =? 0 then Some [] else scanLoop 128 x.

(** [getPieces()]: the entries written to the [N]-entry result array, in the
    order written (the entries after them are left uninitialised). Debug
    builds first compare the population count with [numPieces]. Writing more
    than [N] entries runs past the end of the array. *)
Definition getPieces (build : BuildType) (N : nat) (b : t) : outcome (list Z) :=
  let x := bits b in
  if match build with
     | Debug => negb (popcount x =? numPieces b)
     | Release => false
     end
  then Throw (runtime_error "Desync between bitboard and numPieces detected.")
  else
    match scan x with
    | Some l => if (length l <=? N)%nat then Ok l else Undefined
    | None => Undefined
    end.

Definition getNumPieces (build : BuildType) (b : t) : outcome Z :=
  match build with
  | Debug =>
      if negb (popcount (bits b) =? numPieces b)
      then Throw (runtime_error "Desync between bitboard and numPieces detected.")
      else Ok (popcount (bits b))
  | Release => Ok (popcount (bits b))
  end.

(** [isOccupied(square)]: bounds are checked in debug builds only. *)
Definition isOccupied (build : BuildType) (pos : Z) (b : t) : outcome bool :=
  match build with
  | Debug =>
      if negb (Utils.isInRange pos 0 127)
      then Throw (out_of_range "Square index is outside the board")
      else Ok (Utils.getBit (bits b) pos)
  | Release => Ok (Utils.getBit (bits b) pos)
  end.

Definition setSquare (pos : Z) (value : bool) (b : t) : t :=
  mk (Utils.setBit (bits b) pos value)
     (occupiedSquares b) (reverseOccupiedSquares b) (numPieces b).

(** [placePiece(square)]. *)
Definition placePiece (build : BuildType) (pos : Z) (b : t) : outcome t :=
  match build with
  | Debug =>
      occ <- isOccupied Debug pos b ;;
      if occ : bool
      then Throw (invalid_argument "Tried to place piece on already occupied square.")
      else
        os <- arrayWrite (occupiedSquares b) (numPieces b) pos ;;
        ros <- arrayWrite (reverseOccupiedSquares b) pos (numPieces b) ;;
        Ok (setSquare pos true (mk (bits b) os ros (numPieces b + 1)))
  | Release => Ok (setSquare pos true b)
  end.

(** [removePiece(square)]. *)
Definition removePiece (build : BuildType) (pos : Z) (b : t) : outcome t :=
  match build with
  | Debug =>
      occ <- isOccupied Debug pos b ;;
      if negb occ
      then Throw (invalid_argument "Tried to remove piece from empty square.")
      else if negb (Utils.isOnBoard pos)
      then Throw (invalid_argument "Tried to remove piece from outside the board.")
      else
        pieceIndex <- arrayAt (reverseOccupiedSquares b) pos ;;
        last <- arrayAt (occupiedSquares b) (numPieces b - 1) ;;
        os <- arrayAtWrite (occupiedSquares b) pieceIndex last ;;
        moved <- arrayAt os pieceIndex ;;
        ros <- arrayAtWrite (reverseOccupiedSquares b) moved pieceIndex ;;
        ros' <- arrayAtWrite ros pos (-1) ;;
        Ok (setSquare pos false (mk (bits b) os ros' (numPieces b - 1)))
  | Release => Ok (setSquare pos false b)
  end.

(** The occupied squares of a 64-square word, by ascending index. *)
Definition occupied (x : Z) : list Z := filter (Z.testbit x) (zrange 0 64).

End Bitboard.

(** ** Precomputed tables (Thera/MoveGenerator.hpp) *)

Module Bitboard64.

(** Modelled from the spec: the [Bitboard] class whose operators
    [singleEvaluation] uses is not among the sources ([Bitboard<N>] above has
    only [|], [&] and [^]); following the spec's "64-bit occupancy set" with
    "bitwise AND/OR/XOR/shift" it is a [uint64_t] wrapper, and its
    arithmetic is that of [uint64_t], modulo 2^64. An [int] operand is
    converted to the 64-bit word first. *)
Definition ofInt (z : Z) : Z := wrap64 z.
Definition add (a b : Z) : Z := wrap64 (a + b).
Definition sub (a b : Z) : Z := wrap64 (a - b).
Definition mul (a b : Z) : Z := wrap64 (a * b).
Definition neg (a : Z) : Z := wrap64 (- a).
Definition shl (a n : Z) : Z := wrap64 (Z.shiftl a n).
Definition shr (a n : Z) : Z := Z.shiftr a n.

End Bitboard64.

Module Thera.
Import Bitboard64.

Definition m1 : Z := 0xFFFFFFFFFFFFFFFF.
Definition a2a7 : Z := 0x0001010101010100.
Definition b2g7 : Z := 0x0040201008040200.
Definition h1b7 : Z := 0x0002040810204080.

(** The lambda [singleEvaluation(uint8_t sq1, uint8_t sq2)]. The right-hand
    sides of [file] and [rank] are computed on [int] (the operands are
    promoted, and [>>] on a negative [int] is an arithmetic shift) and then
    converted to the 64-bit word. *)
Definition singleEvaluation (sq1 sq2 : Z) : Z :=
  let btwn := Z.lxor (shl m1 sq1) (shl m1 sq2) in
  let file := ofInt (Z.land sq2 7 - Z.land sq1 7) in
  let rank := ofInt (Z.shiftr (Z.lor sq2 7 - sq1) 3) in
  let line := Z.land (sub (Z.land file 7) 1) a2a7 in
  let line := add line (mul 2 (shr (sub (Z.land rank 7) 1) 58)) in
  let line := add line (Z.land (sub (Z.land (sub rank file) 15) 1) b2g7) in
  let line := add line (Z.land (sub (Z.land (add rank file) 15) 1) h1b7) in
  let line := mul line (Z.land btwn (neg btwn)) in
  Z.land line btwn.

(** [obstructedLUT]: the table filled by the two loops over [a] and [b]. *)
Definition obstructedLUT : list (list Z) :=
  Eval vm_compute in
    map (fun a => map (fun b => singleEvaluation a b) (zrange 0 64)) (zrange 0 64).

Definition obstructedAt (a b : Z) : Z :=
  nth (Z.to_nat b) (nth (Z.to_nat a) obstructedLUT []) 0.

End Thera.

(** ** Geometry of the 8x8 board, for stating what the tables hold

    A compact index is [file + 8 * rank]. *)

Module Geometry.

Definition fileOf (s : Z) : Z := s mod 8.
Definition rankOf (s : Z) : Z := s / 8.

(** Two distinct squares on a common rank, file or diagonal. *)
Definition aligned (a b : Z) : bool :=
  let df := fileOf b - fileOf a in
  let dr := rankOf b - rankOf a in
  negb (a =? b) && ((dr =? 0) || (df =? 0) || (Z.abs df =? Z.abs dr)).

(** [s] lies strictly between [a] and [b] on their common line: it is
    reached from [a] in [t] unit steps towards [b], with [0 < t] and [t]
    less than the number of steps from [a] to [b]. *)
Definition strictlyBetween (a b s : Z) : bool :=
  let df := fileOf b - fileOf a in
  let dr := rankOf b - rankOf a in
  let ef := fileOf s - fileOf a in
  let er := rankOf s - rankOf a in
  let t := Z.max (Z.abs ef) (Z.abs er) in
  aligned a b &&
  (0 <? t) && (t <? Z.max (Z.abs df) (Z.abs dr)) &&
  (ef =? t * Z.sgn df) && (er =? t * Z.sgn dr).

End Geometry.

(** ** Pieces (Thera/Piece.hpp) *)

Module PieceType.
(** Modelled from the spec: Piece.hpp is not among the sources; the piece
    types are those the sources name, in the order the spec lists them. *)
Inductive t : Type := None | Pawn | Bishop | Knight | Rook | Queen | King.

Definition eqb (a b : t) : bool :=
  match a, b with
  | None, None | Pawn, Pawn | Bishop, Bishop | Knight, Knight
  | Rook, Rook | Queen, Queen | King, King => true
  | _, _ => false
  end.

Definition index (a : t) : Z :=
  match a with
  | None => 0 | Pawn => 1 | Bishop => 2 | Knight => 3
  | Rook => 4 | Queen => 5 | King => 6
  end.
End PieceType.

Module PieceColor.
Inductive t : Type := White | Black.

Definition eqb (a b : t) : bool :=
  match a, b with
  | White, White | Black, Black => true
  | _, _ => false
  end.

Definition opposite (c : t) : t :=
  match c with White => Black | Black => White end.

(** Position in the two-entry castling arrays, documented in Board.hpp as
    "[can black castle, can white castle]". *)
Definition index (c : t) : Z :=
  match c with Black => 0 | White => 1 end.
End PieceColor.

Record Piece : Type := mkPiece {
  getType : PieceType.t;
  getColor : PieceColor.t
}.

(** ** Moves (Thera/Move.hpp) *)

(** Modelled from the spec: Move.hpp is not among the sources. The fields
    are those the generator assigns; [auxiliaryMove] is the rook half of a
    castling move, a default-constructed move of which only the start and
    end squares are assigned, kept here as that pair of squares. *)
Record Move : Type := mkMove {
  startIndex : Z;
  endIndex : Z;
  promotionType : PieceType.t;
  isCastling : bool;
  isEnPassant : bool;
  isDoublePawnMove : bool;
  enPassantFile : Z;
  auxiliaryMove : option (Z * Z)
}.

(** [Move(start, end)]: every other field at its default. *)
Definition newMove (from to : Z) : Move :=
  mkMove from to PieceType.None false false false 0 None.

Definition withPromotion (m : Move) (p : PieceType.t) : Move :=
  mkMove (startIndex m) (endIndex m) p (isCastling m) (isEnPassant m)
         (isDoublePawnMove m) (enPassantFile m) (auxiliaryMove m).

(** ** Board (Thera/Board.hpp) *)

Module Board.

(** [Board::BoardState]. The castling arrays are pairs
    (entry 0, entry 1) = (black, white). *)
Record BoardState : Type := mkState {
  squares : list Piece;
  pieceBitboards : list Bitboard.t;
  allPieceBitboard : Bitboard.t;
  colorToMove : PieceColor.t;
  canCastleLeft : bool * bool;
  canCastleRight : bool * bool;
  enPassantSquare : Z;
  enPassantSquareToCapture : Z
}.

Record t : Type := mk {
  currentState : BoardState;
  rewindStack : list BoardState
}.

(** Modelled from the spec: the member functions of [Board] are declared in
    Board.hpp but defined in Board.cpp, which is not among the sources. The
    padded index of a compact square follows the spec's 10-wide, 12-tall
    mailbox with two guard rows above and below and one guard column on each
    side. *)
Definition to10x12Coords (square : Z) : Z := 21 + square mod 8 + 10 * (square / 8).

(** Modelled from the spec: inverse of [to10x12Coords] on board squares. *)
Definition to8x8Coords (index : Z) : Z := (index mod 10 - 1) + 8 * (index / 10 - 2).

(** Modelled from the spec: a padded index is on the board when it lies
    outside the guard rows and columns. *)
Definition isOnBoard10x12 (index : Z) : bool :=
  (2 <=? index / 10) && (index / 10 <=? 9) &&
  (1 <=? index mod 10) && (index mod 10 <=? 8).

(** Modelled from the spec: [Board::isOnBoard8x8(square, offset)] tells
    whether the compact square moved by a padded offset is still on the
    board ("off-board detection ... after an offset addition"). *)
Definition isOnBoard8x8 (square offset : Z) : bool :=
  isOnBoard10x12 (to10x12Coords square + offset).

(** Modelled from the spec: [Board::applyOffset(square, offset)] is the
    compact square reached by the padded offset. *)
Definition applyOffset (square offset : Z) : Z :=
  to8x8Coords (to10x12Coords square + offset).

(** Modelled from the spec: the entry read outside the 120-entry mailbox
    is taken to be an empty square. *)
Definition outside : Piece := mkPiece PieceType.None PieceColor.White.

(** Modelled from the spec: [at10x12(index)] reads the mailbox. *)
Definition at10x12 (b : t) (index : Z) : Piece :=
  if (0 <=? index) && (index <? 120)
  then nth (Z.to_nat index) (squares (currentState b)) outside
  else outside.

(** Modelled from the spec: [at(index)] reads the mailbox at a compact
    square. *)
Definition at_ (b : t) (square : Z) : Piece := at10x12 b (to10x12Coords square).

(** Modelled from the spec: [isOccupied] holds when the square has a piece;
    the generator passes it a padded index. *)
Definition isOccupied (b : t) (index : Z) : bool :=
  negb (PieceType.eqb (getType (at10x12 b index)) PieceType.None).

Definition getColorToMove (b : t) : PieceColor.t := colorToMove (currentState b).

(** Modelled from the spec: [isFriendly] compares the colour on the square
    with the side to move, without testing whether the square is filled. *)
Definition isFriendly (b : t) (index : Z) : bool :=
  PieceColor.eqb (getColor (at10x12 b index)) (getColorToMove b).

Definition flagOf (flags : bool * bool) (c : PieceColor.t) : bool :=
  match c with PieceColor.Black => fst flags | PieceColor.White => snd flags end.

Definition getCastleLeft (b : t) (c : PieceColor.t) : bool :=
  flagOf (canCastleLeft (currentState b)) c.

Definition getCastleRight (b : t) (c : PieceColor.t) : bool :=
  flagOf (canCastleRight (currentState b)) c.

Definition getEnPassantSquare (b : t) : Z := enPassantSquare (currentState b).

Definition getEnPassantSquareToCapture (b : t) : Z :=
  enPassantSquareToCapture (currentState b).

(** Modelled from the spec: a piece selects one of the sixteen bitboards by
    a single index combining colour and type ("size 16 to only use one index
    instead of two"). *)
Definition bitboardIndex (p : Piece) : Z :=
  PieceType.index (getType p) + 8 * PieceColor.index (getColor p).

Definition emptyBitboard : Bitboard.t := Bitboard.mk 0 [] [] 0.

Definition getBitboard (b : t) (p : Piece) : Bitboard.t :=
  nth (Z.to_nat (bitboardIndex p)) (pieceBitboards (currentState b)) emptyBitboard.

Definition getAllPieceBitboard (b : t) : Bitboard.t :=
  allPieceBitboard (currentState b).

(** Modelled from the spec: [getPieces8x8] is the bitboard iteration of the
    spec, "take lsb, emit, clear lsb", by ascending square index. The
    generator visits its first [getNumPieces()] entries. *)
Definition getPieces8x8 (bb : Bitboard.t) : list Z := Bitboard.occupied (Bitboard.bits bb).

Definition piecesOf (bb : Bitboard.t) : list Z :=
  firstn (Z.to_nat (Bitboard.popcount (Bitboard.bits bb))) (getPieces8x8 bb).

End Board.

(** ** Utils (ChessBot/Utils/ChessTerms.hpp, ChessBot/Utils/Coordinates.hpp) *)

Module ChessTerms.

(** Modelled from the spec: the promotion pieces, in the order the spec
    lists them. *)
Definition promotionPieces : list PieceType.t :=
  [PieceType.Queen; PieceType.Rook; PieceType.Bishop; PieceType.Knight].

(** Modelled from the spec: a compact square is on row [row] when its rank
    index is [row]. *)
Definition isOnRow (square row : Z) : bool := square / 8 =? row.

(** Modelled from the spec: the file of a padded index. *)
Definition getXCoord (index : Z) : Z := index mod 10 - 1.

End ChessTerms.
(** ** Move generator (ChessBot/src/MoveGenerator.cpp) *)

Module Direction.
(** Modelled from the spec: the [Direction] constants are not among the
    sources. They are the eight compass offsets as padded-index deltas; the
    generator advances white pawns by -10, so north is -10. *)
Definition N : Z := -10.
Definition S : Z := 10.
Definition W : Z := -1.
Definition E : Z := 1.
Definition NW : Z := -11.
Definition NE : Z := -9.
Definition SW : Z := 9.
Definition SE : Z := 11.
End Direction.

Module MoveGenerator.
Import Board.

(** The generator object: its buffer of generated moves. *)
Record t : Type := mk { generatedMoves : list Move }.

Definition clear (g : t) : t := mk [].

Definition emplace_back (g : t) (m : Move) : t := mk (generatedMoves g ++ [m]).

(** [slidingPieceOffsets] (Thera/MoveGenerator.hpp): rook directions first,
    bishop directions last. *)
Definition slidingPieceOffsets : list Z :=
  [Direction.N; Direction.W; Direction.E; Direction.S;
   Direction.NW; Direction.NE; Direction.SW; Direction.SE].

(** [knightOffsets] (Thera/MoveGenerator.hpp). *)
Definition knightOffsets : list Z :=
  [Direction.N + Direction.NE; Direction.N + Direction.NW;
   Direction.W + Direction.NW; Direction.W + Direction.SW;
   Direction.S + Direction.SE; Direction.S + Direction.SW;
   Direction.E + Direction.NE; Direction.E + Direction.SE].

(** Modelled from the spec: [kingKnightOffsets] is declared in
    ChessBot/MoveGenerator.hpp, which is not among the sources; the
    generator reads entries 0..7 for a king and 8..15 for a knight, so the
    king's eight compass offsets come first and the knight's offsets last. *)
Definition kingKnightOffsets : list Z := slidingPieceOffsets ++ knightOffsets.

(** A loop over a list of indices whose body may fail to terminate within
    its rounds. *)
Fixpoint forEach {A : Type} (l : list A) (body : A -> t -> option t) (g : t)
  : option t :=
  match l with
  | [] => Some g
  | x :: rest =>
      match body x g with
      | Some g' => forEach rest body g'
      | None => None
      end
  end.

Definition isNone (p : Piece) : bool := PieceType.eqb (getType p) PieceType.None.

Definition isOpponent (b : Board.t) (p : Piece) : bool :=
  PieceColor.eqb (getColor p) (PieceColor.opposite (getColorToMove b)).

Definition moveTo (square pos : Z) : Move :=
  newMove (to10x12Coords square) (to10x12Coords pos).

(** The [while (Board::isOnBoard8x8(pos, direction))] loop of
    [generateSlidingMoves]; [None] when the rounds given do not suffice. *)
Fixpoint slide (fuel : nat) (b : Board.t) (square pos direction : Z) (g : t)
  : option t :=
  match fuel with
  | O => None
  | S fuel' =>
      if isOnBoard8x8 pos direction then
        let pos' := applyOffset pos direction in
        if isNone (at_ b pos') then
          slide fuel' b square pos' direction (emplace_back g (moveTo square pos'))
        else if isOpponent b (at_ b pos') then
          Some (emplace_back g (moveTo square pos'))
        else Some g
      else Some g
  end.

(** A ray holds at most seven squares, so eight rounds reach its end. *)
Definition slideRounds : nat := 8.

(** The [for] loop over [directionIdx] of [generateSlidingMoves]. *)
Definition directionsLoop (b : Board.t) (square startIdx endIdx : Z) (g : t)
  : option t :=
  forEach (zrange startIdx (Z.to_nat (endIdx - startIdx)))
          (fun directionIdx =>
             slide slideRounds b square square
                   (nth (Z.to_nat directionIdx) slidingPieceOffsets 0))
          g.

Definition generateSlidingMoves (b : Board.t) (square : Z) (g : t) : option t :=
  if negb (PieceColor.eqb (getColor (at_ b square)) (getColorToMove b)) then Some g
  else
    let startDirectionIdx := 0 in
    let endDirectionIdx := Z.of_nat (length slidingPieceOffsets) in
    match getType (at_ b square) with
    | PieceType.Rook => directionsLoop b square startDirectionIdx 4 g
    | PieceType.Bishop => directionsLoop b square 4 endDirectionIdx g
    | PieceType.Queen => directionsLoop b square startDirectionIdx endDirectionIdx g
    | _ => Some g
    end.

Definition generateAllSlidingMoves (b : Board.t) (g : t) : option t :=
  forEach (zrange 0 64) (generateSlidingMoves b) g.

(** One round of the offset loop of [generateKingKnightMoves]. *)
Definition stepMove (b : Board.t) (square direction : Z) (g : t) : t :=
  if isOnBoard8x8 square direction then
    let pos := applyOffset square direction in
    if isNone (at_ b pos) then emplace_back g (moveTo square pos)
    else if isOpponent b (at_ b pos) then emplace_back g (moveTo square pos)
    else g
  else g.

Definition castlingMove (square kingOffset rookFrom rookTo : Z) : Move :=
  mkMove (to10x12Coords square) (to10x12Coords (applyOffset square kingOffset))
         PieceType.None true false false 0
         (Some (to10x12Coords (applyOffset square rookFrom),
                to10x12Coords (applyOffset square rookTo))).

Definition castleRightMoves (b : Board.t) (square : Z) (g : t) : t :=
  if getCastleRight b (getColor (at_ b square)) then
    if isNone (at_ b (applyOffset square 1)) && isNone (at_ b (applyOffset square 2))
    then emplace_back g (castlingMove square 2 3 1)
    else g
  else g.

Definition castleLeftMoves (b : Board.t) (square : Z) (g : t) : t :=
  if getCastleLeft b (getColor (at_ b square)) then
    if isNone (at_ b (applyOffset square (-1))) &&
       isNone (at_ b (applyOffset square (-2))) &&
       isNone (at_ b (applyOffset square (-3)))
    then emplace_back g (castlingMove square (-2) (-4) (-1))
    else g
  else g.

(** The [for] loop over [directionIdx] of [generateKingKnightMoves]. *)
Definition offsetsLoop (b : Board.t) (square startIdx endIdx : Z) (g : t) : t :=
  fold_left (fun g' directionIdx =>
               stepMove b square
                        (nth (Z.to_nat directionIdx) kingKnightOffsets 0) g')
            (zrange startIdx (Z.to_nat (endIdx - startIdx))) g.

Definition generateKingKnightMoves (b : Board.t) (square : Z) (g : t) : t :=
  if negb (PieceColor.eqb (getColor (at_ b square)) (getColorToMove b)) then g
  else
    let startDirectionIdx := 0 in
    let endDirectionIdx := Z.of_nat (length kingKnightOffsets) in
    match getType (at_ b square) with
    | PieceType.King =>
        castleLeftMoves b square
          (castleRightMoves b square (offsetsLoop b square startDirectionIdx 8 g))
    | PieceType.Knight => offsetsLoop b square 8 endDirectionIdx g
    | _ => g
    end.

Definition generateAllKingKnightMoves (b : Board.t) (g : t) : t :=
  let kings :=
    piecesOf (getBitboard b (mkPiece PieceType.King (getColorToMove b))) in
  let knights :=
    piecesOf (getBitboard b (mkPiece PieceType.Knight (getColorToMove b))) in
  fold_left (fun g' square => generateKingKnightMoves b square g') knights
            (fold_left (fun g' square => generateKingKnightMoves b square g') kings g).

Definition addPawnMove (move : Move) (b : Board.t) (g : t) : t :=
  let targetLine :=
    if PieceColor.eqb (getColor (at10x12 b (startIndex move))) PieceColor.White
    then 0 else 7 in
  if ChessTerms.isOnRow (to8x8Coords (endIndex move)) targetLine then
    fold_left (fun g' promotionType => emplace_back g' (withPromotion move promotionType))
              ChessTerms.promotionPieces g
  else emplace_back g move.

Definition pushMove (square direction10x12 : Z) : Move :=
  mkMove (to10x12Coords square)
         (to10x12Coords (applyOffset square direction10x12))
         PieceType.None false false false 0 None.

Definition doubleMove (square direction10x12 : Z) : Move :=
  let endIdx := to10x12Coords (applyOffset square (direction10x12 * 2)) in
  mkMove (to10x12Coords square) endIdx
         PieceType.None false false true (ChessTerms.getXCoord endIdx) None.

Definition captureMove (square offset : Z) : Move :=
  mkMove (to10x12Coords square) (to10x12Coords (applyOffset square offset))
         PieceType.None false false false 0 None.

Definition enPassantMove (square offset : Z) : Move :=
  mkMove (to10x12Coords square) (to10x12Coords (applyOffset square offset))
         PieceType.None false true false 0 None.

Definition pawnPushes (b : Board.t) (square direction10x12 baseLine : Z) (g : t) : t :=
  if negb (isOccupied b (to10x12Coords (applyOffset square direction10x12))) then
    let g1 := addPawnMove (pushMove square direction10x12) b g in
    if ChessTerms.isOnRow square baseLine &&
       negb (isOccupied b (to10x12Coords (applyOffset square (direction10x12 * 2))))
    then addPawnMove (doubleMove square direction10x12) b g1
    else g1
  else g.

Definition pawnCapture (b : Board.t) (square offset : Z) (g : t) : t :=
  if isOnBoard8x8 square offset &&
     isOccupied b (to10x12Coords (applyOffset square offset)) &&
     negb (isFriendly b (to10x12Coords (applyOffset square offset)))
  then addPawnMove (captureMove square offset) b g
  else g.

Definition pawnEnPassant (b : Board.t) (square direction10x12 : Z) (g : t) : t :=
  if isOnBoard8x8 square (-1) &&
     (getEnPassantSquare b =? to10x12Coords (applyOffset square (-1)))
  then addPawnMove (enPassantMove square (direction10x12 - 1)) b g
  else if isOnBoard8x8 square 1 &&
          (getEnPassantSquare b =? to10x12Coords (applyOffset square 1))
  then addPawnMove (enPassantMove square (direction10x12 + 1)) b g
  else g.

Definition generatePawnMoves (b : Board.t) (square : Z) (g : t) : t :=
  if negb (PieceColor.eqb (getColor (at_ b square)) (getColorToMove b)) then g
  else if negb (PieceType.eqb (getType (at_ b square)) PieceType.Pawn) then g
  else
    let white := PieceColor.eqb (getColor (at_ b square)) PieceColor.White in
    let baseLine := if white then 6 else 1 in
    let direction10x12 := if white then -10 else 10 in
    let g1 := pawnPushes b square direction10x12 baseLine g in
    let g2 := pawnCapture b square (direction10x12 - 1) g1 in
    let g3 := pawnCapture b square (direction10x12 + 1) g2 in
    pawnEnPassant b square direction10x12 g3.

Definition generateAllPawnMoves (b : Board.t) (g : t) : t :=
  fold_left (fun g' square => generatePawnMoves b square g')
            (piecesOf (getBitboard b (mkPiece PieceType.Pawn (getColorToMove b)))) g.

(** [generateAllMoves]: the moves returned, and the generator afterwards. *)
Definition generateAllMoves (g : t) (b : Board.t) : option (list Move * t) :=
  let g0 := clear g in
  match generateAllSlidingMoves b g0 with
  | Some g1 =>
      let g2 := generateAllKingKnightMoves b g1 in
      let g3 := generateAllPawnMoves b g2 in
      Some (generatedMoves g3, g3)
  | None => None
  end.

End MoveGenerator.
(** ** Applying and rewinding moves *)

Module BoardOps.
Import Board.

Definition emptyPiece : Piece := mkPiece PieceType.None PieceColor.White.

Definition updateBitboard (index : Z) (f : Bitboard.t -> Bitboard.t)
           (l : list Bitboard.t) : list Bitboard.t :=
  replaceNth (Z.to_nat index) (f (nth (Z.to_nat index) l emptyBitboard)) l.

Definition pieceAt (s : BoardState) (index : Z) : Piece :=
  at10x12 (mk s []) index.

(** Modelled from the spec: [placePiece] writes the mailbox entry and sets
    the square in the owning bitboard and in the all-piece bitboard
    (Board.cpp is not among the sources). *)
Definition placePiece (index : Z) (p : Piece) (s : BoardState) : BoardState :=
  mkState (replaceNth (Z.to_nat index) p (squares s))
          (updateBitboard (bitboardIndex p)
                          (Bitboard.setSquare (to8x8Coords index) true)
                          (pieceBitboards s))
          (Bitboard.setSquare (to8x8Coords index) true (allPieceBitboard s))
          (colorToMove s) (canCastleLeft s) (canCastleRight s)
          (enPassantSquare s) (enPassantSquareToCapture s).

(** Modelled from the spec: [removePiece] empties the mailbox entry and
    clears the square in the owning bitboard and in the all-piece
    bitboard. *)
Definition removePiece (index : Z) (s : BoardState) : BoardState :=
  mkState (replaceNth (Z.to_nat index) emptyPiece (squares s))
          (updateBitboard (bitboardIndex (pieceAt s index))
                          (Bitboard.setSquare (to8x8Coords index) false)
                          (pieceBitboards s))
          (Bitboard.setSquare (to8x8Coords index) false (allPieceBitboard s))
          (colorToMove s) (canCastleLeft s) (canCastleRight s)
          (enPassantSquare s) (enPassantSquareToCapture s).

Definition clearFlag (flags : bool * bool) (c : PieceColor.t) : bool * bool :=
  match c with
  | PieceColor.Black => (false, snd flags)
  | PieceColor.White => (fst flags, false)
  end.

Definition withCastling (left right : bool * bool) (s : BoardState) : BoardState :=
  mkState (squares s) (pieceBitboards s) (allPieceBitboard s) (colorToMove s)
          left right (enPassantSquare s) (enPassantSquareToCapture s).

(** Modelled from the spec (4.2.1, step 7): [removeCastlings(movedSquare)]
    clears the rights tied to a corner or to a king's home square. Rank 8
    is row 0 of the mailbox, as in the generator, so a8, e8, h8 are the
    padded squares 21, 25, 28 and a1, e1, h1 are 91, 95, 98. *)
Definition removeCastlings (movedSquare : Z) (s : BoardState) : BoardState :=
  let l := canCastleLeft s in
  let r := canCastleRight s in
  if movedSquare =? 21 then withCastling (clearFlag l PieceColor.Black) r s
  else if movedSquare =? 28 then withCastling l (clearFlag r PieceColor.Black) s
  else if movedSquare =? 25
  then withCastling (clearFlag l PieceColor.Black) (clearFlag r PieceColor.Black) s
  else if movedSquare =? 91 then withCastling (clearFlag l PieceColor.White) r s
  else if movedSquare =? 98 then withCastling l (clearFlag r PieceColor.White) s
  else if movedSquare =? 95
  then withCastling (clearFlag l PieceColor.White) (clearFlag r PieceColor.White) s
  else s.

(** Modelled from the spec (4.2.1, steps 3 and 4): capture what stands on
    the destination, then move the piece in the mailbox and the bitboards. *)
Definition relocate (from to : Z) (s : BoardState) : BoardState :=
  let s1 := if isOccupied (mk s []) to then removePiece to s else s in
  let p := pieceAt s1 from in
  placePiece to p (removePiece from s1).

(** Modelled from the spec (4.2.1, steps 2 to 6): the piece movements of a
    move, without the state changes; this is [applyMoveStatic]. *)
Definition applyMoveStatic (m : Move) (s : BoardState) : BoardState :=
  let s1 :=
    if isEnPassant m then
      let s' := removePiece (enPassantSquareToCapture s) s in
      placePiece (endIndex m) (pieceAt s' (startIndex m))
                 (removePiece (startIndex m) s')
    else relocate (startIndex m) (endIndex m) s in
  let s2 :=
    if PieceType.eqb (promotionType m) PieceType.None then s1
    else
      let c := getColor (pieceAt s1 (endIndex m)) in
      placePiece (endIndex m) (mkPiece (promotionType m) c)
                 (removePiece (endIndex m) s1) in
  if isCastling m then
    match auxiliaryMove m with
    | Some (rookFrom, rookTo) => relocate rookFrom rookTo s2
    | None => s2
    end
  else s2.

(** Modelled from the spec (4.2.1, steps 7 to 9). *)
Definition updateState (m : Move) (s : BoardState) : BoardState :=
  let s1 := removeCastlings (endIndex m) (removeCastlings (startIndex m) s) in
  let target := if isDoublePawnMove m
                then (startIndex m + endIndex m) / 2 else -1 in
  let victim := if isDoublePawnMove m then endIndex m else -1 in
  mkState (squares s1) (pieceBitboards s1) (allPieceBitboard s1)
          (PieceColor.opposite (colorToMove s1))
          (canCastleLeft s1) (canCastleRight s1) target victim.

(** Modelled from the spec (4.2.1): [applyMove] pushes the snapshot of the
    current state, then performs the move on the current state. *)
Definition applyMove (m : Move) (b : Board.t) : Board.t :=
  mk (updateState m (applyMoveStatic m (currentState b)))
     (currentState b :: rewindStack b).

(** Modelled from the spec: [rewindMove] pops the undo stack and restores
    the snapshot; on an empty stack it fails with the [std::runtime_error]
    that the play loop catches. *)
Definition rewindMove (b : Board.t) : outcome Board.t :=
  match rewindStack b with
  | s :: rest => Ok (mk s rest)
  | [] => Throw (runtime_error "Tried to rewind without a move to undo.")
  end.

End BoardOps.

(** ** Chess rules used to state legality *)

Module Rules.
Import Board Geometry.

(** Every square strictly between [a] and [b] is empty. *)
Definition clearBetween (b : Board.t) (from to : Z) : bool :=
  forallb (fun s => negb (strictlyBetween from to s) ||
                    MoveGenerator.isNone (at_ b s))
          (zrange 0 64).

(** The piece on [from] attacks the square [to]. Rank 8 is row 0, so a white
    pawn attacks towards the lower row. *)
Definition attacks (b : Board.t) (from to : Z) : bool :=
  let df := Z.abs (fileOf to - fileOf from) in
  let dr := Z.abs (rankOf to - rankOf from) in
  let p := at_ b from in
  match getType p with
  | PieceType.None => false
  | PieceType.Pawn =>
      (df =? 1) &&
      (rankOf to - rankOf from =?
       match getColor p with PieceColor.White => -1 | PieceColor.Black => 1 end)
  | PieceType.Knight => ((df =? 1) && (dr =? 2)) || ((df =? 2) && (dr =? 1))
  | PieceType.King => negb (from =? to) && (df <=? 1) && (dr <=? 1)
  | PieceType.Rook =>
      negb (from =? to) && ((df =? 0) || (dr =? 0)) && clearBetween b from to
  | PieceType.Bishop =>
      negb (from =? to) && (df =? dr) && clearBetween b from to
  | PieceType.Queen =>
      negb (from =? to) && ((df =? 0) || (dr =? 0) || (df =? dr)) &&
      clearBetween b from to
  end.

(** Some piece of colour [by] attacks the square [to]. *)
Definition attackedBy (b : Board.t) (by_ : PieceColor.t) (to : Z) : bool :=
  existsb (fun from => PieceColor.eqb (getColor (at_ b from)) by_ &&
                       attacks b from to)
          (zrange 0 64).

Definition isKingOf (b : Board.t) (c : PieceColor.t) (square : Z) : bool :=
  PieceType.eqb (getType (at_ b square)) PieceType.King &&
  PieceColor.eqb (getColor (at_ b square)) c.

(** The king of colour [c] stands on an attacked square. *)
Definition inCheck (b : Board.t) (c : PieceColor.t) : bool :=
  existsb (fun k => isKingOf b c k && attackedBy b (PieceColor.opposite c) k)
          (zrange 0 64).

End Rules.

(** ** Positions for the examples *)

Module Position.
Import Board.

Definition emptyState (c : PieceColor.t) (left right : bool * bool) (ep : Z)
  : BoardState :=
  mkState (repeat BoardOps.emptyPiece 120)
          (repeat (Bitboard.mk 0 (repeat (-1) 12) (repeat 0 120) 0) 16)
          (Bitboard.mk 0 (repeat (-1) 32) (repeat 0 120) 0)
          c left right ep (-1).

(** The board holding the listed pieces, each given with its compact
    square. *)
Definition setup (pieces : list (Z * Piece)) (c : PieceColor.t)
           (left right : bool * bool) (ep : Z) : Board.t :=
  mk (fold_left (fun s sp => BoardOps.placePiece (to10x12Coords (fst sp)) (snd sp) s)
                pieces (emptyState c left right ep))
     [].

Definition white (ty : PieceType.t) : Piece := mkPiece ty PieceColor.White.
Definition black (ty : PieceType.t) : Piece := mkPiece ty PieceColor.Black.

Definition backRank : list PieceType.t :=
  [PieceType.Rook; PieceType.Knight; PieceType.Bishop; PieceType.Queen;
   PieceType.King; PieceType.Bishop; PieceType.Knight; PieceType.Rook].

Definition startingPosition : Board.t :=
  setup (combine (zrange 0 8) (map black backRank) ++
         combine (zrange 8 8) (repeat (black PieceType.Pawn) 8) ++
         combine (zrange 48 8) (repeat (white PieceType.Pawn) 8) ++
         combine (zrange 56 8) (map white backRank))
        PieceColor.White (true, true) (true, true) (-1).

End Position.

(** ** Exhaustive checks over the finite tables *)

Module Checks.
Import Bitboard Thera Geometry.

(** The table lookup of [bitScanForward] finds bit [k] in the word whose
    bits 0..k are set, for every [k]. *)
Definition maskChecks : bool :=
  forallb (fun k => foldedLookup (2 ^ (k + 1) - 1) =? k) (zrange 0 64).

(** One table entry agrees with the geometry on every square, has no bit
    above square 63, and is empty for squares that are not aligned. *)
Definition entryChecks (a b : Z) : bool :=
  let v := obstructedAt a b in
  forallb (fun s => Bool.eqb (Z.testbit v s) (strictlyBetween a b s))
          (zrange 0 64)
  && (0 <=? v) && (v <? 2 ^ 64)
  && (aligned a b || (v =? 0))
  && (v =? singleEvaluation a b).

End Checks.

(** ** Vocabulary for the move buffer *)

Module Buffer.
Import MoveGenerator.

(** The moves a step emits when started on an empty buffer. *)
Definition emitted (F : t -> t) : list Move := generatedMoves (F (mk [])).

(** A step that leaves the moves already in the buffer in place and
    appends moves that do not depend on them. *)
Definition appends (F : t -> t) : Prop :=
  forall g, F g = mk (generatedMoves g ++ emitted F).

End Buffer.

(** ** Vocabulary for the sliding generator *)

Module Sliding.
Import Board MoveGenerator.

(** The squares met from [pos] in direction [d], nearest first, up to the
    edge of the board or [n] squares. *)
Fixpoint rayN (n : nat) (pos d : Z) : list Z :=
  match n with
  | O => []
  | S n' =>
      if isOnBoard8x8 pos d
      then applyOffset pos d :: rayN n' (applyOffset pos d) d
      else []
  end.

(** A ray on the 8x8 board has at most seven squares. *)
Definition ray (square d : Z) : list Z := rayN 7 square d.

(** The squares of a ray that receive a move: the empty squares before the
    first piece, and that piece's square if it is an opponent's. *)
Fixpoint reached (b : Board.t) (r : list Z) : list Z :=
  match r with
  | [] => []
  | p :: rest =>
      if isNone (at_ b p) then p :: reached b rest
      else if isOpponent b (at_ b p) then [p]
      else []
  end.

(** The directions walked for each piece type. *)
Definition directionsOf (ty : PieceType.t) : list Z :=
  match ty with
  | PieceType.Rook => firstn 4 slidingPieceOffsets
  | PieceType.Bishop => skipn 4 slidingPieceOffsets
  | PieceType.Queen => slidingPieceOffsets
  | _ => []
  end.

Definition rayMoves (b : Board.t) (square d : Z) : list Move :=
  map (moveTo square) (reached b (ray square d)).

(** The moves of the piece on [square], if it slides and is to move. *)
Definition slidingMovesOf (b : Board.t) (square : Z) : list Move :=
  if negb (PieceColor.eqb (getColor (at_ b square)) (getColorToMove b)) then []
  else flat_map (rayMoves b square) (directionsOf (getType (at_ b square))).

(** The [k]-th square of each ray lies [k+1] steps from the start, every ray
    square is on the board, and the square after the last is off it. *)
Definition rayChecks (square d : Z) : bool :=
  let r := rayN 8 square d in
  (length r <=? 7)%nat &&
  forallb (fun k => (to10x12Coords (nth k r 0) =?
                     to10x12Coords square + (Z.of_nat k + 1) * d) &&
                    (0 <=? nth k r 0) && (nth k r 0 <? 64))
          (seq 0 (length r)) &&
  negb (isOnBoard10x12 (to10x12Coords square + (Z.of_nat (length r) + 1) * d)).


End Sliding.

(** ** Vocabulary for the king, knight and pawn generators *)

Module Stepping.
Import Board MoveGenerator.

(** The move of a king or knight on [square] by the offset [d], if the
    target is on the board and empty or held by the opponent. *)
Definition stepMovesOf (b : Board.t) (square d : Z) : list Move :=
  if isOnBoard8x8 square d then
    if isNone (at_ b (applyOffset square d)) ||
       isOpponent b (at_ b (applyOffset square d))
    then [moveTo square (applyOffset square d)]
    else []
  else [].

Definition offsetMovesOf (b : Board.t) (square startIdx endIdx : Z) : list Move :=
  flat_map (fun i => stepMovesOf b square (nth (Z.to_nat i) kingKnightOffsets 0))
           (zrange startIdx (Z.to_nat (endIdx - startIdx))).

(** What the generator examines before it emits a castling move. *)
Definition mayCastleRight (b : Board.t) (square : Z) : bool :=
  getCastleRight b (getColor (at_ b square)) &&
  isNone (at_ b (applyOffset square 1)) &&
  isNone (at_ b (applyOffset square 2)).

Definition mayCastleLeft (b : Board.t) (square : Z) : bool :=
  getCastleLeft b (getColor (at_ b square)) &&
  isNone (at_ b (applyOffset square (-1))) &&
  isNone (at_ b (applyOffset square (-2))) &&
  isNone (at_ b (applyOffset square (-3))).

Definition castlingMovesOf (b : Board.t) (square : Z) : list Move :=
  (if mayCastleRight b square then [castlingMove square 2 3 1] else []) ++
  (if mayCastleLeft b square then [castlingMove square (-2) (-4) (-1)] else []).

Definition kingKnightMovesOf (b : Board.t) (square : Z) : list Move :=
  if negb (PieceColor.eqb (getColor (at_ b square)) (getColorToMove b)) then []
  else match getType (at_ b square) with
       | PieceType.King => offsetMovesOf b square 0 8 ++ castlingMovesOf b square
       | PieceType.Knight => offsetMovesOf b square 8 16
       | _ => []
       end.

(** The destination of a pawn move lies on the last rank of the pawn that
    stands on its start square. *)
Definition onLastRank (b : Board.t) (m : Move) : bool :=
  ChessTerms.isOnRow
    (to8x8Coords (endIndex m))
    (if PieceColor.eqb (getColor (at10x12 b (startIndex m))) PieceColor.White
     then 0 else 7).

(** What becomes of one pawn move. *)
Definition fanOut (b : Board.t) (m : Move) : list Move :=
  if onLastRank b m
  then [withPromotion m PieceType.Queen; withPromotion m PieceType.Rook;
        withPromotion m PieceType.Bishop; withPromotion m PieceType.Knight]
  else [m].

Definition mayCapture (b : Board.t) (square offset : Z) : bool :=
  isOnBoard8x8 square offset &&
  isOccupied b (to10x12Coords (applyOffset square offset)) &&
  negb (isFriendly b (to10x12Coords (applyOffset square offset))).

(** The en-passant square of the board is the square next to the pawn, on
    the side [side] (-1 left, 1 right). *)
Definition besideEnPassant (b : Board.t) (square side : Z) : bool :=
  isOnBoard8x8 square side &&
  (getEnPassantSquare b =? to10x12Coords (applyOffset square side)).

(** The pawn moves the generator builds before promotion is considered,
    for a pawn on [square] advancing by [d] from the row [baseLine]. *)
Definition pawnBaseMoves (b : Board.t) (square d baseLine : Z) : list Move :=
  (if negb (isOccupied b (to10x12Coords (applyOffset square d))) then
     pushMove square d ::
     (if ChessTerms.isOnRow square baseLine &&
         negb (isOccupied b (to10x12Coords (applyOffset square (d * 2))))
      then [doubleMove square d] else [])
   else []) ++
  (if mayCapture b square (d - 1) then [captureMove square (d - 1)] else []) ++
  (if mayCapture b square (d + 1) then [captureMove square (d + 1)] else []) ++
  (if besideEnPassant b square (-1) then [enPassantMove square (d - 1)]
   else if besideEnPassant b square 1 then [enPassantMove square (d + 1)]
   else []).

Definition isPawnToMove (b : Board.t) (square : Z) : bool :=
  PieceColor.eqb (getColor (at_ b square)) (getColorToMove b) &&
  PieceType.eqb (getType (at_ b square)) PieceType.Pawn.

Definition pawnDirection (b : Board.t) (square : Z) : Z :=
  if PieceColor.eqb (getColor (at_ b square)) PieceColor.White then -10 else 10.

Definition pawnBaseLine (b : Board.t) (square : Z) : Z :=
  if PieceColor.eqb (getColor (at_ b square)) PieceColor.White then 6 else 1.

Definition pawnMovesOf (b : Board.t) (square : Z) : list Move :=
  if isPawnToMove b square
  then flat_map (fanOut b)
                (pawnBaseMoves b square (pawnDirection b square) (pawnBaseLine b square))
  else [].

Definition kingSquares (b : Board.t) : list Z :=
  piecesOf (getBitboard b (mkPiece PieceType.King (getColorToMove b))).
Definition knightSquares (b : Board.t) : list Z :=
  piecesOf (getBitboard b (mkPiece PieceType.Knight (getColorToMove b))).
Definition pawnSquares (b : Board.t) : list Z :=
  piecesOf (getBitboard b (mkPiece PieceType.Pawn (getColorToMove b))).

(** All the moves generated for a board, in the order generated. *)
Definition allMovesOf (b : Board.t) : list Move :=
  flat_map (Sliding.slidingMovesOf b) (zrange 0 64) ++
  flat_map (kingKnightMovesOf b) (kingSquares b ++ knightSquares b) ++
  flat_map (pawnMovesOf b) (pawnSquares b).

(** The shape every generated move has: it leaves a square that holds a
    piece of the side to move and, en passant aside, lands on a square that
    is empty or holds an opposing piece. *)
Definition wellShaped (b : Board.t) (m : Move) : Prop :=
  exists square,
    0 <= square < 64 /\
    startIndex m = to10x12Coords square /\
    isNone (at_ b square) = false /\
    getColor (at_ b square) = getColorToMove b /\
    (isEnPassant m = false ->
     isNone (at10x12 b (endIndex m)) = true \/
     isOpponent b (at10x12 b (endIndex m)) = true).

End Stepping.

(** ** Move generator: moves of one square (ChessBot/src/MoveGenerator.cpp) *)

Module SquareMoves.
Import Board MoveGenerator.

(** [generateMoves(board, square)]: the moves returned, and the generator
    afterwards. When the square does not hold the colour to move the
    function returns an empty list before the buffer is cleared. *)
Definition generateMoves (g : t) (b : Board.t) (square : Z)
  : option (list Move * t) :=
  if negb (PieceColor.eqb (getColor (at_ b square)) (getColorToMove b))
  then Some ([], g)
  else
    let g0 := clear g in
    match generateSlidingMoves b square g0 with
    | Some g1 =>
        let g2 := generateKingKnightMoves b square g1 in
        let g3 := generatePawnMoves b square g2 in
        Some (generatedMoves g3, g3)
    | None => None
    end.

End SquareMoves.

(** ** Vocabulary for the lines and steps of the pieces *)

Module Lines.
Import Board MoveGenerator Geometry.

(** Two distinct squares on a common rank or file. *)
Definition rookLine (a t : Z) : bool :=
  negb (a =? t) &&
  ((fileOf a =? fileOf t) || (rankOf a =? rankOf t)).

(** Two distinct squares on a common diagonal. *)
Definition bishopLine (a t : Z) : bool :=
  negb (a =? t) &&
  (Z.abs (fileOf t - fileOf a) =? Z.abs (rankOf t - rankOf a)).

Definition lineOf (ty : PieceType.t) (a t : Z) : bool :=
  match ty with
  | PieceType.Rook => rookLine a t
  | PieceType.Bishop => bishopLine a t
  | PieceType.Queen => rookLine a t || bishopLine a t
  | _ => false
  end.

(** A king's step: a neighbouring square. *)
Definition kingStep (a t : Z) : bool :=
  negb (a =? t) &&
  (Z.abs (fileOf t - fileOf a) <=? 1) && (Z.abs (rankOf t - rankOf a) <=? 1).

(** A knight's jump: one file and two ranks away, or two files and one
    rank. *)
Definition knightJump (a t : Z) : bool :=
  let df := Z.abs (fileOf t - fileOf a) in
  let dr := Z.abs (rankOf t - rankOf a) in
  ((df =? 1) && (dr =? 2)) || ((df =? 2) && (dr =? 1)).

(** The step of the piece type that moves by fixed offsets. *)
Definition stepOf (ty : PieceType.t) (a t : Z) : bool :=
  match ty with
  | PieceType.King => kingStep a t
  | PieceType.Knight => knightJump a t
  | _ => false
  end.

(** A square a piece may move onto: empty, or held by the opponent. *)
Definition targetOk (b : Board.t) (t : Z) : Prop :=
  isNone (at_ b t) = true \/ isOpponent b (at_ b t) = true.

(** The line a direction index walks: the first four are rook lines, the
    last four bishop lines. *)
Definition lineClass (i : nat) (a t : Z) : bool :=
  if (i <? 4)%nat then rookLine a t else bishopLine a t.

Definition direction (i : nat) : Z := nth i slidingPieceOffsets 0.

(** For the ray from [square] in the direction of index [i]: each ray
    square lies on the line of the direction, and the squares strictly
    between it and [square] are the ray squares before it. *)
Definition rayLineChecks (square : Z) (i : nat) : bool :=
  let r := Sliding.ray square (direction i) in
  forallb (fun k =>
             let t := nth k r 0 in
             lineClass i square t &&
             forallb (fun s => Bool.eqb (strictlyBetween square t s)
                                        (existsb (Z.eqb s) (firstn k r)))
                     (zrange 0 64))
          (seq 0 (length r)).

(** Every square on a line through [square] lies on one of the rays. *)
Definition lineCoverChecks (square t : Z) : bool :=
  (negb (rookLine square t) ||
   existsb (fun i => existsb (Z.eqb t) (Sliding.ray square (direction i)))
           (seq 0 4)) &&
  (negb (bishopLine square t) ||
   existsb (fun i => existsb (Z.eqb t) (Sliding.ray square (direction i)))
           (seq 4 4)).

Definition stepClass (i : nat) (a t : Z) : bool :=
  if (i <? 8)%nat then kingStep a t else knightJump a t.

(** A king's or knight's offset that stays on the board leads to a board
    square one step of the piece away. *)
Definition stepChecks (square : Z) (i : nat) : bool :=
  let d := nth i kingKnightOffsets 0 in
  negb (isOnBoard8x8 square d) ||
  ((0 <=? applyOffset square d) && (applyOffset square d <? 64) &&
   stepClass i square (applyOffset square d)).

(** Every square one step away is reached by one of the offsets. *)
Definition stepCoverChecks (square t : Z) : bool :=
  (negb (kingStep square t) ||
   existsb (fun i => let d := nth i kingKnightOffsets 0 in
                     isOnBoard8x8 square d && (applyOffset square d =? t))
           (seq 0 8)) &&
  (negb (knightJump square t) ||
   existsb (fun i => let d := nth i kingKnightOffsets 0 in
                     isOnBoard8x8 square d && (applyOffset square d =? t))
           (seq 8 8)).

(** The bitboards of the side to move list its kings, knights and pawns
    wherever the mailbox shows them. *)
Definition coherent (b : Board.t) : bool :=
  forallb (fun square =>
             let p := at_ b square in
             negb (PieceColor.eqb (getColor p) (getColorToMove b)) ||
             match getType p with
             | PieceType.King | PieceType.Knight | PieceType.Pawn =>
                 existsb (Z.eqb square)
                         (piecesOf (getBitboard b (mkPiece (getType p)
                                                           (getColorToMove b))))
             | _ => true
             end)
          (zrange 0 64).

End Lines.

(** ** Vocabulary for the moves of one square *)

Module PerSquare.
Import Board MoveGenerator Sliding Stepping.

(** All the moves generated for the piece on one square. *)
Definition movesOf (b : Board.t) (square : Z) : list Move :=
  slidingMovesOf b square ++ kingKnightMovesOf b square ++ pawnMovesOf b square.

(** The lengths of the four rook rays and of the four bishop rays from a
    square stay within 14 and 13. *)
Definition rayLengthChecks (square : Z) : bool :=
  let len i := length (ray square (nth i slidingPieceOffsets 0)) in
  (len 0 + len 1 + len 2 + len 3 <=? 14)%nat &&
  (len 4 + len 5 + len 6 + len 7 <=? 13)%nat.

(** The greatest number of moves a piece of each type can be given. *)
Definition mostMoves (ty : PieceType.t) : nat :=
  match ty with
  | PieceType.Rook => 14
  | PieceType.Bishop => 13
  | PieceType.Queen => 27
  | PieceType.King => 10
  | PieceType.Knight => 8
  | _ => 0
  end.

End PerSquare.

(** ** Bitboard: the remaining operations (Thera/Bitboard.hpp) *)

Module BitboardOps.
Import Bitboard.

Definition withBits (x : Z) (b : t) : t :=
  mk x (occupiedSquares b) (reverseOccupiedSquares b) (numPieces b).

(** [__uint128_t(1) << bitIndex]: shifting by a negative amount, or by the
    width of the type or more, has no defined behaviour. *)
Definition shiftOne (bitIndex : Z) : outcome Z :=
  if (0 <=? bitIndex) && (bitIndex <? 128) then Ok (Z.shiftl 1 bitIndex)
  else Undefined.

(** [flipBit(bitIndex)]: [bits ^= 1 << bitIndex]. *)
Definition flipBit (bitIndex : Z) (b : t) : outcome t :=
  one <- shiftOne bitIndex ;; Ok (withBits (Z.lxor (bits b) one) b).

(** [setBit(bitIndex)]: [bits |= 1 << bitIndex]. *)
Definition setBit (bitIndex : Z) (b : t) : outcome t :=
  one <- shiftOne bitIndex ;; Ok (withBits (Z.lor (bits b) one) b).

(** [clearBit(bitIndex)]: [bits &= ~(1 << bitIndex)], the complement taken
    on 128 bits. *)
Definition clearBit (bitIndex : Z) (b : t) : outcome t :=
  one <- shiftOne bitIndex ;;
  Ok (withBits (Z.land (bits b) (Z.lxor (2 ^ 128 - 1) one)) b).

(** [hasPieces()]. *)
Definition hasPieces (b : t) : bool := negb (bits b =? 0).

(** [clear()]: the reverse table is left as it is. *)
Definition clear (b : t) : t :=
  mk 0 (repeat (-1) (length (occupiedSquares b))) (reverseOccupiedSquares b) 0.

(** [applyMove(move)], given the compact positions [Coordinate8x8(move.startIndex).pos]
    and [Coordinate8x8(move.endIndex).pos]. Debug builds test the start
    square and the two ranges first, and move the entry of the piece in the
    two tables afterwards. *)
Definition applyMove (build : BuildType) (startPos endPos : Z) (b : t)
  : outcome t :=
  checked <-
    match build with
    | Debug =>
        occ <- isOccupied Debug startPos b ;;
        if negb occ
        then Throw (runtime_error "Tried to make move starting on an empty square.")
        else if negb (Utils.isInRange startPos 0
                        (Z.of_nat (length (reverseOccupiedSquares b))))
        then Throw (out_of_range "Move start index is outside the board")
        else if negb (Utils.isInRange endPos 0
                        (Z.of_nat (length (reverseOccupiedSquares b))))
        then Throw (out_of_range "Move end index is outside the board")
        else Ok tt
    | Release => Ok tt
    end ;;
  b1 <- clearBit startPos b ;;
  b2 <- setBit endPos b1 ;;
  match build with
  | Debug =>
      pieceIndex <- arrayAt (reverseOccupiedSquares b2) startPos ;;
      ros <- arrayAtWrite (reverseOccupiedSquares b2) startPos (-1) ;;
      ros' <- arrayAtWrite ros endPos pieceIndex ;;
      os <- arrayAtWrite (occupiedSquares b2) pieceIndex endPos ;;
      Ok (mk (bits b2) os ros' (numPieces b2))
  | Release => Ok b2
  end.

(** [getBoard8x8()]: the loop over the 64 squares, each round writing one
    bit of the result. *)
Definition getBoard8x8 (b : t) : Z :=
  fold_left (fun board i => wrap64 (Utils.setBit board i (Utils.getBit (bits b) i)))
            (zrange 0 64) 0.

End BitboardOps.


(** ** Vocabulary for telling the targets of a square apart *)

Module Targets.
Import Board MoveGenerator Sliding.

(** No entry of the list occurs twice. *)
Fixpoint distinct (l : list Z) : bool :=
  match l with
  | [] => true
  | x :: rest => negb (existsb (Z.eqb x) rest) && distinct rest
  end.

(** The squares of the eight rays from a square. *)
Definition rayTargets (square : Z) : list Z :=
  flat_map (ray square) slidingPieceOffsets.

(** The squares the king's or knight's offsets with the indices
    [lo .. lo+n-1] lead to, those off the board left out. *)
Definition stepTarget (square i : Z) : list Z :=
  let d := nth (Z.to_nat i) kingKnightOffsets 0 in
  if isOnBoard8x8 square d then [applyOffset square d] else [].

Definition stepTargets (square lo : Z) (n : nat) : list Z :=
  flat_map (stepTarget square) (zrange lo n).

(** The padded destinations of a pawn's push and of its two captures. *)
Definition pawnTargets (square d : Z) : list Z :=
  [to10x12Coords (applyOffset square d);
   to10x12Coords (applyOffset square (d - 1));
   to10x12Coords (applyOffset square (d + 1))].

(** From one square, the rays share no square, neither do the king's steps
    nor the knight's jumps, the three pawn destinations differ, and so do
    the two castling destinations. *)
Definition targetChecks (square : Z) : bool :=
  distinct (rayTargets square) &&
  distinct (stepTargets square 0 8) &&
  distinct (stepTargets square 8 8) &&
  distinct (pawnTargets square (-10)) &&
  distinct (pawnTargets square 10) &&
  negb (to10x12Coords (applyOffset square 2) =?
        to10x12Coords (applyOffset square (-2))).

End Targets.

(** ** Bitboard: construction from a raw word (Thera/Bitboard.hpp) *)

Module BitboardInit.
Import Bitboard BitboardOps.

(** [pieces.at(i)] on the array [getPieces] returned: checked against the
    capacity [N]; the entries after those written hold no determined
    value. *)
Definition piecesAt (N : nat) (pieces : list Z) (i : Z) : outcome Z :=
  if (0 <=? i) && (i <? Z.of_nat N)
  then match nth_error pieces (Z.to_nat i) with
       | Some square => Ok square
       | None => Undefined
       end
  else Throw (out_of_range "array::at").

(** The loop [for (int i=0; i<std::popcount(raw); i++) placePiece(pieces.at(i))]. *)
Fixpoint placeAll (N : nat) (pieces : list Z) (indices : list Z) (b : t)
  : outcome t :=
  match indices with
  | [] => Ok b
  | i :: rest =>
      square <- piecesAt N pieces i ;;
      b' <- placePiece Debug square b ;;
      placeAll N pieces rest b'
  end.

(** [Bitboard(__uint128_t raw)]. The two tables are not initialised by the
    constructor; [os0] and [ros0] stand for what they hold on entry. *)
Definition construct (build : BuildType) (N : nat) (os0 ros0 : list Z) (raw : Z)
  : outcome t :=
  match build with
  | Debug =>
      let b0 := mk raw os0 ros0 (popcount raw) in
      pieces <- getPieces Debug N b0 ;;
      b2 <- placeAll N pieces (zrange 0 (Z.to_nat (popcount raw))) (clear b0) ;;
      if negb (popcount (bits b2) =? numPieces b2)
      then Throw (runtime_error "Desync between bitboard and numPieces detected.")
      else Ok (withBits raw b2)
  | Release => Ok (mk raw os0 ros0 0)
  end.

End BitboardInit.


(** ** Vocabulary for the en-passant target *)

Module EnPassant.
Import Board.





End EnPassant.

(** ** Vocabulary for the rules of movement

    The moves the rules of movement allow the side to move, stated on the
    files and ranks of the 8x8 board, king safety aside. Row 0 is rank 8,
    so white advances towards the lower row. *)

Module PseudoLegal.
Import Board Geometry Lines.

(** The row a pawn of colour [c] advances by, its last row, its base row,
    and the home square of the king. *)
Definition forward (c : PieceColor.t) : Z :=
  match c with PieceColor.White => -1 | PieceColor.Black => 1 end.

(** The moves, by kind. *)
Definition plain (from to : Z) : Move :=
  mkMove (to10x12Coords from) (to10x12Coords to)
         PieceType.None false false false 0 None.







(** A move to a board square [t] that is empty or holds an enemy piece. *)
Definition plainTo (b : Board.t) (from : Z) (m : Move)
           (reach : Z -> Z -> bool) : Prop :=
  exists t, 0 <= t < 64 /\ m = plain from t /\ reach from t = true /\ targetOk b t.






End PseudoLegal.


(** * Properties *)

(** ** Lowest set bit *)

Section LowestSetBit.

Lemma trailingZeros_nonneg (p : positive) : 0 <= trailingZeros p.
Proof. induction p; cbn [trailingZeros]; lia. Qed.

Lemma trailingZeros_set (p : positive) :
  Z.testbit (Zpos p) (trailingZeros p) = true.
Proof.
  induction p as [q IH | q IH | ]; cbn [trailingZeros]; try reflexivity.
  pose proof (trailingZeros_nonneg q).
  replace (1 + trailingZeros q) with (Z.succ (trailingZeros q)) by lia.
  change (Zpos (xO q)) with (2 * Zpos q).
  rewrite Z.testbit_even_succ by assumption. exact IH.
Qed.

Lemma trailingZeros_clear_below (p : positive) (i : Z) :
  0 <= i < trailingZeros p -> Z.testbit (Zpos p) i = false.
Proof.
  revert i. induction p as [q IH | q IH | ]; cbn [trailingZeros]; intros i Hi;
    try lia.
  destruct (Z.eq_dec i 0) as [-> | Hne]; [reflexivity |].
  replace i with (Z.succ (i - 1)) by lia.
  change (Zpos (xO q)) with (2 * Zpos q).
  rewrite Z.testbit_even_succ by lia. apply IH. lia.
Qed.

Lemma lxor_even_odd (a b : Z) : Z.lxor (2 * a) (2 * b + 1) = 2 * Z.lxor a b + 1.
Proof.
  apply Z.bits_inj'. intros n Hn.
  rewrite Z.lxor_spec.
  destruct (Z.eq_dec n 0) as [-> | Hne].
  - rewrite Z.testbit_even_0, !Z.testbit_odd_0. reflexivity.
  - replace n with (Z.succ (n - 1)) by lia.
    rewrite Z.testbit_even_succ, !Z.testbit_odd_succ, Z.lxor_spec by lia.
    reflexivity.
Qed.

Lemma lxor_pred_mask (p : positive) :
  Z.lxor (Zpos p) (Zpos p - 1) = 2 ^ (trailingZeros p + 1) - 1.
Proof.
  induction p as [q IH | q IH | ]; cbn [trailingZeros].
  - replace (Zpos (xI q) - 1) with (2 * Zpos q) by lia.
    change (Zpos (xI q)) with (2 * Zpos q + 1).
    rewrite Z.lxor_comm, lxor_even_odd, Z.lxor_nilpotent. reflexivity.
  - replace (Zpos (xO q) - 1) with (2 * (Zpos q - 1) + 1) by lia.
    change (Zpos (xO q)) with (2 * Zpos q).
    rewrite lxor_even_odd, IH.
    pose proof (trailingZeros_nonneg q).
    replace (1 + trailingZeros q + 1) with (Z.succ (trailingZeros q + 1)) by lia.
    rewrite Z.pow_succ_r by lia. lia.
  - reflexivity.
Qed.

Lemma trailingZeros_lt (p : positive) (n : Z) :
  0 <= n -> Zpos p < 2 ^ n -> trailingZeros p < n.
Proof.
  intros Hn Hlt.
  destruct (Z_lt_le_dec (trailingZeros p) n) as [H | H]; [exact H | exfalso].
  pose proof (trailingZeros_set p) as Hset.
  rewrite Z.bits_above_log2 in Hset; [discriminate | lia |].
  apply Z.lt_le_trans with n; [| exact H].
  apply Z.log2_lt_pow2; lia.
Qed.

Lemma testbit_ones_mask (k i : Z) :
  0 <= k -> 0 <= i -> Z.testbit (2 ^ (k + 1) - 1) i = (i <=? k).
Proof.
  intros Hk Hi.
  replace (2 ^ (k + 1) - 1) with (Z.ones (k + 1))
    by (rewrite Z.ones_equiv; lia).
  destruct (Z.leb_spec i k).
  - apply Z.ones_spec_low. lia.
  - apply Z.ones_spec_high. lia.
Qed.

(** Resetting the least significant one bit, bit by bit. *)
Lemma reset_lsb_testbit (p : positive) (i : Z) :
  0 <= i ->
  Z.testbit (Z.land (Zpos p) (Zpos p - 1)) i =
  Z.testbit (Zpos p) i && negb (i =? trailingZeros p).
Proof.
  intros Hi.
  pose proof (trailingZeros_nonneg p) as Hk.
  assert (Hpred : Zpos p - 1 = Z.lxor (Zpos p) (2 ^ (trailingZeros p + 1) - 1)).
  { rewrite <- lxor_pred_mask, <- Z.lxor_assoc, Z.lxor_nilpotent, Z.lxor_0_l.
    reflexivity. }
  rewrite Z.land_spec, Hpred, Z.lxor_spec, testbit_ones_mask by lia.
  destruct (Z.leb_spec i (trailingZeros p)) as [Hle | Hgt].
  - destruct (Z.eqb_spec i (trailingZeros p)) as [-> | Hne].
    + rewrite trailingZeros_set. reflexivity.
    + rewrite trailingZeros_clear_below by lia. reflexivity.
  - destruct (Z.eqb_spec i (trailingZeros p)); [lia |].
    destruct (Z.testbit (Zpos p) i); reflexivity.
Qed.

End LowestSetBit.

Module BitboardFacts.
Import Bitboard Checks.

Lemma maskChecks_true : maskChecks = true.
Proof. vm_compute. reflexivity. Qed.

Lemma In_zrange (n : nat) (lo x : Z) :
  In x (zrange lo n) <-> lo <= x < lo + Z.of_nat n.
Proof.
  revert lo. induction n as [| n IH]; intros lo; cbn [zrange In].
  - lia.
  - rewrite IH. lia.
Qed.

Lemma foldedLookup_mask (k : Z) :
  0 <= k < 64 -> foldedLookup (2 ^ (k + 1) - 1) = k.
Proof.
  intros Hk. pose proof maskChecks_true as H.
  unfold maskChecks in H. rewrite forallb_forall in H.
  apply Z.eqb_eq, H, In_zrange. simpl. lia.
Qed.

Lemma bitScanForward_trailingZeros (p : positive) :
  Zpos p < 2 ^ 64 -> bitScanForward (Zpos p) = trailingZeros p.
Proof.
  intros Hlt. unfold bitScanForward, wrap64.
  rewrite Z.mod_small by lia.
  rewrite lxor_pred_mask. apply foldedLookup_mask.
  pose proof (trailingZeros_nonneg p).
  pose proof (trailingZeros_lt p 64). lia.
Qed.

Lemma zrange_app (a b : nat) (lo : Z) :
  zrange lo (a + b) = zrange lo a ++ zrange (lo + Z.of_nat a) b.
Proof.
  revert lo. induction a as [| a IH]; intros lo.
  - cbn [zrange Nat.add app]. f_equal. lia.
  - change (S a + b)%nat with (S (a + b)). cbn [zrange app].
    rewrite IH. do 3 f_equal. lia.
Qed.

Lemma zrange_sorted (n : nat) (lo : Z) : StronglySorted Z.lt (zrange lo n).
Proof.
  revert lo. induction n as [| n IH]; intros lo; cbn [zrange]; constructor.
  - apply IH.
  - apply Forall_forall. intros x Hx. apply In_zrange in Hx. lia.
Qed.

Lemma filter_sorted (f : Z -> bool) (l : list Z) :
  StronglySorted Z.lt l -> StronglySorted Z.lt (filter f l).
Proof.
  induction 1 as [| a l Hl IH Ha]; cbn [filter]; [constructor |].
  destruct (f a); [| exact IH].
  constructor; [exact IH |].
  rewrite Forall_forall in *. intros x Hx.
  apply filter_In in Hx. apply Ha, Hx.
Qed.

Lemma filter_none (f : Z -> bool) (l : list Z) :
  (forall x, In x l -> f x = false) -> filter f l = [].
Proof.
  induction l as [| a l IH]; intros H; cbn [filter]; [reflexivity |].
  rewrite (H a (or_introl eq_refl)). apply IH.
  intros x Hx. apply H. right. exact Hx.
Qed.

Lemma land_le_l (a b : Z) : 0 <= a -> Z.land a b <= a.
Proof.
  intros Ha. apply Z.ldiff_le; [exact Ha |].
  apply Z.bits_inj'. intros n Hn.
  rewrite Z.ldiff_spec, Z.land_spec, Z.bits_0.
  destruct (Z.testbit a n); destruct (Z.testbit b n); reflexivity.
Qed.

(** The squares from [lo] up to 63 that are set in [x], given that the
    least significant one bit of [x] is at [k]. *)
Lemma occupied_from_lsb (p : positive) (lo : Z) :
  Zpos p < 2 ^ 64 -> 0 <= lo <= trailingZeros p ->
  filter (Z.testbit (Zpos p)) (zrange lo (Z.to_nat (64 - lo))) =
  trailingZeros p ::
  filter (Z.testbit (Z.land (Zpos p) (Zpos p - 1)))
         (zrange (trailingZeros p + 1) (Z.to_nat (64 - (trailingZeros p + 1)))).
Proof.
  intros Hlt Hlo.
  pose proof (trailingZeros_lt p 64 ltac:(lia) Hlt) as Hk.
  set (k := trailingZeros p) in *.
  replace (Z.to_nat (64 - lo))
    with (Z.to_nat (k - lo) + (1 + Z.to_nat (64 - (k + 1))))%nat by lia.
  rewrite zrange_app, filter_app, filter_none.
  2:{ intros x Hx. apply In_zrange in Hx.
      apply trailingZeros_clear_below. fold k. lia. }
  replace (lo + Z.of_nat (Z.to_nat (k - lo))) with k by lia.
  cbn [app Nat.add zrange filter].
  unfold k at 1. rewrite trailingZeros_set. fold k. f_equal.
  apply filter_ext_in. intros x Hx. apply In_zrange in Hx.
  rewrite reset_lsb_testbit by lia. fold k.
  destruct (Z.eqb_spec x k); [lia |].
  rewrite andb_true_r. reflexivity.
Qed.

Lemma scanLoop_occupied (fuel : nat) :
  forall (x lo : Z),
    0 < x < 2 ^ 64 -> 0 <= lo ->
    (forall i, 0 <= i < lo -> Z.testbit x i = false) ->
    64 - lo <= Z.of_nat fuel ->
    scanLoop fuel x =
    Some (filter (Z.testbit x) (zrange lo (Z.to_nat (64 - lo)))).
Proof.
  induction fuel as [| fuel IH]; intros x lo Hx Hlo Hlow Hfuel;
    destruct x as [| p | p]; try lia;
    pose proof (trailingZeros_lt p 64 ltac:(lia) (proj2 Hx)) as Hk;
    pose proof (trailingZeros_nonneg p) as Hk0;
    pose proof (trailingZeros_set p) as Hset;
    assert (Hlok : lo <= trailingZeros p)
      by (destruct (Z_le_gt_dec lo (trailingZeros p)) as [H | H];
          [exact H | rewrite Hlow in Hset by lia; discriminate]).
  - lia.
  - cbn [scanLoop]. unfold wrap64, wrap128.
    rewrite (Z.mod_small (Zpos p)) by lia.
    rewrite (Z.mod_small (Zpos p - 1)) by lia.
    rewrite bitScanForward_trailingZeros by lia.
    rewrite occupied_from_lsb by lia.
    set (x' := Z.land (Zpos p) (Zpos p - 1)).
    assert (Hx'0 : 0 <= x') by (apply Z.land_nonneg; lia).
    assert (Hx'le : x' <= Zpos p) by (apply land_le_l; lia).
    destruct (Z.eqb_spec x' 0) as [Hz | Hnz].
    + rewrite Hz. rewrite filter_none; [reflexivity |].
      intros i _. apply Z.bits_0.
    + rewrite (IH x' (trailingZeros p + 1)); try lia; [reflexivity |].
      intros i Hi. unfold x'. rewrite reset_lsb_testbit by lia.
      destruct (Z.eqb_spec i (trailingZeros p)).
      * apply andb_false_r.
      * rewrite trailingZeros_clear_below by lia. reflexivity.
Qed.

Lemma scan_occupied (x : Z) : 0 <= x < 2 ^ 64 -> scan x = Some (occupied x).
Proof.
  intros Hx. unfold scan, occupied.
  destruct (Z.eqb_spec x 0) as [-> | Hne].
  - rewrite filter_none; [reflexivity |]. intros i _. apply Z.bits_0.
  - rewrite (scanLoop_occupied 128 x 0); [reflexivity | lia | lia | | lia].
    intros i Hi. lia.
Qed.

Lemma popcount_occupied (x : Z) :
  0 <= x < 2 ^ 64 -> popcount x = Z.of_nat (length (occupied x)).
Proof.
  intros Hx. unfold popcount, occupied.
  change 128%nat with (64 + 64)%nat.
  rewrite zrange_app, filter_app, length_app.
  rewrite (filter_none _ (zrange (0 + Z.of_nat 64) 64)); [cbn [length]; lia |].
  intros i Hi. apply In_zrange in Hi.
  destruct (Z.eq_dec x 0) as [-> | Hne]; [apply Z.bits_0 |].
  apply Z.bits_above_log2; [lia |].
  apply Z.lt_le_trans with 64; [apply Z.log2_lt_pow2; lia | lia].
Qed.

Lemma occupied_spec (x i : Z) :
  In i (occupied x) <-> 0 <= i < 64 /\ Z.testbit x i = true.
Proof.
  unfold occupied. rewrite filter_In, In_zrange. simpl Z.of_nat.
  intuition lia.
Qed.

Lemma occupied_sorted (x : Z) : StronglySorted Z.lt (occupied x).
Proof. apply filter_sorted, zrange_sorted. Qed.

(** C7, as stated, fails on a bitboard that holds more pieces than its
    capacity: [Bitboard<12>(0x1FFF)] has thirteen set bits, all below 64,
    and the thirteenth write of [getPieces] runs past the twelve-entry
    result array. *)
Lemma getPieces_over_capacity :
  let b := Bitboard.mk 0x1FFF (repeat (-1) 12) (repeat 0 120) 0 in
  bits b <> 0 /\ 0 <= bits b < 2 ^ 64 /\
  getPieces Release 12 b <> Ok (occupied (bits b)) /\
  getPieces Release 12 b = Undefined.
Proof.
  cbv zeta. cbn [bits].
  assert (H : getPieces Release 12
                (Bitboard.mk 0x1FFF (repeat (-1) 12) (repeat 0 120) 0)
              = Undefined) by (vm_compute; reflexivity).
  split; [lia |]. split; [lia |]. split; [rewrite H; discriminate | exact H].
Qed.

(** C7 (amended): for every non-empty bitboard of capacity [N] whose set bits
    all lie in 0..63 and number at most [N] (in a debug build, with
    [numPieces] equal to the population count), [getPieces] returns exactly
    the occupied square indices in strictly ascending order; for every
    nonzero 64-bit [bb], [bitScanForward bb] is the index of the least
    significant set bit, and [bb & (bb - 1)] differs from [bb] in exactly
    that bit. *)
Theorem getPieces_ascending (build : BuildType) (N : nat) (b : t) (bb : Z) :
  0 < bits b < 2 ^ 64 ->
  popcount (bits b) <= Z.of_nat N ->
  (build = Debug -> numPieces b = popcount (bits b)) ->
  0 < bb < 2 ^ 64 ->
  (getPieces build N b = Ok (occupied (bits b)) /\
   StronglySorted Z.lt (occupied (bits b)) /\
   (forall i, In i (occupied (bits b)) <->
              0 <= i < 64 /\ Z.testbit (bits b) i = true)) /\
  (let k := bitScanForward bb in
   0 <= k < 64 /\
   Z.testbit bb k = true /\
   (forall i, 0 <= i < k -> Z.testbit bb i = false) /\
   (forall i, 0 <= i ->
      Z.testbit (Z.land bb (wrap64 (bb - 1))) i =
      Z.testbit bb i && negb (i =? k))).
Proof.
  intros Hbits Hcap Hsync Hbb. split.
  - split; [| split; [apply occupied_sorted | apply occupied_spec]].
    unfold getPieces.
    assert (Hguard : match build with
                     | Debug => negb (popcount (bits b) =? numPieces b)
                     | Release => false
                     end = false).
    { destruct build; [| reflexivity].
      rewrite (Hsync eq_refl), Z.eqb_refl. reflexivity. }
    rewrite Hguard, scan_occupied by lia.
    rewrite popcount_occupied in Hcap by lia.
    destruct (Nat.leb_spec (length (occupied (bits b))) N); [reflexivity | lia].
  - destruct bb as [| p | p]; try lia. cbv zeta.
    rewrite bitScanForward_trailingZeros by lia.
    pose proof (trailingZeros_nonneg p).
    pose proof (trailingZeros_lt p 64 ltac:(lia) (proj2 Hbb)).
    repeat split; try lia.
    + apply trailingZeros_set.
    + intros i Hi. apply trailingZeros_clear_below. exact Hi.
    + intros i Hi. unfold wrap64. rewrite Z.mod_small by lia.
      apply reset_lsb_testbit. exact Hi.
Qed.

Lemma getPieces_ascending_witness :
  getPieces Debug 12 (Bitboard.mk 0x8100 (repeat (-1) 12) (repeat 0 120) 2)
  = Ok [8; 15] /\
  bitScanForward 0x8100 = 8 /\
  Z.land 0x8100 (wrap64 (0x8100 - 1)) = 0x8000.
Proof.
  pose (b := Bitboard.mk 0x8100 (repeat (-1) 12) (repeat 0 120) 2).
  assert (H1 : 0 < bits b < 2 ^ 64) by (vm_compute; split; reflexivity).
  assert (H2 : popcount (bits b) <= Z.of_nat 12) by (vm_compute; discriminate).
  assert (H3 : Debug = Debug -> numPieces b = popcount (bits b))
    by (intros _; vm_compute; reflexivity).
  assert (H4 : 0 < 0x8100 < 2 ^ 64) by (vm_compute; split; reflexivity).
  pose proof (getPieces_ascending Debug 12 b 0x8100 H1 H2 H3 H4) as [[Hg _] _].
  split; [exact Hg | split; vm_compute; reflexivity].
Defined.

End BitboardFacts.

(** ** Debug-build checks of placePiece and removePiece *)

Module BitboardChecks.
Import Bitboard.

Lemma placePiece_debug_occupied (pos : Z) (b : t) :
  Utils.getBit (bits b) pos = true ->
  placePiece Debug pos b =
  Throw (if Utils.isInRange pos 0 127
         then invalid_argument "Tried to place piece on already occupied square."
         else out_of_range "Square index is outside the board").
Proof.
  intros Hocc. unfold placePiece, isOccupied.
  destruct (Utils.isInRange pos 0 127); cbn [negb bind]; [| reflexivity].
  rewrite Hocc. reflexivity.
Qed.

Lemma removePiece_debug_empty (pos : Z) (b : t) :
  Utils.getBit (bits b) pos = false ->
  removePiece Debug pos b =
  Throw (if Utils.isInRange pos 0 127
         then invalid_argument "Tried to remove piece from empty square."
         else out_of_range "Square index is outside the board").
Proof.
  intros Hocc. unfold removePiece, isOccupied.
  destruct (Utils.isInRange pos 0 127); cbn [negb bind]; [| reflexivity].
  rewrite Hocc. reflexivity.
Qed.

Lemma bind_not_throw {A B : Type} (x : outcome A) (f : A -> outcome B)
      (e : Exception) :
  x <> Throw e -> (forall a, f a <> Throw e) -> bind x f <> Throw e.
Proof.
  destruct x as [a | e0 |]; cbn [bind]; intros Hx Hf;
    [apply Hf | | discriminate].
  intros H. apply Hx. injection H as ->. reflexivity.
Qed.

Lemma arrayWrite_not_throw {A : Type} (l : list A) (i : Z) (x : A)
      (e : Exception) :
  arrayWrite l i x <> Throw e.
Proof. unfold arrayWrite. destruct (_ && _); discriminate. Qed.

Lemma arrayAt_not_invalid (l : list Z) (i : Z) (msg : string) :
  arrayAt l i <> Throw (invalid_argument msg).
Proof. unfold arrayAt. destruct (_ && _); discriminate. Qed.

Lemma arrayAtWrite_not_invalid (l : list Z) (i x : Z) (msg : string) :
  arrayAtWrite l i x <> Throw (invalid_argument msg).
Proof. unfold arrayAtWrite. destruct (_ && _); discriminate. Qed.

(** C9: in a debug build [placePiece] on an occupied square and
    [removePiece] on an empty square throw; in a release build both perform
    the bit update unchecked; and when the square is unoccupied (for
    [placePiece]) or occupied (for [removePiece]) the debug build does not
    take the corresponding error branch. *)
Theorem placePiece_removePiece_checks (pos : Z) (b : t) :
  (Utils.getBit (bits b) pos = true ->
   exists e, placePiece Debug pos b = Throw e) /\
  (Utils.getBit (bits b) pos = false ->
   exists e, removePiece Debug pos b = Throw e) /\
  placePiece Release pos b = Ok (setSquare pos true b) /\
  removePiece Release pos b = Ok (setSquare pos false b) /\
  (Utils.getBit (bits b) pos = false ->
   placePiece Debug pos b <>
   Throw (invalid_argument "Tried to place piece on already occupied square.")) /\
  (Utils.getBit (bits b) pos = true ->
   removePiece Debug pos b <>
   Throw (invalid_argument "Tried to remove piece from empty square.")).
Proof.
  split; [| split; [| split; [| split; [| split]]]].
  - intros H. eexists. apply placePiece_debug_occupied, H.
  - intros H. eexists. apply removePiece_debug_empty, H.
  - reflexivity.
  - reflexivity.
  - intros Hfree. unfold placePiece, isOccupied.
    destruct (Utils.isInRange pos 0 127); cbn [negb bind]; [| discriminate].
    rewrite Hfree.
    apply bind_not_throw; [apply arrayWrite_not_throw |]. intros os.
    apply bind_not_throw; [apply arrayWrite_not_throw |]. intros ros.
    discriminate.
  - intros Hocc. unfold removePiece, isOccupied.
    destruct (Utils.isInRange pos 0 127); cbn [negb bind]; [| discriminate].
    rewrite Hocc. cbn [negb].
    destruct (Utils.isOnBoard pos); cbn [negb]; [| discriminate].
    repeat (apply bind_not_throw;
            [first [apply arrayAt_not_invalid | apply arrayAtWrite_not_invalid]
            | intros ?]).
    discriminate.
Qed.

Lemma placePiece_removePiece_checks_witness :
  let b := Bitboard.mk 0x10 (4 :: repeat (-1) 11) (repeat 0 120) 1 in
  (exists e, placePiece Debug 4 b = Throw e) /\
  (exists e, removePiece Debug 5 b = Throw e) /\
  placePiece Debug 5 b <>
  Throw (invalid_argument "Tried to place piece on already occupied square.") /\
  removePiece Debug 4 b <>
  Throw (invalid_argument "Tried to remove piece from empty square.").
Proof.
  intros b.
  destruct (placePiece_removePiece_checks 4 b) as [P1 [_ [_ [_ [_ R2]]]]].
  destruct (placePiece_removePiece_checks 5 b) as [_ [R1 [_ [_ [P2 _]]]]].
  split; [apply P1; reflexivity |].
  split; [apply R1; reflexivity |].
  split; [apply P2; reflexivity | apply R2; reflexivity].
Defined.

End BitboardChecks.

(** ** The obstruction table *)

Module TableFacts.
Import Thera Geometry Checks.

Lemma tableChecks_true :
  forallb (fun a => forallb (entryChecks a) (zrange 0 64)) (zrange 0 64) = true.
Proof. vm_compute. reflexivity. Qed.

Lemma forallb_zrange (f : Z -> bool) (n : nat) (lo x : Z) :
  forallb f (zrange lo n) = true -> lo <= x < lo + Z.of_nat n -> f x = true.
Proof.
  intros H Hx. rewrite forallb_forall in H.
  apply H, BitboardFacts.In_zrange, Hx.
Qed.

Lemma entryChecks_true (a b : Z) :
  0 <= a < 64 -> 0 <= b < 64 -> entryChecks a b = true.
Proof.
  intros Ha Hb.
  apply (forallb_zrange (entryChecks a) 64 0 b); [| exact Hb].
  apply (forallb_zrange (fun a => forallb (entryChecks a) (zrange 0 64)) 64 0 a);
    [exact tableChecks_true | exact Ha].
Qed.

(** C8: for all squares [a] and [b] in 0..63, the entry [obstructedLUT[a][b]]
    (the value of [singleEvaluation a b]) is the bitboard of the squares
    strictly between [a] and [b] when they are distinct and share a rank, a
    file or a diagonal, and the empty bitboard otherwise. *)
Theorem obstructedLUT_between (a b : Z) :
  0 <= a < 64 -> 0 <= b < 64 ->
  obstructedAt a b = singleEvaluation a b /\
  0 <= obstructedAt a b < 2 ^ 64 /\
  (forall s, 0 <= s < 64 ->
     Z.testbit (obstructedAt a b) s = strictlyBetween a b s) /\
  (aligned a b = false -> obstructedAt a b = 0).
Proof.
  intros Ha Hb. pose proof (entryChecks_true a b Ha Hb) as H.
  unfold entryChecks in H. cbv zeta in H.
  apply andb_prop in H. destruct H as [H Heq].
  apply andb_prop in H. destruct H as [H Hal].
  apply andb_prop in H. destruct H as [H Hlt].
  apply andb_prop in H. destruct H as [H Hle].
  split; [apply Z.eqb_eq, Heq |].
  split; [split; [apply Z.leb_le, Hle | apply Z.ltb_lt, Hlt] |].
  split.
  - intros s Hs. apply Bool.eqb_prop.
    apply (forallb_zrange _ 64 0 s H Hs).
  - intros Hna. rewrite Hna in Hal. apply Z.eqb_eq, Hal.
Qed.

Lemma obstructedLUT_between_witness :
  obstructedAt 0 63 = 0x0040201008040200 /\
  Z.testbit (obstructedAt 0 63) 9 = strictlyBetween 0 63 9.
Proof.
  destruct (obstructedLUT_between 0 63) as [_ [_ [Hbits _]]]; [lia | lia |].
  split; [vm_compute; reflexivity | apply Hbits; lia].
Defined.

End TableFacts.

(** ** The generator only appends to its buffer *)

Module GeneratorFacts.
Import Board MoveGenerator Buffer.

Lemma mk_eta (g : t) : mk (generatedMoves g) = g.
Proof. destruct g. reflexivity. Qed.

Lemma appends_id : appends (fun g => g).
Proof. intros g. unfold emitted. cbn. rewrite app_nil_r, mk_eta. reflexivity. Qed.

Lemma appends_emplace (m : Move) : appends (fun g => emplace_back g m).
Proof. intros g. reflexivity. Qed.

Lemma appends_comp (F G : t -> t) :
  appends F -> appends G -> appends (fun g => G (F g)).
Proof.
  intros HF HG g. unfold emitted.
  rewrite (HG (F g)), (HG (F (mk []))), (HF g). cbn.
  rewrite app_assoc. reflexivity.
Qed.

Lemma appends_ite (c : bool) (F G : t -> t) :
  appends F -> appends G -> appends (fun g => if c then F g else G g).
Proof. destruct c; intros HF HG; assumption. Qed.

Lemma appends_ext (F G : t -> t) :
  (forall g, F g = G g) -> appends F -> appends G.
Proof.
  intros Heq HF g. unfold emitted. rewrite <- !Heq. apply HF.
Qed.

Lemma appends_fold {A : Type} (F : A -> t -> t) (l : list A) :
  (forall x, appends (F x)) ->
  appends (fun g => fold_left (fun g' x => F x g') l g).
Proof.
  intros HF. induction l as [| x l IH].
  - apply appends_id.
  - cbn [fold_left].
    apply (appends_comp (F x) (fun g => fold_left (fun g' x => F x g') l g));
      [apply HF | exact IH].
Qed.

Lemma emitted_comp (F G : t -> t) :
  appends G -> emitted (fun g => G (F g)) = emitted F ++ emitted G.
Proof. intros HG. unfold emitted. rewrite HG. reflexivity. Qed.

Lemma emitted_fold {A : Type} (F : A -> t -> t) (l : list A) :
  (forall x, appends (F x)) ->
  emitted (fun g => fold_left (fun g' x => F x g') l g) =
  flat_map (fun x => emitted (F x)) l.
Proof.
  intros HF. induction l as [| x l IH]; [reflexivity |].
  cbn [fold_left flat_map].
  rewrite (emitted_comp (F x) (fun g => fold_left (fun g' x => F x g') l g)).
  - rewrite IH. reflexivity.
  - apply appends_fold, HF.
Qed.

(** *** Steps of the king, knight and pawn generators *)

Lemma appends_stepMove (b : Board.t) (square direction : Z) :
  appends (stepMove b square direction).
Proof.
  unfold stepMove.
  repeat first [apply appends_emplace | apply appends_id | apply appends_ite].
Qed.

Lemma appends_castleRight (b : Board.t) (square : Z) :
  appends (castleRightMoves b square).
Proof.
  unfold castleRightMoves.
  repeat first [apply appends_emplace | apply appends_id | apply appends_ite].
Qed.

Lemma appends_castleLeft (b : Board.t) (square : Z) :
  appends (castleLeftMoves b square).
Proof.
  unfold castleLeftMoves.
  repeat first [apply appends_emplace | apply appends_id | apply appends_ite].
Qed.

Lemma appends_offsetsLoop (b : Board.t) (square s e : Z) :
  appends (offsetsLoop b square s e).
Proof.
  unfold offsetsLoop.
  apply (appends_fold
           (fun i => stepMove b square (nth (Z.to_nat i) kingKnightOffsets 0))).
  intros i. apply appends_stepMove.
Qed.

Lemma appends_generateKingKnightMoves (b : Board.t) (square : Z) :
  appends (generateKingKnightMoves b square).
Proof.
  unfold generateKingKnightMoves. apply appends_ite; [apply appends_id |].
  cbv zeta. destruct (getType (at_ b square)); try apply appends_id.
  - apply appends_offsetsLoop.
  - apply (appends_comp (fun g => castleRightMoves b square (offsetsLoop b square 0 8 g))
                        (castleLeftMoves b square)); [| apply appends_castleLeft].
    apply (appends_comp (offsetsLoop b square 0 8) (castleRightMoves b square));
      [apply appends_offsetsLoop | apply appends_castleRight].
Qed.

Lemma appends_addPawnMove (m : Move) (b : Board.t) : appends (addPawnMove m b).
Proof.
  unfold addPawnMove. cbv zeta. apply appends_ite; [| apply appends_emplace].
  apply (appends_fold (fun p g => emplace_back g (withPromotion m p))).
  intros p. apply appends_emplace.
Qed.

Lemma appends_pawnPushes (b : Board.t) (square d baseLine : Z) :
  appends (pawnPushes b square d baseLine).
Proof.
  unfold pawnPushes. cbv zeta. apply appends_ite; [| apply appends_id].
  apply (appends_comp (addPawnMove (pushMove square d) b)
           (fun g1 => if ChessTerms.isOnRow square baseLine &&
                         negb (isOccupied b (to10x12Coords (applyOffset square (d * 2))))
                      then addPawnMove (doubleMove square d) b g1 else g1)).
  - apply appends_addPawnMove.
  - apply appends_ite; [apply appends_addPawnMove | apply appends_id].
Qed.

Lemma appends_pawnCapture (b : Board.t) (square offset : Z) :
  appends (pawnCapture b square offset).
Proof.
  unfold pawnCapture. apply appends_ite; [apply appends_addPawnMove | apply appends_id].
Qed.

Lemma appends_pawnEnPassant (b : Board.t) (square d : Z) :
  appends (pawnEnPassant b square d).
Proof.
  unfold pawnEnPassant.
  repeat first [apply appends_addPawnMove | apply appends_id | apply appends_ite].
Qed.

(** The four stages of [generatePawnMoves] for a pawn advancing by [d]. *)
Lemma appends_pawnStages (b : Board.t) (square d baseLine : Z) :
  appends (fun g => pawnEnPassant b square d
                      (pawnCapture b square (d + 1)
                         (pawnCapture b square (d - 1)
                            (pawnPushes b square d baseLine g)))).
Proof.
  apply (appends_comp
           (fun g => pawnCapture b square (d + 1)
                       (pawnCapture b square (d - 1)
                          (pawnPushes b square d baseLine g)))
           (pawnEnPassant b square d)); [| apply appends_pawnEnPassant].
  apply (appends_comp
           (fun g => pawnCapture b square (d - 1) (pawnPushes b square d baseLine g))
           (pawnCapture b square (d + 1))); [| apply appends_pawnCapture].
  apply (appends_comp (pawnPushes b square d baseLine) (pawnCapture b square (d - 1)));
    [apply appends_pawnPushes | apply appends_pawnCapture].
Qed.

Lemma appends_generatePawnMoves (b : Board.t) (square : Z) :
  appends (generatePawnMoves b square).
Proof.
  unfold generatePawnMoves.
  apply appends_ite; [apply appends_id |].
  apply appends_ite; [apply appends_id |].
  cbv zeta. apply appends_pawnStages.
Qed.

Lemma appends_generateAllKingKnightMoves (b : Board.t) :
  appends (generateAllKingKnightMoves b).
Proof.
  unfold generateAllKingKnightMoves. cbv zeta.
  match goal with
  | |- appends (fun g => fold_left ?f ?l2 (fold_left ?f ?l1 g)) =>
      apply (appends_comp (fun g => fold_left f l1 g) (fun g => fold_left f l2 g))
  end;
    apply (appends_fold (generateKingKnightMoves b));
    intros sq; apply appends_generateKingKnightMoves.
Qed.

Lemma appends_generateAllPawnMoves (b : Board.t) :
  appends (generateAllPawnMoves b).
Proof.
  unfold generateAllPawnMoves.
  apply (appends_fold (generatePawnMoves b)).
  intros sq. apply appends_generatePawnMoves.
Qed.

End GeneratorFacts.

(** ** The sliding generator walks the rays *)

Module SlidingFacts.
Import Board MoveGenerator Buffer Sliding GeneratorFacts.

Lemma rayChecks_true :
  forallb (fun square => forallb (rayChecks square) slidingPieceOffsets)
          (zrange 0 64) = true.
Proof. vm_compute. reflexivity. Qed.

Lemma rayChecks_at (square d : Z) :
  0 <= square < 64 -> In d slidingPieceOffsets -> rayChecks square d = true.
Proof.
  intros Hsq Hd. pose proof rayChecks_true as H.
  rewrite forallb_forall in H.
  specialize (H square (proj2 (BitboardFacts.In_zrange 64 0 square) Hsq)).
  rewrite forallb_forall in H. apply H, Hd.
Qed.

Lemma rayN_length (n : nat) (pos d : Z) : (length (rayN n pos d) <= n)%nat.
Proof.
  revert pos. induction n as [| n IH]; intros pos; cbn [rayN]; [apply le_n |].
  destruct (isOnBoard8x8 pos d); cbn [length]; [| lia].
  specialize (IH (applyOffset pos d)). lia.
Qed.

(** When the ray ends within [n] squares, [n+1] rounds of the loop walk it
    and emit the moves to the squares reached. *)
Lemma slide_rayN (b : Board.t) (square d : Z) (n : nat) :
  forall (fuel : nat) (pos : Z) (g : t),
    (n < fuel)%nat ->
    (length (rayN (S n) pos d) <= n)%nat ->
    slide fuel b square pos d g =
    Some (mk (generatedMoves g ++ map (moveTo square) (reached b (rayN n pos d)))).
Proof.
  induction n as [| n IH]; intros fuel pos g Hfuel Hlen;
    destruct fuel as [| fuel]; try lia; cbn [slide].
  - cbn [rayN] in Hlen. destruct (isOnBoard8x8 pos d).
    + cbn [length] in Hlen. lia.
    + cbn. rewrite app_nil_r, mk_eta. reflexivity.
  - change (rayN (S (S n)) pos d)
      with (if isOnBoard8x8 pos d
            then applyOffset pos d :: rayN (S n) (applyOffset pos d) d
            else []) in Hlen.
    cbn [rayN]. destruct (isOnBoard8x8 pos d).
    + cbn [length] in Hlen. cbn [reached].
      destruct (isNone (at_ b (applyOffset pos d))).
      * rewrite IH by lia. cbn [emplace_back generatedMoves map].
        rewrite <- app_assoc. reflexivity.
      * destruct (isOpponent b (at_ b (applyOffset pos d))); cbn.
        -- reflexivity.
        -- rewrite app_nil_r, mk_eta. reflexivity.
    + cbn. rewrite app_nil_r, mk_eta. reflexivity.
Qed.

Lemma rayN_stable (square d : Z) :
  rayChecks square d = true -> (length (rayN 8 square d) <= 7)%nat.
Proof.
  unfold rayChecks. cbv zeta. intros H.
  apply andb_prop in H. destruct H as [H _].
  apply andb_prop in H. destruct H as [H _].
  apply Nat.leb_le. exact H.
Qed.

Lemma slide_ray (b : Board.t) (square d : Z) (g : t) :
  0 <= square < 64 -> In d slidingPieceOffsets ->
  slide slideRounds b square square d g =
  Some (mk (generatedMoves g ++ rayMoves b square d)).
Proof.
  intros Hsq Hd. unfold slideRounds, rayMoves, ray.
  apply slide_rayN; [lia |].
  apply rayN_stable, rayChecks_at; assumption.
Qed.

Lemma forEach_appends {A : Type} (body : A -> t -> option t)
      (E : A -> list Move) (l : list A) :
  (forall x g, In x l -> body x g = Some (mk (generatedMoves g ++ E x))) ->
  forall g, forEach l body g = Some (mk (generatedMoves g ++ flat_map E l)).
Proof.
  induction l as [| x l IH]; intros Hbody g; cbn [forEach flat_map].
  - rewrite app_nil_r, mk_eta. reflexivity.
  - rewrite (Hbody x g (or_introl eq_refl)).
    rewrite IH by (intros y g' Hy; apply Hbody; right; exact Hy).
    cbn [generatedMoves]. rewrite <- app_assoc. reflexivity.
Qed.

Lemma directionsLoop_rays (b : Board.t) (square s e : Z) (g : t) :
  0 <= square < 64 -> 0 <= s -> e <= 8 ->
  directionsLoop b square s e g =
  Some (mk (generatedMoves g ++
            flat_map (rayMoves b square)
                     (map (fun i => nth (Z.to_nat i) slidingPieceOffsets 0)
                          (zrange s (Z.to_nat (e - s)))))).
Proof.
  intros Hsq Hs He. unfold directionsLoop.
  rewrite (forEach_appends _
             (fun i => rayMoves b square (nth (Z.to_nat i) slidingPieceOffsets 0))).
  - rewrite flat_map_concat_map, flat_map_concat_map, map_map. reflexivity.
  - intros i g' Hi. apply BitboardFacts.In_zrange in Hi.
    apply slide_ray; [exact Hsq |].
    apply nth_In. change (length slidingPieceOffsets) with 8%nat. lia.
Qed.

Lemma generateSlidingMoves_total (b : Board.t) (square : Z) (g : t) :
  0 <= square < 64 ->
  generateSlidingMoves b square g =
  Some (mk (generatedMoves g ++ slidingMovesOf b square)).
Proof.
  intros Hsq. unfold generateSlidingMoves, slidingMovesOf.
  destruct (negb _); [rewrite app_nil_r, mk_eta; reflexivity |].
  cbv zeta. change (Z.of_nat (length slidingPieceOffsets)) with 8.
  destruct (getType (at_ b square)); cbn [directionsOf flat_map];
    try (rewrite app_nil_r, mk_eta; reflexivity);
    rewrite directionsLoop_rays by lia; reflexivity.
Qed.

Lemma generateAllSlidingMoves_total (b : Board.t) (g : t) :
  generateAllSlidingMoves b g =
  Some (mk (generatedMoves g ++ flat_map (slidingMovesOf b) (zrange 0 64))).
Proof.
  unfold generateAllSlidingMoves. apply forEach_appends.
  intros sq g' Hsq. apply BitboardFacts.In_zrange in Hsq.
  apply generateSlidingMoves_total. simpl Z.of_nat in Hsq. lia.
Qed.


Lemma rayN_stop (n : nat) (pos d : Z) :
  (length (rayN (S n) pos d) <= n)%nat -> rayN (S n) pos d = rayN n pos d.
Proof.
  revert pos. induction n as [| n IH]; intros pos Hlen.
  - cbn [rayN] in *. destruct (isOnBoard8x8 pos d); [cbn in Hlen; lia | reflexivity].
  - change (rayN (S (S n)) pos d)
      with (if isOnBoard8x8 pos d
            then applyOffset pos d :: rayN (S n) (applyOffset pos d) d
            else []) in *.
    cbn [rayN]. destruct (isOnBoard8x8 pos d); [| reflexivity].
    cbn [length] in Hlen. f_equal.
    change (rayN (S n) (applyOffset pos d) d = rayN n (applyOffset pos d) d).
    apply IH. lia.
Qed.

(** The squares of a ray, by their padded index. *)
Lemma ray_geometry (square d : Z) :
  0 <= square < 64 -> In d slidingPieceOffsets ->
  (length (ray square d) <= 7)%nat /\
  (forall k, (k < length (ray square d))%nat ->
     to10x12Coords (nth k (ray square d) 0) =
     to10x12Coords square + (Z.of_nat k + 1) * d /\
     0 <= nth k (ray square d) 0 < 64) /\
  isOnBoard10x12
    (to10x12Coords square + (Z.of_nat (length (ray square d)) + 1) * d) = false.
Proof.
  intros Hsq Hd. pose proof (rayChecks_at square d Hsq Hd) as H.
  pose proof (rayN_stable square d H) as Hlen.
  unfold rayChecks in H. cbv zeta in H.
  rewrite (rayN_stop 7 square d Hlen) in H. fold (ray square d) in H.
  apply andb_prop in H. destruct H as [H Hedge].
  apply andb_prop in H. destruct H as [Hl Hall].
  rewrite forallb_forall in Hall.
  split; [apply Nat.leb_le, Hl |]. split.
  - intros k Hk. specialize (Hall k). rewrite in_seq in Hall.
    specialize (Hall ltac:(lia)).
    apply andb_prop in Hall. destruct Hall as [Hall Hhi].
    apply andb_prop in Hall. destruct Hall as [Heq Hlo].
    apply Z.eqb_eq in Heq. apply Z.leb_le in Hlo. apply Z.ltb_lt in Hhi.
    split; [exact Heq | lia].
  - apply negb_true_iff. exact Hedge.
Qed.

Lemma directionsOf_sliding (ty : PieceType.t) (d : Z) :
  In d (directionsOf ty) -> In d slidingPieceOffsets.
Proof.
  destruct ty; cbv [directionsOf slidingPieceOffsets firstn skipn In]; tauto.
Qed.



End SlidingFacts.

(** ** What each generator emits *)

Module EmittedFacts.
Import Board MoveGenerator Buffer Sliding Stepping GeneratorFacts SlidingFacts.

Lemma emitted_ite (c : bool) (F G : t -> t) :
  emitted (fun g => if c then F g else G g) = if c then emitted F else emitted G.
Proof. destruct c; reflexivity. Qed.

Lemma emitted_stepMove (b : Board.t) (square d : Z) :
  emitted (stepMove b square d) = stepMovesOf b square d.
Proof.
  unfold emitted, stepMove, stepMovesOf.
  destruct (isOnBoard8x8 square d); [| reflexivity]. cbv zeta.
  destruct (isNone _); [reflexivity |].
  destruct (isOpponent _ _); reflexivity.
Qed.

Lemma emitted_offsetsLoop (b : Board.t) (square s e : Z) :
  emitted (offsetsLoop b square s e) = offsetMovesOf b square s e.
Proof.
  unfold offsetsLoop, offsetMovesOf.
  rewrite (emitted_fold
             (fun i => stepMove b square (nth (Z.to_nat i) kingKnightOffsets 0)))
    by (intros i; apply appends_stepMove).
  apply flat_map_ext. intros i. apply emitted_stepMove.
Qed.

Lemma emitted_castleRight (b : Board.t) (square : Z) :
  emitted (castleRightMoves b square) =
  if mayCastleRight b square then [castlingMove square 2 3 1] else [].
Proof.
  unfold emitted, castleRightMoves, mayCastleRight.
  destruct (getCastleRight _ _); [| reflexivity].
  destruct (isNone (at_ b (applyOffset square 1)));
    destruct (isNone (at_ b (applyOffset square 2))); reflexivity.
Qed.

Lemma emitted_castleLeft (b : Board.t) (square : Z) :
  emitted (castleLeftMoves b square) =
  if mayCastleLeft b square then [castlingMove square (-2) (-4) (-1)] else [].
Proof.
  unfold emitted, castleLeftMoves, mayCastleLeft.
  destruct (getCastleLeft _ _); [| reflexivity].
  destruct (isNone (at_ b (applyOffset square (-1))));
    destruct (isNone (at_ b (applyOffset square (-2))));
    destruct (isNone (at_ b (applyOffset square (-3)))); reflexivity.
Qed.

Lemma emitted_generateKingKnightMoves (b : Board.t) (square : Z) :
  emitted (generateKingKnightMoves b square) = kingKnightMovesOf b square.
Proof.
  unfold generateKingKnightMoves, kingKnightMovesOf.
  rewrite emitted_ite. destruct (negb _); [reflexivity |].
  cbv zeta. change (Z.of_nat (length kingKnightOffsets)) with 16.
  destruct (getType (at_ b square)); try reflexivity.
  - apply emitted_offsetsLoop.
  - rewrite (emitted_comp
               (fun g => castleRightMoves b square (offsetsLoop b square 0 8 g))
               (castleLeftMoves b square)) by apply appends_castleLeft.
    rewrite (emitted_comp (offsetsLoop b square 0 8) (castleRightMoves b square))
      by apply appends_castleRight.
    rewrite emitted_offsetsLoop, emitted_castleRight, emitted_castleLeft.
    unfold castlingMovesOf. rewrite <- app_assoc. reflexivity.
Qed.

Lemma emitted_addPawnMove (m : Move) (b : Board.t) :
  emitted (addPawnMove m b) = fanOut b m.
Proof.
  unfold emitted, addPawnMove, fanOut, onLastRank. cbv zeta.
  destruct (ChessTerms.isOnRow _ _); reflexivity.
Qed.

Lemma emitted_pawnPushes (b : Board.t) (square d baseLine : Z) :
  emitted (pawnPushes b square d baseLine) =
  flat_map (fanOut b)
    (if negb (isOccupied b (to10x12Coords (applyOffset square d))) then
       pushMove square d ::
       (if ChessTerms.isOnRow square baseLine &&
           negb (isOccupied b (to10x12Coords (applyOffset square (d * 2))))
        then [doubleMove square d] else [])
     else []).
Proof.
  unfold pawnPushes. rewrite emitted_ite.
  destruct (negb (isOccupied b (to10x12Coords (applyOffset square d))));
    [| reflexivity].
  cbv zeta.
  rewrite (emitted_comp (addPawnMove (pushMove square d) b)
             (fun g1 => if ChessTerms.isOnRow square baseLine &&
                           negb (isOccupied b (to10x12Coords (applyOffset square (d * 2))))
                        then addPawnMove (doubleMove square d) b g1 else g1)).
  - rewrite emitted_ite, !emitted_addPawnMove. cbn [flat_map].
    destruct (_ && _); cbn [flat_map]; [rewrite app_nil_r |]; reflexivity.
  - apply appends_ite; [apply appends_addPawnMove | apply appends_id].
Qed.

Lemma emitted_pawnCapture (b : Board.t) (square offset : Z) :
  emitted (pawnCapture b square offset) =
  flat_map (fanOut b)
    (if mayCapture b square offset then [captureMove square offset] else []).
Proof.
  unfold pawnCapture, mayCapture. rewrite emitted_ite, emitted_addPawnMove.
  destruct (_ && _); cbn [flat_map]; [rewrite app_nil_r |]; reflexivity.
Qed.

Lemma emitted_pawnEnPassant (b : Board.t) (square d : Z) :
  emitted (pawnEnPassant b square d) =
  flat_map (fanOut b)
    (if besideEnPassant b square (-1) then [enPassantMove square (d - 1)]
     else if besideEnPassant b square 1 then [enPassantMove square (d + 1)]
     else []).
Proof.
  unfold pawnEnPassant, besideEnPassant.
  rewrite emitted_ite, emitted_addPawnMove.
  destruct (_ && _); cbn [flat_map]; [rewrite app_nil_r; reflexivity |].
  rewrite emitted_ite, emitted_addPawnMove.
  destruct (_ && _); cbn [flat_map]; [rewrite app_nil_r |]; reflexivity.
Qed.

Lemma emitted_generatePawnMoves (b : Board.t) (square : Z) :
  emitted (generatePawnMoves b square) = pawnMovesOf b square.
Proof.
  unfold generatePawnMoves, pawnMovesOf, isPawnToMove.
  rewrite emitted_ite.
  destruct (PieceColor.eqb (getColor (at_ b square)) (getColorToMove b));
    cbn [negb andb]; [| reflexivity].
  rewrite emitted_ite.
  destruct (PieceType.eqb (getType (at_ b square)) PieceType.Pawn);
    cbn [negb]; [| reflexivity].
  cbv zeta. fold (pawnDirection b square). fold (pawnBaseLine b square).
  set (d := pawnDirection b square). set (baseLine := pawnBaseLine b square).
  rewrite (emitted_comp
             (fun g => pawnCapture b square (d + 1)
                         (pawnCapture b square (d - 1)
                            (pawnPushes b square d baseLine g)))
             (pawnEnPassant b square d)) by apply appends_pawnEnPassant.
  rewrite (emitted_comp
             (fun g => pawnCapture b square (d - 1) (pawnPushes b square d baseLine g))
             (pawnCapture b square (d + 1))) by apply appends_pawnCapture.
  rewrite (emitted_comp (pawnPushes b square d baseLine)
                        (pawnCapture b square (d - 1))) by apply appends_pawnCapture.
  rewrite emitted_pawnPushes, !emitted_pawnCapture, emitted_pawnEnPassant.
  unfold pawnBaseMoves. rewrite !flat_map_app, <- !app_assoc. reflexivity.
Qed.

Lemma emitted_generateAllKingKnightMoves (b : Board.t) :
  emitted (generateAllKingKnightMoves b) =
  flat_map (kingKnightMovesOf b) (kingSquares b ++ knightSquares b).
Proof.
  unfold generateAllKingKnightMoves, kingSquares, knightSquares. cbv zeta.
  generalize (piecesOf (getBitboard b (mkPiece PieceType.King (getColorToMove b)))).
  generalize (piecesOf (getBitboard b (mkPiece PieceType.Knight (getColorToMove b)))).
  intros knights kings.
  rewrite (emitted_comp
             (fun g => fold_left (fun g' sq => generateKingKnightMoves b sq g')
                                 kings g)
             (fun g => fold_left (fun g' sq => generateKingKnightMoves b sq g')
                                 knights g))
    by (apply (appends_fold (generateKingKnightMoves b));
        intros sq; apply appends_generateKingKnightMoves).
  rewrite !(emitted_fold (generateKingKnightMoves b))
    by (intros sq; apply appends_generateKingKnightMoves).
  rewrite flat_map_app. f_equal; apply flat_map_ext; intros sq;
    apply emitted_generateKingKnightMoves.
Qed.

Lemma emitted_generateAllPawnMoves (b : Board.t) :
  emitted (generateAllPawnMoves b) = flat_map (pawnMovesOf b) (pawnSquares b).
Proof.
  unfold generateAllPawnMoves, pawnSquares.
  generalize (piecesOf (getBitboard b (mkPiece PieceType.Pawn (getColorToMove b)))).
  intros pawns.
  rewrite (emitted_fold (generatePawnMoves b))
    by (intros sq; apply appends_generatePawnMoves).
  apply flat_map_ext. intros sq. apply emitted_generatePawnMoves.
Qed.

(** [generateAllMoves] always returns, and what it returns is a function of
    the board alone. *)
Lemma generateAllMoves_eq (g : t) (b : Board.t) :
  generateAllMoves g b = Some (allMovesOf b, mk (allMovesOf b)).
Proof.
  unfold generateAllMoves. cbv zeta.
  rewrite generateAllSlidingMoves_total. cbn [clear generatedMoves app].
  rewrite (appends_generateAllPawnMoves b), (appends_generateAllKingKnightMoves b).
  cbn [generatedMoves].
  rewrite emitted_generateAllKingKnightMoves, emitted_generateAllPawnMoves.
  unfold allMovesOf. rewrite <- app_assoc. reflexivity.
Qed.

End EmittedFacts.

(** ** Properties of the generated moves *)

Module MoveFacts.
Import Board MoveGenerator Buffer Sliding Stepping GeneratorFacts SlidingFacts EmittedFacts.

Lemma color_eqb_eq (a c : PieceColor.t) : PieceColor.eqb a c = true <-> a = c.
Proof. destruct a, c; cbn; split; intros H; congruence. Qed.

Lemma type_eqb_eq (a c : PieceType.t) : PieceType.eqb a c = true <-> a = c.
Proof. destruct a, c; cbn; split; intros H; congruence. Qed.

Lemma not_friend_opponent (a c : PieceColor.t) :
  PieceColor.eqb a c = false -> PieceColor.eqb a (PieceColor.opposite c) = true.
Proof. destruct a, c; cbn; congruence. Qed.

Lemma In_prefix {A : Type} (n : nat) (l : list A) (x : A) :
  In x (firstn n l) -> In x l.
Proof.
  revert l. induction n as [| n IH]; intros [| a l]; cbn [firstn In]; try tauto.
  intros [H | H]; [left; exact H | right; apply IH, H].
Qed.

Lemma piecesOf_range (bb : Bitboard.t) (square : Z) :
  In square (piecesOf bb) -> 0 <= square < 64.
Proof.
  unfold piecesOf, getPieces8x8. intros H.
  apply In_prefix, BitboardFacts.occupied_spec in H. apply H.
Qed.

Lemma fanOut_fields (b : Board.t) (m0 m : Move) :
  In m (fanOut b m0) ->
  startIndex m = startIndex m0 /\ endIndex m = endIndex m0 /\
  isCastling m = isCastling m0 /\ isEnPassant m = isEnPassant m0 /\
  isDoublePawnMove m = isDoublePawnMove m0 /\
  enPassantFile m = enPassantFile m0 /\ auxiliaryMove m = auxiliaryMove m0.
Proof.
  unfold fanOut. destruct (onLastRank b m0); cbn [In]; intros H;
    repeat (destruct H as [<- | H]; [repeat split |]); contradiction.
Qed.

Lemma fanOut_inhabited (b : Board.t) (m0 : Move) : exists m, In m (fanOut b m0).
Proof.
  unfold fanOut. destruct (onLastRank b m0); eexists; left; reflexivity.
Qed.

(** The base moves of a pawn, one by one. *)
Lemma pawnBaseMoves_cases (b : Board.t) (square d baseLine : Z) (m : Move) :
  In m (pawnBaseMoves b square d baseLine) ->
  (m = pushMove square d /\
   isOccupied b (to10x12Coords (applyOffset square d)) = false) \/
  (m = doubleMove square d /\
   isOccupied b (to10x12Coords (applyOffset square (d * 2))) = false) \/
  (m = captureMove square (d - 1) /\ mayCapture b square (d - 1) = true) \/
  (m = captureMove square (d + 1) /\ mayCapture b square (d + 1) = true) \/
  (m = enPassantMove square (d - 1) /\ besideEnPassant b square (-1) = true) \/
  (m = enPassantMove square (d + 1) /\ besideEnPassant b square (-1) = false /\
   besideEnPassant b square 1 = true).
Proof.
  unfold pawnBaseMoves. rewrite !in_app_iff.
  intros [H | [H | [H | H]]].
  - destruct (isOccupied b (to10x12Coords (applyOffset square d))) eqn:Ho;
      cbn [negb] in H; [contradiction |].
    destruct H as [<- | H]; [left; auto |].
    destruct (ChessTerms.isOnRow square baseLine); cbn [andb] in H;
      [| contradiction].
    destruct (isOccupied b (to10x12Coords (applyOffset square (d * 2)))) eqn:Ho2;
      cbn [negb] in H; [contradiction |].
    destruct H as [<- | []]. right; left; auto.
  - destruct (mayCapture b square (d - 1)) eqn:Hc; [| contradiction].
    destruct H as [<- | []]. right; right; left; auto.
  - destruct (mayCapture b square (d + 1)) eqn:Hc; [| contradiction].
    destruct H as [<- | []]. right; right; right; left; auto.
  - destruct (besideEnPassant b square (-1)) eqn:Hl.
    + destruct H as [<- | []]. right; right; right; right; left; auto.
    + destruct (besideEnPassant b square 1) eqn:Hr; [| contradiction].
      destruct H as [<- | []]. right; right; right; right; right; auto.
Qed.

Lemma pawnBaseMoves_unpromoted (b : Board.t) (square d baseLine : Z) (m : Move) :
  In m (pawnBaseMoves b square d baseLine) -> promotionType m = PieceType.None.
Proof.
  intros H. apply pawnBaseMoves_cases in H.
  destruct H as [[-> _] | [[-> _] | [[-> _] | [[-> _] | [[-> _] | [-> _]]]]]];
    reflexivity.
Qed.

(** C10: [generateAllMoves] clears its buffer on entry, always returns, and
    returns a list fixed by the board: a second call on the same board, made
    with the generator the first call left behind, returns the same list, as
    does a call on any generator. *)
Theorem generateAllMoves_deterministic (g : t) (b : Board.t) :
  generatedMoves (clear g) = [] /\
  exists moves g1,
    generateAllMoves g b = Some (moves, g1) /\
    generateAllMoves g1 b = Some (moves, g1) /\
    (forall g', generateAllMoves g' b = Some (moves, g1)).
Proof.
  split; [reflexivity |].
  exists (allMovesOf b), (mk (allMovesOf b)).
  repeat split; intros; apply generateAllMoves_eq.
Qed.

(** C5: a pawn move handed to [addPawnMove] whose destination is on the last
    rank of the pawn is appended as four moves, promoting to queen, rook,
    bishop and knight in this order, each agreeing with the base move in
    every other field; any other pawn move is appended once, unchanged. The
    pawn moves of a square are the base moves built by [generatePawnMoves],
    each with promotion [None], passed through this step. *)
Theorem addPawnMove_promotions (b : Board.t) (m : Move) (square : Z) (g : t) :
  generatedMoves (addPawnMove m b g) =
  generatedMoves g ++
  (if onLastRank b m
   then [withPromotion m PieceType.Queen; withPromotion m PieceType.Rook;
         withPromotion m PieceType.Bishop; withPromotion m PieceType.Knight]
   else [m]) /\
  (forall p, withPromotion m p =
             mkMove (startIndex m) (endIndex m) p (isCastling m) (isEnPassant m)
                    (isDoublePawnMove m) (enPassantFile m) (auxiliaryMove m)) /\
  generatedMoves (generatePawnMoves b square g) =
  generatedMoves g ++
  (if isPawnToMove b square
   then flat_map (fun m0 => if onLastRank b m0
                            then map (withPromotion m0) ChessTerms.promotionPieces
                            else [m0])
                 (pawnBaseMoves b square (pawnDirection b square)
                                (pawnBaseLine b square))
   else []) /\
  (forall m0, In m0 (pawnBaseMoves b square (pawnDirection b square)
                                   (pawnBaseLine b square)) ->
              promotionType m0 = PieceType.None).
Proof.
  split; [| split; [| split]].
  - rewrite (appends_addPawnMove m b g). cbn [generatedMoves].
    rewrite emitted_addPawnMove. reflexivity.
  - intros p. reflexivity.
  - rewrite (appends_generatePawnMoves b square g). cbn [generatedMoves].
    rewrite emitted_generatePawnMoves. reflexivity.
  - intros m0. apply pawnBaseMoves_unpromoted.
Qed.

Lemma pawnMoves_from_base (b : Board.t) (square : Z) (m : Move) :
  In m (generatedMoves (generatePawnMoves b square (mk []))) <->
  isPawnToMove b square = true /\
  exists m0, In m0 (pawnBaseMoves b square (pawnDirection b square)
                                  (pawnBaseLine b square)) /\
             In m (fanOut b m0).
Proof.
  change (generatedMoves (generatePawnMoves b square (mk [])))
    with (emitted (generatePawnMoves b square)).
  rewrite emitted_generatePawnMoves. unfold pawnMovesOf.
  destruct (isPawnToMove b square).
  - rewrite in_flat_map. intuition.
  - cbn [In]. intuition discriminate.
Qed.

(** The test the generator makes: for a pawn of the side to move, an
    en-passant capture is emitted if and only if the square beside the
    pawn, on its left or else on its right, is on the board and is the
    board's en-passant square; the move starts on the pawn's square, ends
    on the diagonal square of that side and has [isEnPassant] set. *)
Theorem enPassant_beside (b : Board.t) (square : Z) :
  isPawnToMove b square = true ->
  ((exists m, In m (generatedMoves (generatePawnMoves b square (mk []))) /\
              isEnPassant m = true) <->
   besideEnPassant b square (-1) = true \/ besideEnPassant b square 1 = true) /\
  (forall m, In m (generatedMoves (generatePawnMoves b square (mk []))) ->
             isEnPassant m = true ->
             startIndex m = to10x12Coords square /\
             endIndex m =
             to10x12Coords
               (applyOffset square
                  (pawnDirection b square +
                   (if besideEnPassant b square (-1) then -1 else 1)))).
Proof.
  intros Hpawn. split; [split |].
  - intros [m [Hin Hep]]. apply pawnMoves_from_base in Hin.
    destruct Hin as [_ [m0 [Hbase Hfan]]].
    apply fanOut_fields in Hfan. destruct Hfan as [_ [_ [_ [Hep0 _]]]].
    rewrite Hep in Hep0. apply pawnBaseMoves_cases in Hbase.
    destruct Hbase as [[-> _] | [[-> _] | [[-> _] | [[-> _] | [[_ H] | [_ [_ H]]]]]]];
      try discriminate; auto.
  - intros Hside.
    set (d := pawnDirection b square).
    set (m0 := if besideEnPassant b square (-1)
               then enPassantMove square (d - 1) else enPassantMove square (d + 1)).
    destruct (fanOut_inhabited b m0) as [m Hm].
    exists m. split.
    + apply pawnMoves_from_base. split; [exact Hpawn |].
      exists m0. split; [| exact Hm].
      unfold pawnBaseMoves. fold d. rewrite !in_app_iff. do 3 right.
      unfold m0. destruct (besideEnPassant b square (-1)); [left; reflexivity |].
      destruct Hside as [Hl | Hr]; [discriminate |].
      rewrite Hr. left. reflexivity.
    + apply fanOut_fields in Hm. destruct Hm as [_ [_ [_ [-> _]]]].
      unfold m0. destruct (besideEnPassant b square (-1)); reflexivity.
  - intros m Hin Hep. apply pawnMoves_from_base in Hin.
    destruct Hin as [_ [m0 [Hbase Hfan]]].
    apply fanOut_fields in Hfan. destruct Hfan as [-> [-> [_ [Hep0 _]]]].
    rewrite Hep in Hep0. apply pawnBaseMoves_cases in Hbase.
    destruct Hbase as [[-> _] | [[-> _] | [[-> _] | [[-> _] | [[-> H] | [-> [H _]]]]]]];
      try discriminate; rewrite H; split; reflexivity.
Qed.

Lemma reached_target (b : Board.t) (r : list Z) (p : Z) :
  In p (reached b r) ->
  isNone (at_ b p) = true \/ isOpponent b (at_ b p) = true.
Proof.
  induction r as [| q r IH]; cbn [reached]; [contradiction |].
  destruct (isNone (at_ b q)) eqn:Hn.
  - intros [<- | H]; [left; exact Hn | apply IH, H].
  - destruct (isOpponent b (at_ b q)) eqn:Ho; [| contradiction].
    intros [<- | []]. right. exact Ho.
Qed.

Lemma sliding_shape (b : Board.t) (square : Z) (m : Move) :
  0 <= square < 64 -> In m (slidingMovesOf b square) ->
  wellShaped b m /\ isCastling m = false.
Proof.
  intros Hsq. unfold slidingMovesOf.
  destruct (PieceColor.eqb (getColor (at_ b square)) (getColorToMove b)) eqn:Hc;
    cbn [negb]; [| contradiction].
  rewrite in_flat_map. intros [d [Hd Hm]].
  unfold rayMoves in Hm. apply in_map_iff in Hm. destruct Hm as [p [<- Hp]].
  split; [| reflexivity].
  exists square. repeat split; try lia.
  - unfold isNone. destruct (getType (at_ b square)); try reflexivity;
      cbn [directionsOf] in Hd; contradiction.
  - apply color_eqb_eq, Hc.
  - intros _. apply (reached_target b _ p Hp).
Qed.

Lemma step_shape (b : Board.t) (square d : Z) (m : Move) :
  In m (stepMovesOf b square d) ->
  m = moveTo square (applyOffset square d) /\
  (isNone (at_ b (applyOffset square d)) = true \/
   isOpponent b (at_ b (applyOffset square d)) = true).
Proof.
  unfold stepMovesOf. destruct (isOnBoard8x8 square d); [| contradiction].
  destruct (_ || _) eqn:H; [| contradiction].
  intros [<- | []]. split; [reflexivity |]. apply orb_prop, H.
Qed.

Lemma offsetMoves_shape (b : Board.t) (square s e : Z) (m : Move) :
  In m (offsetMovesOf b square s e) ->
  startIndex m = to10x12Coords square /\ isCastling m = false /\
  isEnPassant m = false /\
  (isNone (at10x12 b (endIndex m)) = true \/
   isOpponent b (at10x12 b (endIndex m)) = true).
Proof.
  unfold offsetMovesOf. rewrite in_flat_map. intros [i [_ Hm]].
  apply step_shape in Hm. destruct Hm as [-> Ht]. repeat split. exact Ht.
Qed.

Lemma castlingMoves_cases (b : Board.t) (square : Z) (m : Move) :
  In m (castlingMovesOf b square) ->
  (mayCastleRight b square = true /\ m = castlingMove square 2 3 1) \/
  (mayCastleLeft b square = true /\ m = castlingMove square (-2) (-4) (-1)).
Proof.
  unfold castlingMovesOf. rewrite in_app_iff. intros [H | H].
  - destruct (mayCastleRight b square); [| contradiction].
    destruct H as [<- | []]. left. auto.
  - destruct (mayCastleLeft b square); [| contradiction].
    destruct H as [<- | []]. right. auto.
Qed.

Lemma kingKnight_cases (b : Board.t) (square : Z) (m : Move) :
  In m (kingKnightMovesOf b square) ->
  getColor (at_ b square) = getColorToMove b /\
  ((In (getType (at_ b square)) [PieceType.King; PieceType.Knight] /\
    exists s e, In m (offsetMovesOf b square s e)) \/
   (getType (at_ b square) = PieceType.King /\ In m (castlingMovesOf b square))).
Proof.
  unfold kingKnightMovesOf.
  destruct (PieceColor.eqb (getColor (at_ b square)) (getColorToMove b)) eqn:Hc;
    cbn [negb]; [| contradiction].
  apply color_eqb_eq in Hc. intros H. split; [exact Hc |].
  destruct (getType (at_ b square)); try contradiction.
  - left. split; [right; left; reflexivity | eauto].
  - apply in_app_iff in H. destruct H as [H | H].
    + left. split; [left; reflexivity | eauto].
    + right. auto.
Qed.

Lemma kingKnight_shape (b : Board.t) (square : Z) (m : Move) :
  0 <= square < 64 -> In m (kingKnightMovesOf b square) -> wellShaped b m.
Proof.
  intros Hsq H. apply kingKnight_cases in H. destruct H as [Hc H].
  exists square. split; [exact Hsq |].
  destruct H as [[Hty [s [e H]]] | [Hty H]].
  - apply offsetMoves_shape in H. destruct H as [Hs [_ [_ Ht]]].
    repeat split; try assumption; [| intros _; exact Ht].
    unfold isNone. destruct Hty as [<- | [<- | []]]; reflexivity.
  - assert (Hn : isNone (at_ b square) = false)
      by (unfold isNone; rewrite Hty; reflexivity).
    apply castlingMoves_cases in H.
    destruct H as [[Hmay ->] | [Hmay ->]]; repeat split; try assumption;
      intros _; left; cbn [endIndex castlingMove].
    + unfold mayCastleRight in Hmay.
      apply andb_prop in Hmay. destruct Hmay as [_ H2]. exact H2.
    + unfold mayCastleLeft in Hmay.
      apply andb_prop in Hmay. destruct Hmay as [Hmay _].
      apply andb_prop in Hmay. destruct Hmay as [_ H2]. exact H2.
Qed.

Lemma pawn_shape (b : Board.t) (square : Z) (m : Move) :
  0 <= square < 64 -> In m (pawnMovesOf b square) ->
  wellShaped b m /\ isCastling m = false.
Proof.
  intros Hsq. unfold pawnMovesOf.
  destruct (isPawnToMove b square) eqn:Hp; [| contradiction].
  unfold isPawnToMove in Hp. apply andb_prop in Hp. destruct Hp as [Hc Hty].
  apply color_eqb_eq in Hc. apply type_eqb_eq in Hty.
  rewrite in_flat_map. intros [m0 [Hbase Hfan]].
  apply fanOut_fields in Hfan.
  destruct Hfan as [Hs [He [Hcast [Hep _]]]].
  assert (Hn : isNone (at_ b square) = false)
    by (unfold isNone; rewrite Hty; reflexivity).
  assert (Hfree : forall idx, isOccupied b idx = false ->
                              isNone (at10x12 b idx) = true).
  { intros idx H. unfold isOccupied in H. apply negb_false_iff in H. exact H. }
  assert (Htake : forall off, mayCapture b square off = true ->
            isOpponent b (at10x12 b (to10x12Coords (applyOffset square off))) = true).
  { intros off H. unfold mayCapture in H.
    apply andb_prop in H. destruct H as [_ H].
    apply negb_true_iff in H. apply not_friend_opponent. exact H. }
  apply pawnBaseMoves_cases in Hbase.
  split.
  - exists square. rewrite Hs, He, Hep.
    destruct Hbase as [[-> H] | [[-> H] | [[-> H] | [[-> H] | [[-> H] | [-> H]]]]]];
      repeat split; try assumption; try lia; cbn [isEnPassant endIndex
        pushMove doubleMove captureMove enPassantMove]; intros Hne;
      try discriminate; auto.
  - rewrite Hcast.
    destruct Hbase as [[-> _] | [[-> _] | [[-> _] | [[-> _] | [[-> _] | [-> _]]]]]];
      reflexivity.
Qed.

Lemma allMoves_cases (b : Board.t) (m : Move) :
  In m (allMovesOf b) ->
  (exists square, 0 <= square < 64 /\ In m (slidingMovesOf b square)) \/
  (exists square, 0 <= square < 64 /\ In m (kingKnightMovesOf b square)) \/
  (exists square, 0 <= square < 64 /\ In m (pawnMovesOf b square)).
Proof.
  unfold allMovesOf, kingSquares, knightSquares, pawnSquares.
  generalize (piecesOf (getBitboard b (mkPiece PieceType.King (getColorToMove b))))
             (piecesOf_range (getBitboard b (mkPiece PieceType.King (getColorToMove b)))).
  generalize (piecesOf (getBitboard b (mkPiece PieceType.Knight (getColorToMove b))))
             (piecesOf_range (getBitboard b (mkPiece PieceType.Knight (getColorToMove b)))).
  generalize (piecesOf (getBitboard b (mkPiece PieceType.Pawn (getColorToMove b))))
             (piecesOf_range (getBitboard b (mkPiece PieceType.Pawn (getColorToMove b)))).
  intros pawns Hpawns knights Hknights kings Hkings Hm.
  apply in_app_or in Hm. destruct Hm as [Hm | Hm].
  - left. apply in_flat_map in Hm. destruct Hm as [sq [Hsq H]].
    exists sq. split; [| exact H].
    apply BitboardFacts.In_zrange in Hsq. exact Hsq.
  - apply in_app_or in Hm. destruct Hm as [Hm | Hm].
    + right; left. apply in_flat_map in Hm. destruct Hm as [sq [Hsq H]].
      exists sq. split; [| exact H].
      apply in_app_or in Hsq. destruct Hsq as [Hsq | Hsq]; auto.
    + right; right. apply in_flat_map in Hm. destruct Hm as [sq [Hsq H]].
      exists sq. split; [| exact H]. auto.
Qed.


(** On every board, whatever its bitboards hold: every returned move
    leaves a square that holds a piece of the side to move and, unless it is
    an en-passant capture, lands on a square that is empty or holds an
    opposing piece. *)
Theorem generateAllMoves_wellShaped (g : t) (b : Board.t) :
  exists moves,
    generateAllMoves g b = Some (moves, mk moves) /\
    forall m, In m moves ->
      exists square,
        0 <= square < 64 /\
        startIndex m = to10x12Coords square /\
        isNone (at_ b square) = false /\
        getColor (at_ b square) = getColorToMove b /\
        (isEnPassant m = false ->
         isNone (at10x12 b (endIndex m)) = true \/
         isOpponent b (at10x12 b (endIndex m)) = true).
Proof.
  exists (allMovesOf b). split; [apply generateAllMoves_eq |].
  intros m Hm. apply allMoves_cases in Hm.
  destruct Hm as [[sq [Hsq H]] | [[sq [Hsq H]] | [sq [Hsq H]]]].
  - apply (sliding_shape b sq m Hsq H).
  - apply (kingKnight_shape b sq m Hsq H).
  - apply (pawn_shape b sq m Hsq H).
Qed.

(** C3, as stated, fails: in the same position the white king is in check,
    yet the king-side castling move is emitted. *)
Lemma castling_emitted_in_check :
  let b := Position.setup
             [(60, Position.white PieceType.King);
              (63, Position.white PieceType.Rook);
              (4, Position.black PieceType.Rook);
              (0, Position.black PieceType.King)]
             PieceColor.White (false, false) (false, true) (-1) in
  let m := castlingMove 60 2 3 1 in
  (exists moves g', generateAllMoves (mk []) b = Some (moves, g') /\ In m moves) /\
  isCastling m = true /\
  Rules.inCheck b PieceColor.White = true.
Proof.
  intros b m. split; [| split; vm_compute; reflexivity].
  exists (allMovesOf b), (mk (allMovesOf b)).
  split; [apply generateAllMoves_eq |].
  vm_compute. repeat (first [left; reflexivity | right]).
Qed.

(** C3 (amended): a castling move is emitted only for a king of the side to
    move and only when the corresponding castling right is still true and
    the squares the generator inspects beside the king are empty: the two
    squares towards the king-side rook, or the three squares towards the
    queen-side rook. *)
Theorem castling_requirements (g g' : t) (b : Board.t) (moves : list Move)
        (m : Move) :
  generateAllMoves g b = Some (moves, g') ->
  In m moves ->
  isCastling m = true ->
  exists square,
    0 <= square < 64 /\
    getType (at_ b square) = PieceType.King /\
    getColor (at_ b square) = getColorToMove b /\
    ((getCastleRight b (getColorToMove b) = true /\
      isNone (at_ b (applyOffset square 1)) = true /\
      isNone (at_ b (applyOffset square 2)) = true /\
      m = castlingMove square 2 3 1) \/
     (getCastleLeft b (getColorToMove b) = true /\
      isNone (at_ b (applyOffset square (-1))) = true /\
      isNone (at_ b (applyOffset square (-2))) = true /\
      isNone (at_ b (applyOffset square (-3))) = true /\
      m = castlingMove square (-2) (-4) (-1))).
Proof.
  intros Hgen Hm Hcast. rewrite generateAllMoves_eq in Hgen.
  injection Hgen as <- _. apply allMoves_cases in Hm.
  destruct Hm as [[sq [Hsq H]] | [[sq [Hsq H]] | [sq [Hsq H]]]].
  - apply (sliding_shape b sq m Hsq) in H. destruct H as [_ H]. congruence.
  - apply kingKnight_cases in H. destruct H as [Hc [[_ [s [e H]]] | [Hty H]]].
    + apply offsetMoves_shape in H. destruct H as [_ [H _]]. congruence.
    + exists sq. repeat split; try assumption; try lia.
      apply castlingMoves_cases in H.
      destruct H as [[Hmay ->] | [Hmay ->]]; [left | right].
      * unfold mayCastleRight in Hmay. rewrite Hc in Hmay.
        apply andb_prop in Hmay. destruct Hmay as [Hmay H2].
        apply andb_prop in Hmay. destruct Hmay as [H0 H1]. auto.
      * unfold mayCastleLeft in Hmay. rewrite Hc in Hmay.
        apply andb_prop in Hmay. destruct Hmay as [Hmay H3].
        apply andb_prop in Hmay. destruct Hmay as [Hmay H2].
        apply andb_prop in Hmay. destruct Hmay as [H0 H1]. auto 6.
  - apply (pawn_shape b sq m Hsq) in H. destruct H as [_ H]. congruence.
Qed.

Lemma castling_requirements_witness :
  let b := Position.setup
             [(60, Position.white PieceType.King);
              (63, Position.white PieceType.Rook);
              (4, Position.black PieceType.King)]
             PieceColor.White (false, false) (false, true) (-1) in
  exists square,
    0 <= square < 64 /\
    getType (at_ b square) = PieceType.King /\
    getColor (at_ b square) = getColorToMove b /\
    ((getCastleRight b (getColorToMove b) = true /\
      isNone (at_ b (applyOffset square 1)) = true /\
      isNone (at_ b (applyOffset square 2)) = true /\
      castlingMove 60 2 3 1 = castlingMove square 2 3 1) \/
     (getCastleLeft b (getColorToMove b) = true /\
      isNone (at_ b (applyOffset square (-1))) = true /\
      isNone (at_ b (applyOffset square (-2))) = true /\
      isNone (at_ b (applyOffset square (-3))) = true /\
      castlingMove 60 2 3 1 = castlingMove square (-2) (-4) (-1))).
Proof.
  intros b.
  apply (castling_requirements (mk []) (mk (allMovesOf b)) b (allMovesOf b)
                               (castlingMove 60 2 3 1)).
  - apply generateAllMoves_eq.
  - vm_compute. repeat (first [left; reflexivity | right]).
  - reflexivity.
Defined.

Lemma enPassant_beside_witness :
  let b := Position.setup
             [(28, Position.white PieceType.Pawn);
              (27, Position.black PieceType.Pawn);
              (60, Position.white PieceType.King);
              (4, Position.black PieceType.King)]
             PieceColor.White (false, false) (false, false)
             (to10x12Coords 27) in
  exists m, In m (generatedMoves (generatePawnMoves b 28 (mk []))) /\
            isEnPassant m = true.
Proof.
  intros b.
  assert (Hpawn : isPawnToMove b 28 = true) by (vm_compute; reflexivity).
  destruct (enPassant_beside b 28 Hpawn) as [[_ Hemit] _].
  apply Hemit. left. vm_compute. reflexivity.
Defined.

Lemma generateAllMoves_wellShaped_witness :
  let b := Position.startingPosition in
  let m := moveTo 57 42 in
  exists square,
    0 <= square < 64 /\
    startIndex m = to10x12Coords square /\
    isNone (at_ b square) = false /\
    getColor (at_ b square) = getColorToMove b /\
    (isEnPassant m = false ->
     isNone (at10x12 b (endIndex m)) = true \/
     isOpponent b (at10x12 b (endIndex m)) = true).
Proof.
  intros b m.
  assert (Hevery : forall b0 m0, In m0 (allMovesOf b0) ->
            exists square,
              0 <= square < 64 /\
              startIndex m0 = to10x12Coords square /\
              isNone (at_ b0 square) = false /\
              getColor (at_ b0 square) = getColorToMove b0 /\
              (isEnPassant m0 = false ->
               isNone (at10x12 b0 (endIndex m0)) = true \/
               isOpponent b0 (at10x12 b0 (endIndex m0)) = true)).
  { intros b0 m0 Hin.
    destruct (generateAllMoves_wellShaped (mk []) b0) as [moves [Hgen Hall]].
    rewrite generateAllMoves_eq in Hgen. injection Hgen as <-.
    apply Hall, Hin. }
  apply Hevery. vm_compute. repeat (first [left; reflexivity | right]).
Defined.

(** The promotion position of the specification, 8/P7/8/8/8/8/8/k6K with
    white to move: the pawn on a7 yields exactly the four promotions on
    a8. *)
Lemma addPawnMove_promotions_witness :
  let b := Position.setup
             [(8, Position.white PieceType.Pawn);
              (56, Position.black PieceType.King);
              (63, Position.white PieceType.King)]
             PieceColor.White (false, false) (false, false) (-1) in
  generatedMoves (generatePawnMoves b 8 (mk [])) =
  map (withPromotion (pushMove 8 (-10)))
      [PieceType.Queen; PieceType.Rook; PieceType.Bishop; PieceType.Knight].
Proof.
  intros b.
  destruct (addPawnMove_promotions b (pushMove 8 (-10)) 8 (mk []))
    as [_ [_ [Hgen _]]].
  rewrite Hgen. vm_compute. reflexivity.
Defined.

End MoveFacts.

(** ** Undo *)

Module UndoFacts.
Import Board BoardOps.

(** C2: for every board and every move, [applyMove] followed by
    [rewindMove] succeeds and gives back the board as it was, field by
    field: the mailbox, the piece bitboards, the all-piece bitboard, the
    side to move, the four castling rights, both en-passant fields, and the
    undo stack below the snapshot. *)
Theorem applyMove_rewindMove (m : Move) (b : Board.t) :
  rewindMove (applyMove m b) =
  Ok (mk (mkState (squares (currentState b))
                  (pieceBitboards (currentState b))
                  (allPieceBitboard (currentState b))
                  (colorToMove (currentState b))
                  (canCastleLeft (currentState b))
                  (canCastleRight (currentState b))
                  (enPassantSquare (currentState b))
                  (enPassantSquareToCapture (currentState b)))
         (rewindStack b)) /\
  rewindMove (applyMove m b) = Ok b /\
  rewindStack (applyMove m b) = currentState b :: rewindStack b.
Proof.
  destruct b as [[sq pb ab c l r e v] stack]. repeat split.
Qed.

(** The pair is not vacuous: the move changes the board in between. *)
Lemma applyMove_changes :
  let m := MoveGenerator.doubleMove 52 (-10) in
  let b := Position.startingPosition in
  currentState (applyMove m b) <> currentState b /\
  getEnPassantSquare (applyMove m b) = 75 /\
  getColorToMove (applyMove m b) = PieceColor.Black /\
  MoveGenerator.isNone (at_ (applyMove m b) 52) = true /\
  at_ (applyMove m b) 36 = Position.white PieceType.Pawn.
Proof.
  intros m b. split; [| repeat split; vm_compute; reflexivity].
  intros H. apply (f_equal colorToMove) in H. vm_compute in H. discriminate.
Qed.

End UndoFacts.

(** ** The generated moves are exactly the moves of the pieces *)

Module ExactFacts.
Import Board MoveGenerator Buffer Sliding Stepping Geometry Lines.
Import GeneratorFacts SlidingFacts EmittedFacts MoveFacts.

Lemma forallb_seq (f : nat -> bool) (lo n k : nat) :
  forallb f (seq lo n) = true -> (lo <= k < lo + n)%nat -> f k = true.
Proof.
  intros H Hk. rewrite forallb_forall in H. apply H, in_seq, Hk.
Qed.

Lemma rayLineChecks_true :
  forallb (fun sq => forallb (rayLineChecks sq) (seq 0 8)) (zrange 0 64) = true.
Proof. vm_compute. reflexivity. Qed.

Lemma lineCoverChecks_true :
  forallb (fun sq => forallb (lineCoverChecks sq) (zrange 0 64)) (zrange 0 64)
  = true.
Proof. vm_compute. reflexivity. Qed.

Lemma stepChecks_true :
  forallb (fun sq => forallb (stepChecks sq) (seq 0 16)) (zrange 0 64) = true.
Proof. vm_compute. reflexivity. Qed.

Lemma stepCoverChecks_true :
  forallb (fun sq => forallb (stepCoverChecks sq) (zrange 0 64)) (zrange 0 64)
  = true.
Proof. vm_compute. reflexivity. Qed.

Lemma to10x12Coords_inj (a c : Z) :
  0 <= a < 64 -> 0 <= c < 64 -> to10x12Coords a = to10x12Coords c -> a = c.
Proof.
  unfold to10x12Coords. intros Ha Hc H.
  pose proof (Z.div_mod a 8 ltac:(lia)). pose proof (Z.div_mod c 8 ltac:(lia)).
  pose proof (Z.mod_pos_bound a 8 ltac:(lia)).
  pose proof (Z.mod_pos_bound c 8 ltac:(lia)).
  lia.
Qed.

Lemma moveTo_inj (square a c : Z) :
  0 <= a < 64 -> 0 <= c < 64 -> moveTo square a = moveTo square c -> a = c.
Proof.
  intros Ha Hc H. apply (f_equal endIndex) in H. cbn in H.
  apply to10x12Coords_inj; assumption.
Qed.

(** The squares of a ray that receive a move, by their place on the ray. *)
Lemma reached_iff (b : Board.t) (r : list Z) (t : Z) :
  In t (reached b r) <->
  exists k, nth_error r k = Some t /\
            (forall j, (j < k)%nat -> isNone (at_ b (nth j r 0)) = true) /\
            targetOk b t.
Proof.
  unfold targetOk. induction r as [| p r IH]; cbn [reached].
  - split; [contradiction |]. intros [[| k] [H _]]; discriminate.
  - split.
    + destruct (isNone (at_ b p)) eqn:Hp.
      * intros [<- | H].
        -- exists 0%nat. repeat split; [intros j Hj; lia | left; exact Hp].
        -- apply IH in H. destruct H as [k [Hk [Hbefore Ht]]].
           exists (S k). repeat split; [exact Hk | | exact Ht].
           intros [| j] Hj; cbn [nth]; [exact Hp | apply Hbefore; lia].
      * destruct (isOpponent b (at_ b p)) eqn:Ho; [| contradiction].
        intros [<- | []]. exists 0%nat.
        repeat split; [intros j Hj; lia | right; exact Ho].
    + intros [[| k] [Hk [Hbefore Ht]]].
      * cbn in Hk. injection Hk as ->.
        destruct (isNone (at_ b t)) eqn:Hn; [left; reflexivity |].
        destruct Ht as [Ht | Ht]; [discriminate |].
        rewrite Ht. left. reflexivity.
      * pose proof (Hbefore 0%nat ltac:(lia)) as Hp. cbn [nth] in Hp.
        rewrite Hp. right. apply IH. exists k. repeat split; try assumption.
        intros j Hj. apply (Hbefore (S j)). lia.
Qed.

Lemma nth_error_nth (r : list Z) (k : nat) (t : Z) :
  nth_error r k = Some t -> (k < length r)%nat /\ nth k r 0 = t.
Proof.
  intros H. split; [apply nth_error_Some; congruence |].
  apply nth_error_nth. exact H.
Qed.

Lemma existsb_eqb_In (x : Z) (l : list Z) :
  existsb (Z.eqb x) l = true <-> In x l.
Proof.
  rewrite existsb_exists. split.
  - intros [y [Hy Heq]]. apply Z.eqb_eq in Heq. subst. exact Hy.
  - intros H. exists x. split; [exact H | apply Z.eqb_refl].
Qed.

Lemma In_firstn_nth (r : list Z) (k : nat) (s : Z) :
  In s (firstn k r) <-> exists j, (j < k)%nat /\ (j < length r)%nat /\ nth j r 0 = s.
Proof.
  revert k. induction r as [| p r IH]; intros [| k]; cbn [firstn In length].
  - split; [contradiction | intros [j [H _]]; lia].
  - split; [contradiction | intros [j [_ [H _]]]; lia].
  - split; [contradiction | intros [j [H _]]; lia].
  - rewrite IH. split.
    + intros [<- | [j [Hj [Hl Hn]]]].
      * exists 0%nat. repeat split; lia.
      * exists (S j). repeat split; try lia. exact Hn.
    + intros [[| j] [Hj [Hl Hn]]]; [left; exact Hn |].
      right. exists j. repeat split; try lia. exact Hn.
Qed.

Lemma direction_In (i : nat) : (i < 8)%nat -> In (direction i) slidingPieceOffsets.
Proof. intros Hi. apply nth_In. exact Hi. Qed.

(** What the exhaustive check says about one ray square. *)
Lemma ray_square (b : Board.t) (square : Z) (i k : nat) (t : Z) :
  0 <= square < 64 -> (i < 8)%nat ->
  nth_error (ray square (direction i)) k = Some t ->
  0 <= t < 64 /\ lineClass i square t = true /\
  (Rules.clearBetween b square t = true <->
   forall j, (j < k)%nat ->
             isNone (at_ b (nth j (ray square (direction i)) 0)) = true).
Proof.
  intros Hsq Hi Hk. apply nth_error_nth in Hk. destruct Hk as [Hlen <-].
  set (r := ray square (direction i)) in *.
  destruct (ray_geometry square (direction i) Hsq (direction_In i Hi))
    as [_ [Hgeo _]]. fold r in Hgeo.
  pose proof (TableFacts.forallb_zrange _ 64 0 square rayLineChecks_true Hsq) as H.
  apply (fun H => forallb_seq _ 0 8 i H ltac:(lia)) in H.
  unfold rayLineChecks in H. cbv zeta in H. fold r in H.
  apply (fun H => forallb_seq _ 0 (length r) k H ltac:(lia)) in H.
  apply andb_prop in H. destruct H as [Hline Hbetween].
  split; [apply Hgeo, Hlen |]. split; [exact Hline |].
  unfold Rules.clearBetween. rewrite forallb_forall. split.
  - intros Hclear j Hj.
    assert (Hjr : 0 <= nth j r 0 < 64) by (apply Hgeo; lia).
    specialize (Hclear (nth j r 0) (proj2 (BitboardFacts.In_zrange 64 0 _) Hjr)).
    pose proof (TableFacts.forallb_zrange _ 64 0 (nth j r 0) Hbetween Hjr) as Hb.
    apply Bool.eqb_prop in Hb.
    assert (Hin : existsb (Z.eqb (nth j r 0)) (firstn k r) = true).
    { apply existsb_eqb_In, In_firstn_nth. exists j. repeat split; lia. }
    rewrite Hin in Hb. rewrite Hb in Hclear. exact Hclear.
  - intros Hbefore s Hs. apply BitboardFacts.In_zrange in Hs.
    pose proof (TableFacts.forallb_zrange _ 64 0 s Hbetween Hs) as Hb.
    apply Bool.eqb_prop in Hb.
    destruct (strictlyBetween square (nth k r 0) s) eqn:Hsb; [| reflexivity].
    cbn [negb orb]. symmetry in Hb.
    apply existsb_eqb_In, In_firstn_nth in Hb.
    destruct Hb as [j [Hj [_ <-]]]. apply Hbefore, Hj.
Qed.

Lemma line_covered (square t : Z) (lo : nat) :
  0 <= square < 64 -> 0 <= t < 64 ->
  (lo = 0%nat /\ rookLine square t = true) \/
  (lo = 4%nat /\ bishopLine square t = true) ->
  exists i k, (lo <= i < lo + 4)%nat /\
              nth_error (ray square (direction i)) k = Some t.
Proof.
  intros Hsq Ht Hline.
  pose proof (TableFacts.forallb_zrange _ 64 0 square lineCoverChecks_true Hsq) as H.
  apply (fun H => TableFacts.forallb_zrange _ 64 0 t H Ht) in H.
  unfold lineCoverChecks in H. apply andb_prop in H. destruct H as [Hr Hb].
  assert (Hex : existsb (fun i => existsb (Z.eqb t) (ray square (direction i)))
                        (seq lo 4) = true).
  { destruct Hline as [[-> Hl] | [-> Hl]].
    - rewrite Hl in Hr. exact Hr.
    - rewrite Hl in Hb. exact Hb. }
  apply existsb_exists in Hex. destruct Hex as [i [Hi Hin]].
  apply in_seq in Hi. apply existsb_eqb_In, In_nth_error in Hin.
  destruct Hin as [k Hk]. exists i, k. split; [lia | exact Hk].
Qed.

Lemma directionsOf_index (ty : PieceType.t) (d : Z) :
  In d (directionsOf ty) <->
  exists i, d = direction i /\
            match ty with
            | PieceType.Rook => (i < 4)%nat
            | PieceType.Bishop => (4 <= i < 8)%nat
            | PieceType.Queen => (i < 8)%nat
            | _ => False
            end.
Proof.
  split.
  - destruct ty; cbv [directionsOf slidingPieceOffsets firstn skipn In];
      try contradiction; intros H;
      repeat (destruct H as [<- | H];
              [first [exists 0%nat; split; [reflexivity | lia]
                     | exists 1%nat; split; [reflexivity | lia]
                     | exists 2%nat; split; [reflexivity | lia]
                     | exists 3%nat; split; [reflexivity | lia]
                     | exists 4%nat; split; [reflexivity | lia]
                     | exists 5%nat; split; [reflexivity | lia]
                     | exists 6%nat; split; [reflexivity | lia]
                     | exists 7%nat; split; [reflexivity | lia]] |]);
      contradiction.
  - intros [i [-> Hi]].
    destruct ty; try contradiction;
      do 8 (destruct i as [| i]; [cbv; tauto || lia |]); lia.
Qed.

Lemma lineOf_class (ty : PieceType.t) (square t : Z) (i : nat) :
  match ty with
  | PieceType.Rook => (i < 4)%nat
  | PieceType.Bishop => (4 <= i < 8)%nat
  | PieceType.Queen => (i < 8)%nat
  | _ => False
  end ->
  lineClass i square t = true -> lineOf ty square t = true.
Proof.
  unfold lineClass, lineOf. intros Hi Hl.
  destruct ty; try contradiction.
  - destruct (Nat.ltb_spec i 4); [lia | exact Hl].
  - destruct (Nat.ltb_spec i 4); [exact Hl | lia].
  - destruct (Nat.ltb_spec i 4); rewrite Hl; [reflexivity | apply orb_true_r].
Qed.

Lemma slidingMoves_iff (b : Board.t) (square t : Z) :
  0 <= square < 64 -> 0 <= t < 64 ->
  PieceColor.eqb (getColor (at_ b square)) (getColorToMove b) = true ->
  In (moveTo square t) (slidingMovesOf b square) <->
  lineOf (getType (at_ b square)) square t = true /\
  Rules.clearBetween b square t = true /\ targetOk b t.
Proof.
  intros Hsq Ht Hc. unfold slidingMovesOf. rewrite Hc. cbn [negb].
  rewrite in_flat_map. split.
  - intros [d [Hd Hin]]. apply directionsOf_index in Hd.
    destruct Hd as [i [-> Hi]].
    assert (Hi8 : (i < 8)%nat) by (destruct (getType (at_ b square)); lia).
    unfold rayMoves in Hin. apply in_map_iff in Hin.
    destruct Hin as [t' [Heq Hin]].
    apply reached_iff in Hin. destruct Hin as [k [Hk [Hbefore Hok]]].
    destruct (ray_square b square i k t' Hsq Hi8 Hk) as [Ht' [Hline Hclear]].
    apply moveTo_inj in Heq; [| assumption | assumption]. subst t'.
    split; [apply (lineOf_class _ _ _ i Hi Hline) |].
    split; [apply Hclear, Hbefore | exact Hok].
  - intros [Hline [Hclear Hok]].
    assert (Hcover : exists i k,
               match getType (at_ b square) with
               | PieceType.Rook => (i < 4)%nat
               | PieceType.Bishop => (4 <= i < 8)%nat
               | PieceType.Queen => (i < 8)%nat
               | _ => False
               end /\
               nth_error (ray square (direction i)) k = Some t).
    { unfold lineOf in Hline.
      destruct (getType (at_ b square)); try discriminate.
      - destruct (line_covered square t 4 Hsq Ht) as [i [k [Hi Hk]]];
          [right; auto | exists i, k; split; [lia | exact Hk]].
      - destruct (line_covered square t 0 Hsq Ht) as [i [k [Hi Hk]]];
          [left; auto | exists i, k; split; [lia | exact Hk]].
      - apply orb_prop in Hline. destruct Hline as [Hl | Hl].
        + destruct (line_covered square t 0 Hsq Ht) as [i [k [Hi Hk]]];
            [left; auto | exists i, k; split; [lia | exact Hk]].
        + destruct (line_covered square t 4 Hsq Ht) as [i [k [Hi Hk]]];
            [right; auto | exists i, k; split; [lia | exact Hk]]. }
    destruct Hcover as [i [k [Hi Hk]]].
    assert (Hi8 : (i < 8)%nat) by (destruct (getType (at_ b square)); lia).
    exists (direction i). split.
    + apply directionsOf_index. exists i. split; [reflexivity | exact Hi].
    + unfold rayMoves. apply in_map. apply reached_iff. exists k.
      destruct (ray_square b square i k t Hsq Hi8 Hk) as [_ [_ Hiff]].
      repeat split; [exact Hk | apply Hiff, Hclear | exact Hok].
Qed.

Lemma slidingMoves_form (b : Board.t) (square : Z) (m : Move) :
  0 <= square < 64 -> In m (slidingMovesOf b square) ->
  exists t, 0 <= t < 64 /\ m = moveTo square t.
Proof.
  intros Hsq. unfold slidingMovesOf. destruct (negb _); [contradiction |].
  rewrite in_flat_map. intros [d [Hd Hin]].
  apply directionsOf_index in Hd. destruct Hd as [i [-> Hi]].
  assert (Hi8 : (i < 8)%nat) by (destruct (getType (at_ b square)); lia).
  unfold rayMoves in Hin. apply in_map_iff in Hin. destruct Hin as [t [<- Hin]].
  apply reached_iff in Hin. destruct Hin as [k [Hk _]].
  destruct (ray_square b square i k t Hsq Hi8 Hk) as [Ht _].
  exists t. split; [exact Ht | reflexivity].
Qed.

(** A rook, bishop or queen of the side to move gets exactly its moves: the
    generator emits the move from [square] to [t] if and only if [t] is on
    a line of the piece, every square strictly between is empty, and [t] is
    empty or holds an opposing piece; and it emits nothing else. *)
Theorem generateSlidingMoves_exact (b : Board.t) (square t : Z) :
  0 <= square < 64 -> 0 <= t < 64 ->
  PieceColor.eqb (getColor (at_ b square)) (getColorToMove b) = true ->
  exists g',
    generateSlidingMoves b square (mk []) = Some g' /\
    (In (moveTo square t) (generatedMoves g') <->
     lineOf (getType (at_ b square)) square t = true /\
     Rules.clearBetween b square t = true /\
     (isNone (at_ b t) = true \/ isOpponent b (at_ b t) = true)) /\
    (forall m, In m (generatedMoves g') ->
               exists t', 0 <= t' < 64 /\ m = moveTo square t').
Proof.
  intros Hsq Ht Hc. exists (mk (slidingMovesOf b square)).
  split; [apply generateSlidingMoves_total, Hsq |].
  cbn [generatedMoves]. split.
  - apply slidingMoves_iff; assumption.
  - intros m. apply slidingMoves_form, Hsq.
Qed.

Lemma generateSlidingMoves_exact_witness :
  let b := Position.setup
             [(56, Position.white PieceType.Rook);
              (60, Position.white PieceType.King);
              (8, Position.black PieceType.Pawn);
              (4, Position.black PieceType.King)]
             PieceColor.White (false, false) (false, false) (-1) in
  exists g', generateSlidingMoves b 56 (mk []) = Some g' /\
             In (moveTo 56 8) (generatedMoves g') /\
             ~ In (moveTo 56 0) (generatedMoves g').
Proof.
  intros b.
  assert (Hc : PieceColor.eqb (getColor (at_ b 56)) (getColorToMove b) = true)
    by (vm_compute; reflexivity).
  destruct (generateSlidingMoves_exact b 56 8 ltac:(lia) ltac:(lia) Hc)
    as [g' [Hgen [Hiff _]]].
  destruct (generateSlidingMoves_exact b 56 0 ltac:(lia) ltac:(lia) Hc)
    as [g2 [Hgen2 [Hiff2 _]]].
  rewrite Hgen in Hgen2. injection Hgen2 as <-.
  exists g'. split; [exact Hgen |]. split.
  - apply Hiff. repeat split; try (vm_compute; reflexivity).
    right. vm_compute. reflexivity.
  - intros H. apply Hiff2 in H. destruct H as [_ [H _]].
    vm_compute in H. discriminate.
Defined.

(** *** King and knight steps *)

Lemma offset_step (square : Z) (i : nat) :
  0 <= square < 64 -> (i < 16)%nat ->
  isOnBoard8x8 square (nth i kingKnightOffsets 0) = true ->
  0 <= applyOffset square (nth i kingKnightOffsets 0) < 64 /\
  stepClass i square (applyOffset square (nth i kingKnightOffsets 0)) = true.
Proof.
  intros Hsq Hi Hon.
  pose proof (TableFacts.forallb_zrange _ 64 0 square stepChecks_true Hsq) as H.
  apply (fun H => forallb_seq _ 0 16 i H ltac:(lia)) in H.
  unfold stepChecks in H. cbv zeta in H. rewrite Hon in H. cbn [negb orb] in H.
  apply andb_prop in H. destruct H as [H Hstep].
  apply andb_prop in H. destruct H as [Hlo Hhi].
  apply Z.leb_le in Hlo. apply Z.ltb_lt in Hhi. split; [lia | exact Hstep].
Qed.

Lemma step_covered (square t : Z) (lo : nat) :
  0 <= square < 64 -> 0 <= t < 64 ->
  (lo = 0%nat /\ kingStep square t = true) \/
  (lo = 8%nat /\ knightJump square t = true) ->
  exists i, (lo <= i < lo + 8)%nat /\
            isOnBoard8x8 square (nth i kingKnightOffsets 0) = true /\
            applyOffset square (nth i kingKnightOffsets 0) = t.
Proof.
  intros Hsq Ht Hstep.
  pose proof (TableFacts.forallb_zrange _ 64 0 square stepCoverChecks_true Hsq) as H.
  apply (fun H => TableFacts.forallb_zrange _ 64 0 t H Ht) in H.
  unfold stepCoverChecks in H. apply andb_prop in H. destruct H as [Hk Hn].
  assert (Hex : existsb (fun i => let d := nth i kingKnightOffsets 0 in
                                  isOnBoard8x8 square d && (applyOffset square d =? t))
                        (seq lo 8) = true).
  { destruct Hstep as [[-> Hs] | [-> Hs]].
    - rewrite Hs in Hk. exact Hk.
    - rewrite Hs in Hn. exact Hn. }
  apply existsb_exists in Hex. destruct Hex as [i [Hi Hin]].
  apply in_seq in Hi. cbv zeta in Hin. apply andb_prop in Hin.
  destruct Hin as [Hon Heq]. apply Z.eqb_eq in Heq.
  exists i. repeat split; try lia; assumption.
Qed.

Lemma offsetMoves_iff (b : Board.t) (square t : Z) (lo : nat) :
  0 <= square < 64 -> 0 <= t < 64 -> (lo + 8 <= 16)%nat ->
  In (moveTo square t)
     (offsetMovesOf b square (Z.of_nat lo) (Z.of_nat lo + 8)) <->
  (exists i, (lo <= i < lo + 8)%nat /\
             isOnBoard8x8 square (nth i kingKnightOffsets 0) = true /\
             applyOffset square (nth i kingKnightOffsets 0) = t) /\
  targetOk b t.
Proof.
  intros Hsq Ht Hlo. unfold offsetMovesOf. rewrite in_flat_map.
  replace (Z.to_nat (Z.of_nat lo + 8 - Z.of_nat lo)) with 8%nat by lia.
  split.
  - intros [z [Hz Hin]]. apply BitboardFacts.In_zrange in Hz.
    unfold stepMovesOf in Hin.
    destruct (isOnBoard8x8 square (nth (Z.to_nat z) kingKnightOffsets 0)) eqn:Hon;
      [| contradiction].
    destruct (_ || _) eqn:Hok; [| contradiction].
    destruct Hin as [Heq | []].
    destruct (offset_step square (Z.to_nat z) Hsq ltac:(lia) Hon) as [Hrange _].
    apply moveTo_inj in Heq; [| assumption | assumption].
    split; [exists (Z.to_nat z); repeat split; try lia; assumption |].
    rewrite <- Heq. apply orb_prop, Hok.
  - intros [[i [Hi [Hon Heq]]] Hok]. exists (Z.of_nat i). split.
    + apply BitboardFacts.In_zrange. lia.
    + unfold stepMovesOf. rewrite Nat2Z.id, Hon, Heq.
      destruct Hok as [Hok | Hok]; rewrite Hok;
        [| rewrite orb_true_r]; left; reflexivity.
Qed.

(** A king or knight of the side to move gets exactly its steps: the
    generator emits the plain move from [square] to [t] if and only if [t]
    is a king's step (for a king) or a knight's jump (for a knight) away
    and is empty or holds an opposing piece. The offsets never wrap around
    the edge of the board. *)
Theorem generateKingKnightMoves_exact (b : Board.t) (square t : Z) :
  0 <= square < 64 -> 0 <= t < 64 ->
  PieceColor.eqb (getColor (at_ b square)) (getColorToMove b) = true ->
  (In (moveTo square t) (generatedMoves (generateKingKnightMoves b square (mk [])))
   <->
   stepOf (getType (at_ b square)) square t = true /\
   (isNone (at_ b t) = true \/ isOpponent b (at_ b t) = true)) /\
  (forall m, In m (generatedMoves (generateKingKnightMoves b square (mk []))) ->
             isCastling m = false ->
             exists t', 0 <= t' < 64 /\ m = moveTo square t').
Proof.
  intros Hsq Ht Hc.
  change (generatedMoves (generateKingKnightMoves b square (mk [])))
    with (emitted (generateKingKnightMoves b square)).
  rewrite emitted_generateKingKnightMoves. unfold kingKnightMovesOf.
  rewrite Hc. cbn [negb]. split.
  - destruct (getType (at_ b square)) eqn:Hty; cbn [stepOf];
      try (split; [contradiction | intros [H _]; discriminate]).
    + (* knight *)
      rewrite (offsetMoves_iff b square t 8 Hsq Ht ltac:(lia)).
      split.
      * intros [[i [Hi [Hon Heq]]] Hok]. split; [| exact Hok].
        destruct (offset_step square i Hsq ltac:(lia) Hon) as [_ Hstep].
        unfold stepClass in Hstep. rewrite Heq in Hstep.
        destruct (Nat.ltb_spec i 8); [lia | exact Hstep].
      * intros [Hstep Hok]. split; [| exact Hok].
        apply (step_covered square t 8 Hsq Ht). right. auto.
    + (* king *)
      rewrite in_app_iff.
      change 0 with (Z.of_nat 0) at 1.
      rewrite (offsetMoves_iff b square t 0 Hsq Ht ltac:(lia)).
      split.
      * intros [[[i [Hi [Hon Heq]]] Hok] | Hcast].
        -- split; [| exact Hok].
           destruct (offset_step square i Hsq ltac:(lia) Hon) as [_ Hstep].
           unfold stepClass in Hstep. rewrite Heq in Hstep.
           destruct (Nat.ltb_spec i 8); [exact Hstep | lia].
        -- apply castlingMoves_cases in Hcast.
           destruct Hcast as [[_ H] | [_ H]]; discriminate.
      * intros [Hstep Hok]. left. split; [| exact Hok].
        apply (step_covered square t 0 Hsq Ht). left. auto.
  - intros m Hin Hcast.
    assert (Hoff : forall lo, (lo + 8 <= 16)%nat ->
              In m (offsetMovesOf b square (Z.of_nat lo) (Z.of_nat lo + 8)) ->
              exists t', 0 <= t' < 64 /\ m = moveTo square t').
    { intros lo Hlo H. unfold offsetMovesOf in H. apply in_flat_map in H.
      destruct H as [z [Hz H]]. apply BitboardFacts.In_zrange in Hz.
      unfold stepMovesOf in H.
      destruct (isOnBoard8x8 square (nth (Z.to_nat z) kingKnightOffsets 0)) eqn:Hon;
        [| contradiction].
      destruct (_ || _); [| contradiction]. destruct H as [<- | []].
      destruct (offset_step square (Z.to_nat z) Hsq ltac:(lia) Hon) as [Hr _].
      eexists. split; [exact Hr | reflexivity]. }
    destruct (getType (at_ b square)); try contradiction.
    + apply (Hoff 8%nat ltac:(lia) Hin).
    + apply in_app_iff in Hin. destruct Hin as [Hin | Hin].
      * apply (Hoff 0%nat ltac:(lia) Hin).
      * apply castlingMoves_cases in Hin.
        destruct Hin as [[_ ->] | [_ ->]]; discriminate.
Qed.

Lemma generateKingKnightMoves_exact_witness :
  let b := Position.startingPosition in
  In (moveTo 57 42) (generatedMoves (generateKingKnightMoves b 57 (mk []))) /\
  ~ In (moveTo 57 51) (generatedMoves (generateKingKnightMoves b 57 (mk []))).
Proof.
  intros b.
  assert (Hc : PieceColor.eqb (getColor (at_ b 57)) (getColorToMove b) = true)
    by (vm_compute; reflexivity).
  destruct (generateKingKnightMoves_exact b 57 42 ltac:(lia) ltac:(lia) Hc)
    as [Hiff _].
  destruct (generateKingKnightMoves_exact b 57 51 ltac:(lia) ltac:(lia) Hc)
    as [Hiff2 _].
  split.
  - apply Hiff. split; [vm_compute; reflexivity | left; vm_compute; reflexivity].
  - intros H. apply Hiff2 in H. destruct H as [_ [H | H]];
      vm_compute in H; discriminate.
Defined.

End ExactFacts.

(** ** Moves of one square, promotions, double pushes and bounds *)

Module SquareFacts.
Import Board MoveGenerator Buffer Sliding Stepping Geometry Lines PerSquare.
Import SquareMoves GeneratorFacts SlidingFacts EmittedFacts MoveFacts ExactFacts.

Lemma generateMoves_eq (g : t) (b : Board.t) (square : Z) :
  0 <= square < 64 ->
  generateMoves g b square =
  if PieceColor.eqb (getColor (at_ b square)) (getColorToMove b)
  then Some (movesOf b square, mk (movesOf b square))
  else Some ([], g).
Proof.
  intros Hsq. unfold generateMoves.
  destruct (PieceColor.eqb (getColor (at_ b square)) (getColorToMove b));
    cbn [negb]; [| reflexivity].
  cbv zeta. rewrite generateSlidingMoves_total by exact Hsq.
  cbn [clear generatedMoves app].
  rewrite (appends_generatePawnMoves b square),
          (appends_generateKingKnightMoves b square).
  cbn [generatedMoves].
  rewrite emitted_generateKingKnightMoves, emitted_generatePawnMoves.
  unfold movesOf. rewrite <- app_assoc. reflexivity.
Qed.

Lemma movesOf_start (b : Board.t) (square : Z) (m : Move) :
  0 <= square < 64 -> In m (movesOf b square) ->
  startIndex m = to10x12Coords square.
Proof.
  intros Hsq. unfold movesOf. rewrite !in_app_iff. intros [H | [H | H]].
  - apply slidingMoves_form in H; [| exact Hsq].
    destruct H as [t [_ ->]]. reflexivity.
  - apply kingKnight_cases in H. destruct H as [_ [[_ [s [e H]]] | [_ H]]].
    + apply offsetMoves_shape in H. apply H.
    + apply castlingMoves_cases in H. destruct H as [[_ ->] | [_ ->]]; reflexivity.
  - unfold pawnMovesOf in H. destruct (isPawnToMove b square); [| contradiction].
    apply in_flat_map in H. destruct H as [m0 [Hbase Hfan]].
    apply fanOut_fields in Hfan. destruct Hfan as [-> _].
    apply pawnBaseMoves_cases in Hbase.
    destruct Hbase as [[-> _] | [[-> _] | [[-> _] | [[-> _] | [[-> _] | [-> _]]]]]];
      reflexivity.
Qed.

(** [generateMoves] for a board square: when the square holds the colour to
    move, the buffer is cleared and the moves returned all start on that
    square; otherwise the list returned is empty and the buffer is left as
    it was, not cleared. *)
Theorem generateMoves_of_square (g : t) (b : Board.t) (square : Z) :
  0 <= square < 64 ->
  exists moves g',
    generateMoves g b square = Some (moves, g') /\
    (forall m, In m moves -> startIndex m = to10x12Coords square) /\
    (PieceColor.eqb (getColor (at_ b square)) (getColorToMove b) = true ->
     generatedMoves g' = moves) /\
    (PieceColor.eqb (getColor (at_ b square)) (getColorToMove b) = false ->
     moves = [] /\ g' = g).
Proof.
  intros Hsq. rewrite generateMoves_eq by exact Hsq.
  destruct (PieceColor.eqb (getColor (at_ b square)) (getColorToMove b)).
  - exists (movesOf b square), (mk (movesOf b square)).
    repeat split; try discriminate.
    intros m. apply movesOf_start, Hsq.
  - exists [], g. repeat split; try discriminate. intros m [].
Qed.

Lemma generateMoves_of_square_witness :
  let b := Position.startingPosition in
  let stale := mk [moveTo 0 1] in
  (exists moves g', generateMoves stale b 57 = Some (moves, g') /\
                    generatedMoves g' = moves /\ length moves = 2%nat) /\
  generateMoves stale b 1 = Some ([], stale).
Proof.
  intros b stale. split.
  - destruct (generateMoves_of_square stale b 57 ltac:(lia))
      as [moves [g' [Hgen [_ [Hkeep _]]]]].
    exists moves, g'. split; [exact Hgen |].
    split; [apply Hkeep; vm_compute; reflexivity |].
    assert (H : generateMoves stale b 57 =
                Some ([moveTo 57 42; moveTo 57 40], mk [moveTo 57 42; moveTo 57 40]))
      by (vm_compute; reflexivity).
    rewrite H in Hgen. injection Hgen as <- _. reflexivity.
  - destruct (generateMoves_of_square stale b 1 ltac:(lia))
      as [moves [g' [Hgen [_ [_ Hwrong]]]]].
    destruct Hwrong as [-> ->]; [vm_compute; reflexivity | exact Hgen].
Defined.

Lemma coherent_spec (b : Board.t) (square : Z) :
  coherent b = true -> 0 <= square < 64 ->
  PieceColor.eqb (getColor (at_ b square)) (getColorToMove b) = true ->
  match getType (at_ b square) with
  | PieceType.King => In square (kingSquares b)
  | PieceType.Knight => In square (knightSquares b)
  | PieceType.Pawn => In square (pawnSquares b)
  | _ => True
  end.
Proof.
  intros Hco Hsq Hc. unfold coherent in Hco.
  apply (fun H => TableFacts.forallb_zrange _ 64 0 square H Hsq) in Hco.
  cbv beta zeta in Hco. rewrite Hc in Hco. cbn [negb orb] in Hco.
  unfold kingSquares, knightSquares, pawnSquares.
  destruct (getType (at_ b square)); try exact I;
    apply existsb_eqb_In in Hco; exact Hco.
Qed.

Lemma allMoves_of_square (b : Board.t) (square : Z) (m : Move) :
  coherent b = true -> 0 <= square < 64 ->
  PieceColor.eqb (getColor (at_ b square)) (getColorToMove b) = true ->
  In m (movesOf b square) -> In m (allMovesOf b).
Proof.
  intros Hco Hsq Hc. pose proof (coherent_spec b square Hco Hsq Hc) as Hin.
  unfold movesOf, allMovesOf. rewrite !in_app_iff, !in_flat_map.
  intros [H | [H | H]].
  - left. exists square. split; [| exact H].
    apply BitboardFacts.In_zrange. simpl Z.of_nat. lia.
  - right; left. exists square. split; [| exact H]. apply in_app_iff.
    unfold kingKnightMovesOf in H. rewrite Hc in H. cbn [negb] in H.
    destruct (getType (at_ b square)); try contradiction; auto.
  - right; right. exists square. split; [| exact H].
    unfold pawnMovesOf, isPawnToMove in H. rewrite Hc in H. cbn [andb] in H.
    destruct (getType (at_ b square)); cbn in H; try contradiction. exact Hin.
Qed.

Lemma square_of_allMoves (b : Board.t) (m : Move) :
  In m (allMovesOf b) ->
  exists square, 0 <= square < 64 /\
    PieceColor.eqb (getColor (at_ b square)) (getColorToMove b) = true /\
    In m (movesOf b square).
Proof.
  intros H. apply allMoves_cases in H. unfold movesOf.
  destruct H as [[sq [Hsq H]] | [[sq [Hsq H]] | [sq [Hsq H]]]];
    exists sq; (split; [exact Hsq |]); rewrite !in_app_iff.
  - split; [| auto]. unfold slidingMovesOf in H.
    destruct (PieceColor.eqb _ _); [reflexivity | contradiction].
  - split; [| auto]. unfold kingKnightMovesOf in H.
    destruct (PieceColor.eqb _ _); [reflexivity | contradiction].
  - split; [| auto]. unfold pawnMovesOf, isPawnToMove in H.
    destruct (PieceColor.eqb _ _); [reflexivity | contradiction].
Qed.

(** Every move of [generateAllMoves] is a move [generateMoves] returns for
    some square of the board; and when the bitboards of the side to move
    list its kings, knights and pawns wherever the mailbox shows them, every
    move [generateMoves] returns for a board square is among the moves of
    [generateAllMoves]. *)
Theorem generateAllMoves_by_square (g : t) (b : Board.t) :
  exists moves g',
    generateAllMoves g b = Some (moves, g') /\
    (forall m, In m moves ->
       exists square ms g'',
         0 <= square < 64 /\
         generateMoves g b square = Some (ms, g'') /\ In m ms) /\
    (coherent b = true ->
     forall square ms g'' m,
       0 <= square < 64 ->
       generateMoves g b square = Some (ms, g'') -> In m ms -> In m moves).
Proof.
  exists (allMovesOf b), (mk (allMovesOf b)).
  split; [apply generateAllMoves_eq |]. split.
  - intros m Hm. apply square_of_allMoves in Hm.
    destruct Hm as [sq [Hsq [Hc Hin]]].
    exists sq, (movesOf b sq), (mk (movesOf b sq)).
    split; [exact Hsq |]. rewrite generateMoves_eq, Hc by exact Hsq. auto.
  - intros Hco sq ms g'' m Hsq Hgen Hin.
    rewrite generateMoves_eq in Hgen by exact Hsq.
    destruct (PieceColor.eqb (getColor (at_ b sq)) (getColorToMove b)) eqn:Hc.
    + injection Hgen as <- _. apply (allMoves_of_square b sq m Hco Hsq Hc Hin).
    + injection Hgen as <- _. contradiction.
Qed.

Lemma generateAllMoves_by_square_witness :
  let b := Position.startingPosition in
  exists moves g',
    generateAllMoves (mk []) b = Some (moves, g') /\ In (moveTo 57 42) moves.
Proof.
  intros b.
  destruct (generateAllMoves_by_square (mk []) b) as [moves [g' [Hgen [_ Hback]]]].
  exists moves, g'. split; [exact Hgen |].
  assert (Hco : coherent b = true) by (vm_compute; reflexivity).
  apply (Hback Hco 57 [moveTo 57 42; moveTo 57 40]
               (mk [moveTo 57 42; moveTo 57 40]) (moveTo 57 42) ltac:(lia)).
  - vm_compute. reflexivity.
  - left. reflexivity.
Defined.

Lemma onLastRank_fan (b : Board.t) (m0 m : Move) :
  In m (fanOut b m0) -> onLastRank b m = onLastRank b m0.
Proof.
  intros H. apply fanOut_fields in H. destruct H as [Hs [He _]].
  unfold onLastRank. rewrite Hs, He. reflexivity.
Qed.

Lemma fanOut_promotion (b : Board.t) (m0 m : Move) :
  promotionType m0 = PieceType.None -> In m (fanOut b m0) ->
  if onLastRank b m0
  then In (promotionType m) ChessTerms.promotionPieces
  else promotionType m = PieceType.None.
Proof.
  intros H0. unfold fanOut. destruct (onLastRank b m0); cbn [In].
  - intros [<- | [<- | [<- | [<- | []]]]]; cbn; tauto.
  - intros [<- | []]. exact H0.
Qed.

Lemma promotionPieces_not_none (p : PieceType.t) :
  In p ChessTerms.promotionPieces -> p <> PieceType.None.
Proof. cbn. intros [<- | [<- | [<- | [<- | []]]]]; discriminate. Qed.

Lemma pawnMoves_origin (b : Board.t) (square : Z) (m : Move) :
  In m (pawnMovesOf b square) ->
  isPawnToMove b square = true /\
  exists m0, In m0 (pawnBaseMoves b square (pawnDirection b square)
                                  (pawnBaseLine b square)) /\
             In m (fanOut b m0) /\ startIndex m0 = to10x12Coords square.
Proof.
  unfold pawnMovesOf. destruct (isPawnToMove b square); [| contradiction].
  rewrite in_flat_map. intros [m0 [Hbase Hfan]]. split; [reflexivity |].
  exists m0. repeat split; try assumption.
  apply pawnBaseMoves_cases in Hbase.
  destruct Hbase as [[-> _] | [[-> _] | [[-> _] | [[-> _] | [[-> _] | [-> _]]]]]];
    reflexivity.
Qed.

(** Promotion goes with pawns reaching their last rank, and with nothing
    else: a returned move carries a promotion if and only if a pawn stands
    on its start square and its destination is on that pawn's last rank,
    and the promotion is then one of queen, rook, bishop and knight. *)
Theorem promotion_iff_last_rank (g : t) (b : Board.t) :
  exists moves g',
    generateAllMoves g b = Some (moves, g') /\
    forall m, In m moves ->
      (promotionType m <> PieceType.None <->
       getType (at10x12 b (startIndex m)) = PieceType.Pawn /\
       onLastRank b m = true) /\
      (promotionType m <> PieceType.None ->
       In (promotionType m) ChessTerms.promotionPieces).
Proof.
  exists (allMovesOf b), (mk (allMovesOf b)).
  split; [apply generateAllMoves_eq |].
  intros m Hm. apply allMoves_cases in Hm.
  destruct Hm as [[sq [Hsq H]] | [[sq [Hsq H]] | [sq [Hsq H]]]].
  - assert (Hty : In (getType (at_ b sq))
                     [PieceType.Rook; PieceType.Bishop; PieceType.Queen]).
    { unfold slidingMovesOf in H. destruct (negb _); [contradiction |].
      destruct (getType (at_ b sq)); cbn [directionsOf flat_map] in H;
        try contradiction; cbn; tauto. }
    apply slidingMoves_form in H; [| exact Hsq]. destruct H as [t [_ ->]].
    cbn [promotionType startIndex moveTo newMove].
    change (at10x12 b (to10x12Coords sq)) with (at_ b sq).
    split; [split; [congruence |] | congruence].
    intros [Hp _]. rewrite Hp in Hty. cbn in Hty.
    destruct Hty as [H | [H | [H | []]]]; discriminate.
  - apply kingKnight_cases in H. destruct H as [_ [[Hty [s [e H]]] | [Hty H]]].
    + assert (Hshape : startIndex m = to10x12Coords sq /\
                       promotionType m = PieceType.None).
      { unfold offsetMovesOf in H. apply in_flat_map in H.
        destruct H as [i [_ H]]. apply step_shape in H. destruct H as [-> _].
        split; reflexivity. }
      destruct Hshape as [Hs Hp]. rewrite Hs, Hp.
      change (at10x12 b (to10x12Coords sq)) with (at_ b sq).
      split; [split; [congruence |] | congruence].
      intros [Hpawn _]. rewrite Hpawn in Hty. cbn in Hty.
      destruct Hty as [H' | [H' | []]]; discriminate.
    + apply castlingMoves_cases in H.
      destruct H as [[_ ->] | [_ ->]];
        cbn [promotionType startIndex castlingMove];
        change (at10x12 b (to10x12Coords sq)) with (at_ b sq);
        (split; [split; [congruence |] | congruence]);
        intros [Hpawn _]; rewrite Hpawn in Hty; discriminate.
  - apply pawnMoves_origin in H.
    destruct H as [Hpawn [m0 [Hbase [Hfan Hstart]]]].
    pose proof (pawnBaseMoves_unpromoted _ _ _ _ _ Hbase) as H0.
    pose proof (fanOut_promotion b m0 m H0 Hfan) as Hpromo.
    pose proof (onLastRank_fan b m0 m Hfan) as Hrank.
    pose proof (fanOut_fields b m0 m Hfan) as [Hs _].
    unfold isPawnToMove in Hpawn. apply andb_prop in Hpawn.
    destruct Hpawn as [_ Hty]. apply type_eqb_eq in Hty.
    rewrite Hs, Hstart, Hrank.
    change (at10x12 b (to10x12Coords sq)) with (at_ b sq).
    destruct (onLastRank b m0).
    + pose proof (promotionPieces_not_none _ Hpromo).
      split; [split; auto | auto].
    + split; [split; [congruence | intros [_ H]; discriminate] | congruence].
Qed.

Lemma promotion_iff_last_rank_witness :
  let b := Position.setup
             [(8, Position.white PieceType.Pawn);
              (56, Position.black PieceType.King);
              (63, Position.white PieceType.King)]
             PieceColor.White (false, false) (false, false) (-1) in
  let m := withPromotion (pushMove 8 (-10)) PieceType.Queen in
  In m (allMovesOf b) /\
  getType (at10x12 b (startIndex m)) = PieceType.Pawn /\
  onLastRank b m = true.
Proof.
  intros b m.
  assert (Hevery : forall b0 m0,
            In m0 (allMovesOf b0) -> promotionType m0 <> PieceType.None ->
            getType (at10x12 b0 (startIndex m0)) = PieceType.Pawn /\
            onLastRank b0 m0 = true).
  { intros b0 m0 Hin Hpromo.
    destruct (promotion_iff_last_rank (mk []) b0) as [moves [g' [Hgen Hall]]].
    rewrite generateAllMoves_eq in Hgen. injection Hgen as <- _.
    apply (Hall m0 Hin). exact Hpromo. }
  assert (Hin : In m (allMovesOf b)).
  { vm_compute. repeat (first [left; reflexivity | right]). }
  split; [exact Hin |]. apply Hevery; [exact Hin | discriminate].
Defined.

Lemma doubleMove_origin (b : Board.t) (square d baseLine : Z) (m0 : Move) :
  In m0 (pawnBaseMoves b square d baseLine) -> isDoublePawnMove m0 = true ->
  m0 = doubleMove square d /\
  ChessTerms.isOnRow square baseLine = true /\
  isOccupied b (to10x12Coords (applyOffset square d)) = false /\
  isOccupied b (to10x12Coords (applyOffset square (d * 2))) = false.
Proof.
  unfold pawnBaseMoves. rewrite !in_app_iff. intros [H | [H | [H | H]]] Hd.
  - destruct (isOccupied b (to10x12Coords (applyOffset square d))) eqn:Ho;
      cbn [negb] in H; [contradiction |].
    destruct H as [<- | H]; [discriminate |].
    destruct (ChessTerms.isOnRow square baseLine); cbn [andb] in H;
      [| contradiction].
    destruct (isOccupied b (to10x12Coords (applyOffset square (d * 2)))) eqn:Ho2;
      cbn [negb] in H; [contradiction |].
    destruct H as [<- | []]. auto.
  - destruct (mayCapture b square (d - 1)); [| contradiction].
    destruct H as [<- | []]. discriminate.
  - destruct (mayCapture b square (d + 1)); [| contradiction].
    destruct H as [<- | []]. discriminate.
  - destruct (besideEnPassant b square (-1)).
    + destruct H as [<- | []]. discriminate.
    + destruct (besideEnPassant b square 1); [| contradiction].
      destruct H as [<- | []]. discriminate.
Qed.

(** A double pawn push is returned only for a pawn of the side to move
    standing on its base row (row 6 for white, row 1 for black) with the two
    squares ahead of it unoccupied; it starts on the pawn's square, ends two
    rows ahead, records the file of its destination, and is neither an
    en-passant nor a castling move. *)
Theorem double_push_requirements (g g' : t) (b : Board.t) (moves : list Move)
        (m : Move) :
  generateAllMoves g b = Some (moves, g') ->
  In m moves ->
  isDoublePawnMove m = true ->
  exists square,
    0 <= square < 64 /\
    isPawnToMove b square = true /\
    ChessTerms.isOnRow square (pawnBaseLine b square) = true /\
    isOccupied b (to10x12Coords (applyOffset square (pawnDirection b square)))
    = false /\
    isOccupied b (to10x12Coords (applyOffset square (pawnDirection b square * 2)))
    = false /\
    startIndex m = to10x12Coords square /\
    endIndex m = to10x12Coords (applyOffset square (pawnDirection b square * 2)) /\
    enPassantFile m = ChessTerms.getXCoord (endIndex m) /\
    isEnPassant m = false /\ isCastling m = false.
Proof.
  intros Hgen Hm Hd. rewrite generateAllMoves_eq in Hgen.
  injection Hgen as <- _. apply allMoves_cases in Hm.
  destruct Hm as [[sq [Hsq H]] | [[sq [Hsq H]] | [sq [Hsq H]]]].
  - apply slidingMoves_form in H; [| exact Hsq].
    destruct H as [t [_ ->]]. discriminate.
  - apply kingKnight_cases in H. destruct H as [_ [[_ [s [e H]]] | [_ H]]].
    + unfold offsetMovesOf in H. apply in_flat_map in H.
      destruct H as [i [_ H]]. apply step_shape in H. destruct H as [-> _].
      discriminate.
    + apply castlingMoves_cases in H. destruct H as [[_ ->] | [_ ->]]; discriminate.
  - apply pawnMoves_origin in H.
    destruct H as [Hpawn [m0 [Hbase [Hfan _]]]].
    apply fanOut_fields in Hfan.
    destruct Hfan as [Hs [He [Hc [Hep [Hdp [Hf _]]]]]].
    rewrite Hd in Hdp. symmetry in Hdp.
    destruct (doubleMove_origin _ _ _ _ _ Hbase Hdp) as [-> [Hrow [Ho1 Ho2]]].
    exists sq. rewrite Hs, He, Hc, Hep, Hf.
    repeat split; try assumption; lia.
Qed.

Lemma double_push_requirements_witness :
  let b := Position.startingPosition in
  exists square,
    isPawnToMove b square = true /\
    ChessTerms.isOnRow square (pawnBaseLine b square) = true /\
    startIndex (doubleMove 52 (-10)) = to10x12Coords square.
Proof.
  intros b.
  destruct (double_push_requirements (mk []) (mk (allMovesOf b)) b (allMovesOf b)
              (doubleMove 52 (-10)))
    as [sq [_ [Hp [Hrow [_ [_ [Hs _]]]]]]].
  - apply generateAllMoves_eq.
  - vm_compute. repeat (first [left; reflexivity | right]).
  - reflexivity.
  - exists sq. auto.
Defined.

(** *** Bounds on the number of moves *)

Lemma rayLengthChecks_true : forallb rayLengthChecks (zrange 0 64) = true.
Proof. vm_compute. reflexivity. Qed.

Lemma reached_length (b : Board.t) (r : list Z) :
  (length (reached b r) <= length r)%nat.
Proof.
  induction r as [| p r IH]; cbn [reached length]; [lia |].
  destruct (isNone (at_ b p)); cbn [length]; [lia |].
  destruct (isOpponent b (at_ b p)); cbn [length]; lia.
Qed.

Lemma rayMoves_length (b : Board.t) (square d : Z) :
  (length (rayMoves b square d) <= length (ray square d))%nat.
Proof. unfold rayMoves. rewrite length_map. apply reached_length. Qed.

Lemma slidingMoves_length (b : Board.t) (square : Z) :
  0 <= square < 64 ->
  (length (slidingMovesOf b square) <= mostMoves (getType (at_ b square)))%nat.
Proof.
  intros Hsq.
  pose proof (TableFacts.forallb_zrange _ 64 0 square rayLengthChecks_true Hsq) as H.
  unfold rayLengthChecks in H. cbv zeta in H.
  apply andb_prop in H. destruct H as [Hr Hb].
  apply Nat.leb_le in Hr. apply Nat.leb_le in Hb.
  unfold slidingMovesOf. destruct (negb _); [cbn; lia |].
  pose proof (rayMoves_length b square) as Hlen.
  destruct (getType (at_ b square));
    cbv [directionsOf slidingPieceOffsets firstn skipn flat_map mostMoves];
    rewrite ?length_app; cbn [length];
    cbv [slidingPieceOffsets nth] in Hr, Hb;
    repeat match goal with
           | |- context [length (rayMoves b square ?d)] =>
               let H := fresh "L" in
               pose proof (Hlen d) as H;
               generalize dependent (length (rayMoves b square d)); intros
           end; lia.
Qed.

Lemma stepMoves_length (b : Board.t) (square d : Z) :
  (length (stepMovesOf b square d) <= 1)%nat.
Proof.
  unfold stepMovesOf. destruct (isOnBoard8x8 square d); [| cbn; lia].
  destruct (_ || _); cbn; lia.
Qed.

Lemma flat_map_length_le {A : Type} (f : A -> list Move) (l : list A) (n : nat) :
  (forall x, (length (f x) <= n)%nat) ->
  (length (flat_map f l) <= n * length l)%nat.
Proof.
  intros Hf. induction l as [| x l IH]; cbn [flat_map length]; [lia |].
  rewrite length_app. specialize (Hf x). lia.
Qed.

Lemma zrange_length (n : nat) (lo : Z) : length (zrange lo n) = n.
Proof.
  revert lo. induction n as [| n IH]; intros lo; cbn [zrange length];
    [| rewrite IH]; reflexivity.
Qed.

Lemma kingKnightMoves_length (b : Board.t) (square : Z) :
  (length (kingKnightMovesOf b square) <= mostMoves (getType (at_ b square)))%nat.
Proof.
  unfold kingKnightMovesOf. destruct (negb _); [cbn; lia |].
  assert (Hoff : forall s, (length (offsetMovesOf b square s (s + 8)) <= 8)%nat).
  { intros s. unfold offsetMovesOf.
    pose proof (flat_map_length_le
                  (fun i => stepMovesOf b square (nth (Z.to_nat i) kingKnightOffsets 0))
                  (zrange s (Z.to_nat (s + 8 - s))) 1
                  (fun i => stepMoves_length b square _)) as H.
    rewrite zrange_length in H. lia. }
  destruct (getType (at_ b square)); cbn [mostMoves length]; try lia.
  - apply (Hoff 8).
  - rewrite length_app. pose proof (Hoff 0) as H0. cbn [Z.add] in H0.
    unfold castlingMovesOf. rewrite length_app.
    destruct (mayCastleRight b square); destruct (mayCastleLeft b square);
      cbn [length]; lia.
Qed.

(** The number of moves one piece is given is bounded by its type: at most
    14 for a rook, 13 for a bishop, 27 for a queen, 8 for a knight and 10
    for a king (eight steps and two castling moves). *)
Theorem moves_per_piece_bounded (b : Board.t) (square : Z) (g : t) :
  0 <= square < 64 ->
  (exists g',
     generateSlidingMoves b square g = Some g' /\
     (length (generatedMoves g') <=
      length (generatedMoves g) + mostMoves (getType (at_ b square)))%nat) /\
  (length (generatedMoves (generateKingKnightMoves b square g)) <=
   length (generatedMoves g) + mostMoves (getType (at_ b square)))%nat.
Proof.
  intros Hsq. split.
  - exists (mk (generatedMoves g ++ slidingMovesOf b square)).
    split; [apply generateSlidingMoves_total, Hsq |].
    cbn [generatedMoves]. rewrite length_app.
    pose proof (slidingMoves_length b square Hsq). lia.
  - rewrite (appends_generateKingKnightMoves b square g). cbn [generatedMoves].
    rewrite length_app, emitted_generateKingKnightMoves.
    pose proof (kingKnightMoves_length b square). lia.
Qed.

Lemma moves_per_piece_bounded_witness :
  let b := Position.startingPosition in
  (length (generatedMoves (generateKingKnightMoves b 57 (mk []))) <= 8)%nat.
Proof.
  intros b.
  destruct (moves_per_piece_bounded b 57 (mk []) ltac:(lia)) as [_ H].
  exact H.
Defined.

End SquareFacts.

(** ** Bit operations of the bitboard *)

Module BitboardOpsFacts.
Import Bitboard BitboardOps BitboardFacts.

Lemma testbit_one (pos i : Z) :
  0 <= pos -> 0 <= i -> Z.testbit (Z.shiftl 1 pos) i = (i =? pos).
Proof.
  intros Hp Hi. rewrite Z.shiftl_1_l.
  destruct (Z.eqb_spec i pos) as [-> | Hne].
  - apply Z.pow2_bits_true. exact Hp.
  - apply Z.pow2_bits_false. lia.
Qed.

Lemma testbit_ones128 (i : Z) : 0 <= i -> Z.testbit (2 ^ 128 - 1) i = (i <? 128).
Proof.
  intros Hi. change (2 ^ 128 - 1) with (Z.ones 128).
  destruct (Z.ltb_spec i 128); [apply Z.ones_spec_low | apply Z.ones_spec_high]; lia.
Qed.

Lemma testbit_high (x i : Z) : 0 <= x < 2 ^ 128 -> 128 <= i -> Z.testbit x i = false.
Proof.
  intros Hx Hi. destruct (Z.eq_dec x 0) as [-> | Hne]; [apply Z.bits_0 |].
  apply Z.bits_above_log2; [lia |].
  apply Z.lt_le_trans with 128; [apply Z.log2_lt_pow2; lia | exact Hi].
Qed.

Lemma range_of_bits (x : Z) :
  0 <= x -> (forall i, 128 <= i -> Z.testbit x i = false) -> 0 <= x < 2 ^ 128.
Proof.
  intros Hx Hhigh. split; [exact Hx |].
  destruct (Z.eq_dec x 0) as [-> | Hne]; [lia |].
  apply Z.log2_lt_pow2; [lia |].
  destruct (Z_lt_le_dec (Z.log2 x) 128) as [H | H]; [exact H | exfalso].
  pose proof (Z.bit_log2 x ltac:(lia)) as Hbit.
  rewrite Hhigh in Hbit by exact H. discriminate.
Qed.

Lemma shiftOne_ok (pos : Z) :
  0 <= pos < 128 -> shiftOne pos = Ok (Z.shiftl 1 pos).
Proof.
  intros Hp. unfold shiftOne.
  destruct (Z.leb_spec 0 pos); destruct (Z.ltb_spec pos 128); try lia. reflexivity.
Qed.

(** [setBit], [clearBit] and [flipBit] change the bit they name and no
    other, and keep the word within 128 bits; outside 0..127 the shift they
    perform is not defined. *)
Theorem bit_updates (pos : Z) (b : t) :
  0 <= bits b < 2 ^ 128 ->
  (0 <= pos < 128 ->
   exists s c f,
     setBit pos b = Ok s /\ clearBit pos b = Ok c /\ flipBit pos b = Ok f /\
     (forall i, 0 <= i ->
        Z.testbit (bits s) i = (i =? pos) || Z.testbit (bits b) i) /\
     (forall i, 0 <= i ->
        Z.testbit (bits c) i = negb (i =? pos) && Z.testbit (bits b) i) /\
     (forall i, 0 <= i ->
        Z.testbit (bits f) i = xorb (i =? pos) (Z.testbit (bits b) i)) /\
     0 <= bits s < 2 ^ 128 /\ 0 <= bits c < 2 ^ 128 /\ 0 <= bits f < 2 ^ 128) /\
  (~ 0 <= pos < 128 ->
   setBit pos b = Undefined /\ clearBit pos b = Undefined /\
   flipBit pos b = Undefined).
Proof.
  intros Hb. split.
  - intros Hp. unfold setBit, clearBit, flipBit.
    rewrite (shiftOne_ok pos Hp). cbn [bind].
    do 3 eexists. split; [reflexivity |]. split; [reflexivity |].
    split; [reflexivity |]. cbn [bits withBits].
    assert (Hs : forall i, 0 <= i ->
              Z.testbit (Z.lor (bits b) (Z.shiftl 1 pos)) i =
              (i =? pos) || Z.testbit (bits b) i).
    { intros i Hi. rewrite Z.lor_spec, testbit_one by lia. apply orb_comm. }
    assert (Hc : forall i, 0 <= i ->
              Z.testbit (Z.land (bits b) (Z.lxor (2 ^ 128 - 1) (Z.shiftl 1 pos))) i =
              negb (i =? pos) && Z.testbit (bits b) i).
    { intros i Hi.
      rewrite Z.land_spec, Z.lxor_spec, testbit_ones128, testbit_one by lia.
      destruct (Z.ltb_spec i 128).
      - destruct (i =? pos); destruct (Z.testbit (bits b) i); reflexivity.
      - rewrite (testbit_high (bits b) i Hb) by lia.
        destruct (i =? pos); reflexivity. }
    assert (Hf : forall i, 0 <= i ->
              Z.testbit (Z.lxor (bits b) (Z.shiftl 1 pos)) i =
              xorb (i =? pos) (Z.testbit (bits b) i)).
    { intros i Hi. rewrite Z.lxor_spec, testbit_one by lia. apply xorb_comm. }
    assert (Hone : 0 <= Z.shiftl 1 pos) by (apply Z.shiftl_nonneg; lia).
    repeat split; try assumption.
    + apply Z.lor_nonneg. lia.
    + apply range_of_bits; [apply Z.lor_nonneg; lia |].
      intros i Hi. rewrite Hs by lia. rewrite (testbit_high _ i Hb Hi).
      destruct (Z.eqb_spec i pos); [lia | reflexivity].
    + apply Z.land_nonneg. lia.
    + apply range_of_bits; [apply Z.land_nonneg; lia |].
      intros i Hi. rewrite Hc by lia. rewrite (testbit_high _ i Hb Hi).
      apply andb_false_r.
    + apply Z.lxor_nonneg. lia.
    + apply range_of_bits; [apply Z.lxor_nonneg; lia |].
      intros i Hi. rewrite Hf by lia. rewrite (testbit_high _ i Hb Hi).
      destruct (Z.eqb_spec i pos); [lia | reflexivity].
  - intros Hp. unfold setBit, clearBit, flipBit, shiftOne.
    destruct (Z.leb_spec 0 pos); destruct (Z.ltb_spec pos 128);
      try lia; repeat split.
Qed.

Lemma bit_updates_witness :
  let b := Bitboard.mk 0x10 [] [] 0 in
  exists s, setBit 3 b = Ok s /\ Z.testbit (bits s) 3 = true /\
            setBit (-1) b = Undefined.
Proof.
  intros b.
  assert (Hb : 0 <= bits b < 2 ^ 128) by (unfold b; cbn [bits]; lia).
  destruct (bit_updates 3 b Hb) as [Hin _].
  destruct (bit_updates (-1) b Hb) as [_ Hout].
  destruct (Hin ltac:(lia)) as [s [c [f [Hs [_ [_ [Hbit _]]]]]]].
  exists s. split; [exact Hs |]. split.
  - rewrite Hbit by lia. reflexivity.
  - apply Hout. lia.
Defined.

Lemma zrange_split (pos : Z) :
  0 <= pos < 128 ->
  zrange 0 128 =
  zrange 0 (Z.to_nat pos) ++ pos :: zrange (pos + 1) (Z.to_nat (127 - pos)).
Proof.
  intros Hp.
  replace 128%nat with (Z.to_nat pos + S (Z.to_nat (127 - pos)))%nat by lia.
  rewrite zrange_app. cbn [zrange].
  replace (0 + Z.of_nat (Z.to_nat pos)) with pos by lia. reflexivity.
Qed.

(** The population count when one bit changes. *)
Lemma popcount_change (x y pos : Z) :
  0 <= pos < 128 ->
  (forall i, 0 <= i < 128 -> i <> pos -> Z.testbit y i = Z.testbit x i) ->
  popcount y =
  popcount x + Z.b2z (Z.testbit y pos) - Z.b2z (Z.testbit x pos).
Proof.
  intros Hp Hsame. unfold popcount. rewrite (zrange_split pos Hp).
  rewrite !filter_app. cbn [filter]. rewrite !length_app.
  rewrite (filter_ext_in (Z.testbit y) (Z.testbit x) (zrange 0 (Z.to_nat pos))).
  2:{ intros i Hi. apply In_zrange in Hi. apply Hsame; lia. }
  rewrite (filter_ext_in (Z.testbit y) (Z.testbit x)
                         (zrange (pos + 1) (Z.to_nat (127 - pos)))).
  2:{ intros i Hi. apply In_zrange in Hi. apply Hsame; lia. }
  destruct (Z.testbit y pos); destruct (Z.testbit x pos); cbn [length Z.b2z]; lia.
Qed.

Lemma setSquare_testbit (pos : Z) (v : bool) (x i : Z) :
  0 <= pos < 128 -> 0 <= x < 2 ^ 128 -> 0 <= i ->
  Z.testbit (Utils.setBit x pos v) i = if i =? pos then v else Z.testbit x i.
Proof.
  intros Hp Hx Hi. unfold Utils.setBit, wrap128.
  assert (Hsmall : 0 <= Z.shiftl 1 pos < 2 ^ 128).
  { rewrite Z.shiftl_1_l. split; [lia |]. apply Z.pow_lt_mono_r; lia. }
  rewrite Z.mod_small by exact Hsmall.
  destruct v.
  - rewrite Z.lor_spec, testbit_one by lia.
    destruct (i =? pos); [apply orb_true_r | apply orb_false_r].
  - rewrite Z.land_spec, Z.lxor_spec, testbit_ones128, testbit_one by lia.
    destruct (Z.eqb_spec i pos) as [-> | Hne].
    + destruct (Z.ltb_spec pos 128); [apply andb_false_r | lia].
    + destruct (Z.ltb_spec i 128).
      * cbn. apply andb_true_r.
      * rewrite (testbit_high x i Hx) by lia. reflexivity.
Qed.

Lemma setSquare_range (pos : Z) (v : bool) (x : Z) :
  0 <= pos < 128 -> 0 <= x < 2 ^ 128 -> 0 <= Utils.setBit x pos v < 2 ^ 128.
Proof.
  intros Hp Hx.
  assert (H0 : 0 <= Utils.setBit x pos v).
  { unfold Utils.setBit, wrap128.
    assert (0 <= Z.shiftl 1 pos mod 2 ^ 128) by (apply Z.mod_pos_bound; lia).
    destruct v; [apply Z.lor_nonneg | apply Z.land_nonneg]; lia. }
  apply range_of_bits; [exact H0 |].
  intros i Hi. rewrite setSquare_testbit by lia.
  destruct (Z.eqb_spec i pos); [lia | apply testbit_high; assumption].
Qed.

Lemma setSquare_popcount (pos : Z) (v : bool) (x : Z) :
  0 <= pos < 128 -> 0 <= x < 2 ^ 128 ->
  popcount (Utils.setBit x pos v) =
  popcount x + Z.b2z v - Z.b2z (Z.testbit x pos).
Proof.
  intros Hp Hx.
  rewrite (popcount_change x (Utils.setBit x pos v) pos Hp).
  - rewrite setSquare_testbit, Z.eqb_refl by lia. reflexivity.
  - intros i Hi Hne. rewrite setSquare_testbit by lia.
    destruct (Z.eqb_spec i pos); [contradiction | reflexivity].
Qed.

Lemma isOccupied_debug_ok (pos : Z) (b : t) (occ : bool) :
  isOccupied Debug pos b = Ok occ ->
  0 <= pos < 128 /\ occ = Z.testbit (bits b) pos.
Proof.
  unfold isOccupied, Utils.isInRange, Utils.getBit.
  destruct (Z.leb_spec 0 pos); destruct (Z.leb_spec pos 127); cbn [andb negb];
    intros Heq; try discriminate.
  injection Heq as <-. split; [lia | reflexivity].
Qed.

Ltac bind_ok H x Hx :=
  match type of H with
  | bind ?c _ = Ok _ =>
      destruct c as [x | |] eqn:Hx; cbn [bind] in H; try discriminate H
  end.

(** In a debug build [placePiece] and [removePiece], whenever they return,
    keep [numPieces] equal to the population count: the count goes up, or
    down, by one together with the bit of the square. *)
Theorem debug_keeps_count (pos : Z) (b b' : t) :
  0 <= bits b < 2 ^ 128 ->
  numPieces b = popcount (bits b) ->
  (placePiece Debug pos b = Ok b' ->
   numPieces b' = popcount (bits b') /\ numPieces b' = numPieces b + 1 /\
   Z.testbit (bits b) pos = false /\ Z.testbit (bits b') pos = true /\
   0 <= bits b' < 2 ^ 128) /\
  (removePiece Debug pos b = Ok b' ->
   numPieces b' = popcount (bits b') /\ numPieces b' = numPieces b - 1 /\
   Z.testbit (bits b) pos = true /\ Z.testbit (bits b') pos = false /\
   0 <= bits b' < 2 ^ 128).
Proof.
  intros Hb Hsync. split; intros H.
  - unfold placePiece in H. bind_ok H occ Hocc.
    apply isOccupied_debug_ok in Hocc. destruct Hocc as [Hp ->].
    destruct (Z.testbit (bits b) pos) eqn:Hbit; [discriminate |].
    bind_ok H os Hos. bind_ok H ros Hros. injection H as <-.
    cbn [setSquare bits numPieces].
    rewrite setSquare_popcount, setSquare_testbit, Z.eqb_refl, Hbit by lia.
    cbn [Z.b2z]. repeat split; try lia; apply setSquare_range; assumption.
  - unfold removePiece in H. bind_ok H occ Hocc.
    apply isOccupied_debug_ok in Hocc. destruct Hocc as [Hp ->].
    destruct (Z.testbit (bits b) pos) eqn:Hbit; cbn [negb] in H; [| discriminate].
    destruct (Utils.isOnBoard pos); cbn [negb] in H; [| discriminate].
    bind_ok H pieceIndex H1. bind_ok H lastSq H2. bind_ok H os H3.
    bind_ok H moved H4. bind_ok H ros H5. bind_ok H ros' H6.
    injection H as <-. cbn [setSquare bits numPieces].
    rewrite setSquare_popcount, setSquare_testbit, Z.eqb_refl, Hbit by lia.
    cbn [Z.b2z]. repeat split; try lia; apply setSquare_range; assumption.
Qed.

Lemma debug_keeps_count_witness :
  let b := Bitboard.mk 0x10 (4 :: repeat (-1) 11) (repeat 0 120) 1 in
  exists b', placePiece Debug 5 b = Ok b' /\ numPieces b' = popcount (bits b').
Proof.
  intros b.
  assert (Hplace : exists b', placePiece Debug 5 b = Ok b')
    by (eexists; vm_compute; reflexivity).
  destruct Hplace as [b' Hb']. exists b'. split; [exact Hb' |].
  assert (Hb : 0 <= bits b < 2 ^ 128) by (unfold b; cbn [bits]; lia).
  assert (Hsync : numPieces b = popcount (bits b)) by (vm_compute; reflexivity).
  destruct (debug_keeps_count 5 b b' Hb Hsync) as [Hplace _].
  apply Hplace, Hb'.
Defined.

Lemma clearBit_ok (pos : Z) (b : t) :
  0 <= pos < 128 -> 0 <= bits b < 2 ^ 128 ->
  exists c, clearBit pos b = Ok c /\
            bits c = Utils.setBit (bits b) pos false /\
            occupiedSquares c = occupiedSquares b /\
            reverseOccupiedSquares c = reverseOccupiedSquares b /\
            numPieces c = numPieces b.
Proof.
  intros Hp Hb. unfold clearBit. rewrite (shiftOne_ok pos Hp). cbn [bind].
  eexists. split; [reflexivity |].
  cbn [bits withBits occupiedSquares reverseOccupiedSquares numPieces].
  split; [| split; [exact eq_refl | split; exact eq_refl]].
  unfold Utils.setBit, wrap128. rewrite Z.mod_small; [exact eq_refl |].
  rewrite Z.shiftl_1_l. split; [lia |]. apply Z.pow_lt_mono_r; lia.
Qed.

Lemma setBit_ok (pos : Z) (b : t) :
  0 <= pos < 128 ->
  exists s, setBit pos b = Ok s /\
            bits s = Utils.setBit (bits b) pos true /\
            occupiedSquares s = occupiedSquares b /\
            reverseOccupiedSquares s = reverseOccupiedSquares b /\
            numPieces s = numPieces b.
Proof.
  intros Hp. unfold setBit. rewrite (shiftOne_ok pos Hp). cbn [bind].
  eexists. split; [reflexivity |].
  cbn [bits withBits occupiedSquares reverseOccupiedSquares numPieces].
  split; [| split; [exact eq_refl | split; exact eq_refl]].
  unfold Utils.setBit, wrap128. rewrite Z.mod_small; [exact eq_refl |].
  rewrite Z.shiftl_1_l. split; [lia |]. apply Z.pow_lt_mono_r; lia.
Qed.

(** [applyMove] on a bitboard, release build: the start bit is cleared and
    then the end bit set, every other bit kept. The population count is
    kept when the piece moves from an occupied to a free square, and drops
    by one when the destination already held a piece of this bitboard. A
    debug build throws when the start square is empty. *)
Theorem applyMove_bits (startPos endPos : Z) (b : t) :
  0 <= bits b < 2 ^ 128 -> 0 <= startPos < 128 -> 0 <= endPos < 128 ->
  (exists b',
     applyMove Release startPos endPos b = Ok b' /\
     (forall i, 0 <= i ->
        Z.testbit (bits b') i =
        (i =? endPos) || (negb (i =? startPos) && Z.testbit (bits b) i)) /\
     (Z.testbit (bits b) startPos = true -> startPos <> endPos ->
      popcount (bits b') =
      popcount (bits b) - Z.b2z (Z.testbit (bits b) endPos))) /\
  (Z.testbit (bits b) startPos = false ->
   applyMove Debug startPos endPos b =
   Throw (runtime_error "Tried to make move starting on an empty square.")).
Proof.
  intros Hb Hs He. split.
  - destruct (clearBit_ok startPos b Hs Hb) as [c [Hc [Hcb _]]].
    destruct (setBit_ok endPos c He) as [s [Hset [Hsb _]]].
    exists s. unfold applyMove. cbn [bind]. rewrite Hc. cbn [bind].
    rewrite Hset. cbn [bind]. split; [reflexivity |].
    assert (Hcr : 0 <= bits c < 2 ^ 128)
      by (rewrite Hcb; apply setSquare_range; assumption).
    split.
    + intros i Hi. rewrite Hsb, setSquare_testbit by lia.
      rewrite Hcb, setSquare_testbit by lia.
      destruct (i =? endPos); destruct (i =? startPos); reflexivity.
    + intros Hocc Hne.
      rewrite Hsb, setSquare_popcount by assumption.
      rewrite Hcb, setSquare_popcount, setSquare_testbit by lia.
      rewrite Hocc. destruct (Z.eqb_spec endPos startPos); [lia |].
      cbn [Z.b2z]. lia.
  - intros Hfree. unfold applyMove, isOccupied, Utils.isInRange, Utils.getBit.
    destruct (Z.leb_spec 0 startPos); destruct (Z.leb_spec startPos 127);
      try lia. cbn [andb negb bind]. rewrite Hfree. reflexivity.
Qed.

Lemma applyMove_bits_witness :
  let b := Bitboard.mk 0x30 [] [] 0 in
  exists b', applyMove Release 4 5 b = Ok b' /\ bits b' = 0x20 /\
             popcount (bits b') = popcount (bits b) - 1.
Proof.
  intros b.
  assert (Hb : 0 <= bits b < 2 ^ 128) by (unfold b; cbn [bits]; lia).
  destruct (applyMove_bits 4 5 b Hb ltac:(lia) ltac:(lia))
    as [[b' [Happ [_ Hcount]]] _].
  exists b'. split; [exact Happ |]. split.
  - assert (H : applyMove Release 4 5 b = Ok (Bitboard.mk 0x20 [] [] 0))
      by (vm_compute; reflexivity).
    rewrite H in Happ. injection Happ as <-. reflexivity.
  - rewrite Hcount; [reflexivity | reflexivity | lia].
Defined.

(** *** getBoard8x8 *)

Lemma testbit_wrap64 (x i : Z) :
  0 <= i -> Z.testbit (wrap64 x) i = (i <? 64) && Z.testbit x i.
Proof.
  intros Hi. unfold wrap64.
  destruct (Z.ltb_spec i 64).
  - rewrite Z.mod_pow2_bits_low by lia. reflexivity.
  - rewrite Z.mod_pow2_bits_high by lia. reflexivity.
Qed.

Lemma getBoard8x8_rounds (x : Z) (n : nat) :
  forall (lo board : Z),
    0 <= lo -> lo + Z.of_nat n <= 64 ->
    0 <= board < 2 ^ 128 ->
    (forall j, 0 <= j -> Z.testbit board j = (j <? lo) && Z.testbit x j) ->
    let final :=
      fold_left (fun board i => wrap64 (Utils.setBit board i (Utils.getBit x i)))
                (zrange lo n) board in
    0 <= final < 2 ^ 128 /\
    forall j, 0 <= j -> Z.testbit final j = (j <? lo + Z.of_nat n) && Z.testbit x j.
Proof.
  induction n as [| n IH]; intros lo board Hlo Hhi Hb Hinv; cbn [zrange fold_left].
  - cbv zeta. split; [exact Hb |]. intros j Hj. rewrite Hinv by exact Hj.
    replace (lo + Z.of_nat 0) with lo by lia. reflexivity.
  - set (next := wrap64 (Utils.setBit board lo (Utils.getBit x lo))).
    assert (Hnext : forall j, 0 <= j ->
              Z.testbit next j = (j <? lo + 1) && Z.testbit x j).
    { intros j Hj. unfold next. rewrite testbit_wrap64 by exact Hj.
      rewrite setSquare_testbit by lia. rewrite Hinv by exact Hj.
      unfold Utils.getBit.
      destruct (Z.eqb_spec j lo) as [-> | Hne].
      - destruct (Z.ltb_spec lo 64); destruct (Z.ltb_spec lo (lo + 1)); try lia.
        reflexivity.
      - destruct (Z.ltb_spec j 64); destruct (Z.ltb_spec j lo);
          destruct (Z.ltb_spec j (lo + 1)); try lia; reflexivity. }
    assert (Hnr : 0 <= next < 2 ^ 128).
    { unfold next, wrap64.
      pose proof (Z.mod_pos_bound (Utils.setBit board lo (Utils.getBit x lo))
                                  (2 ^ 64) ltac:(lia)). lia. }
    specialize (IH (lo + 1) next ltac:(lia) ltac:(lia) Hnr Hnext).
    cbv zeta in IH. destruct IH as [Hr Hbits]. split; [exact Hr |].
    intros j Hj. rewrite Hbits by exact Hj.
    replace (lo + 1 + Z.of_nat n) with (lo + Z.of_nat (S n)) by lia. reflexivity.
Qed.

(** [getBoard8x8] returns the low 64 bits of the word, whatever stands in
    the upper half. *)
Theorem getBoard8x8_low_bits (b : t) : getBoard8x8 b = bits b mod 2 ^ 64.
Proof.
  unfold getBoard8x8.
  destruct (getBoard8x8_rounds (bits b) 64 0 0 ltac:(lia) ltac:(simpl; lia)
                               ltac:(lia)) as [_ Hbits].
  { intros j Hj. rewrite Z.bits_0. destruct (Z.ltb_spec j 0); [lia | reflexivity]. }
  apply Z.bits_inj'. intros j Hj. rewrite Hbits by exact Hj.
  fold (wrap64 (bits b)). rewrite testbit_wrap64 by exact Hj. reflexivity.
Qed.

(** *** Counting the pieces *)

(** [getNumPieces] and [getPieces] agree: for a bitboard within its
    capacity whose set bits lie in 0..63, the empty one included,
    [getPieces] writes exactly [getNumPieces()] entries; an empty
    bitboard yields none. In a debug build both throw as soon as
    [numPieces] differs from the population count. *)
Theorem pieces_counted (build : BuildType) (N : nat) (b : t) :
  (0 <= bits b < 2 ^ 64 ->
   popcount (bits b) <= Z.of_nat N ->
   (build = Debug -> numPieces b = popcount (bits b)) ->
   exists l,
     getPieces build N b = Ok l /\
     getNumPieces build b = Ok (Z.of_nat (length l)) /\
     (bits b = 0 -> l = [])) /\
  (numPieces b <> popcount (bits b) ->
   getPieces Debug N b =
   Throw (runtime_error "Desync between bitboard and numPieces detected.") /\
   getNumPieces Debug b =
   Throw (runtime_error "Desync between bitboard and numPieces detected.")).
Proof.
  split.
  - intros Hb Hcap Hsync. exists (occupied (bits b)).
    assert (Hguard : match build with
                     | Debug => negb (popcount (bits b) =? numPieces b)
                     | Release => false
                     end = false).
    { destruct build; [| reflexivity].
      rewrite (Hsync eq_refl), Z.eqb_refl. reflexivity. }
    pose proof (popcount_occupied (bits b) Hb) as Hpop.
    split; [| split].
    + unfold getPieces. cbv zeta. rewrite Hguard, scan_occupied by exact Hb.
      destruct (Nat.leb_spec (length (occupied (bits b))) N); [reflexivity | lia].
    + unfold getNumPieces. destruct build; [| rewrite Hpop; reflexivity].
      rewrite Hguard, Hpop. reflexivity.
    + intros ->. reflexivity.
  - intros Hne. unfold getPieces, getNumPieces. cbv zeta.
    destruct (Z.eqb_spec (popcount (bits b)) (numPieces b)); [congruence |].
    split; reflexivity.
Qed.

Lemma pieces_counted_witness :
  let b := Bitboard.mk 0x8030 (4 :: 5 :: 15 :: repeat (-1) 9) (repeat 0 120) 3 in
  let desynced :=
    Bitboard.mk 0x8030 (4 :: 5 :: 15 :: repeat (-1) 9) (repeat 0 120) 2 in
  (exists l,
     getPieces Debug 3 b = Ok l /\
     getNumPieces Debug b = Ok (Z.of_nat (length l)) /\
     l = [4; 5; 15]) /\
  getPieces Debug 3 desynced =
  Throw (runtime_error "Desync between bitboard and numPieces detected.") /\
  getNumPieces Debug desynced =
  Throw (runtime_error "Desync between bitboard and numPieces detected.").
Proof.
  intros b desynced. split.
  - destruct (pieces_counted Debug 3 b) as [Hok _].
    destruct Hok as [l [Hp [Hn _]]].
    + unfold b. cbn [bits]. lia.
    + vm_compute. discriminate.
    + intros _. vm_compute. reflexivity.
    + exists l. split; [exact Hp |]. split; [exact Hn |].
      assert (Hval : getPieces Debug 3 b = Ok [4; 5; 15])
        by (vm_compute; reflexivity).
      rewrite Hval in Hp. injection Hp as <-. reflexivity.
  - destruct (pieces_counted Debug 3 desynced) as [_ Hthrow].
    apply Hthrow. vm_compute. discriminate.
Defined.

(** *** Placing, asking and removing *)

(** Release build: after [placePiece] the square is occupied and after
    [removePiece] it is free, the answer of [isOccupied] for every other
    square is the one given before, and removing a piece just placed on a
    free square gives back the bits the bitboard had. *)
Theorem place_ask_remove (pos : Z) (b : t) :
  0 <= bits b < 2 ^ 128 -> 0 <= pos < 128 ->
  exists p r,
    placePiece Release pos b = Ok p /\
    removePiece Release pos p = Ok r /\
    isOccupied Release pos p = Ok true /\
    isOccupied Release pos r = Ok false /\
    (forall q, 0 <= q -> q <> pos ->
       isOccupied Release q p = isOccupied Release q b /\
       isOccupied Release q r = isOccupied Release q b) /\
    (Z.testbit (bits b) pos = false -> bits r = bits b).
Proof.
  intros Hb Hp.
  exists (setSquare pos true b), (setSquare pos false (setSquare pos true b)).
  pose proof (setSquare_range pos true (bits b) Hp Hb) as Hpr.
  split; [reflexivity |]. split; [reflexivity |].
  unfold isOccupied, Utils.getBit, setSquare. cbn [bits].
  split; [| split; [| split]].
  - rewrite setSquare_testbit by lia. rewrite Z.eqb_refl. reflexivity.
  - rewrite setSquare_testbit by lia. rewrite Z.eqb_refl. reflexivity.
  - intros q Hq Hne.
    rewrite (setSquare_testbit pos false) by lia.
    rewrite (setSquare_testbit pos true) by lia.
    destruct (Z.eqb_spec q pos); [contradiction |]. split; reflexivity.
  - intros Hfree. apply Z.bits_inj'. intros i Hi.
    rewrite (setSquare_testbit pos false) by lia.
    rewrite (setSquare_testbit pos true) by lia.
    destruct (Z.eqb_spec i pos) as [-> | _]; [symmetry; exact Hfree | reflexivity].
Qed.

Lemma place_ask_remove_witness :
  let b := Bitboard.mk 0x10 [] [] 0 in
  exists p r,
    placePiece Release 5 b = Ok p /\ removePiece Release 5 p = Ok r /\
    isOccupied Release 5 p = Ok true /\ bits r = 0x10.
Proof.
  intros b.
  destruct (place_ask_remove 5 b) as [p [r [Hp [Hr [Ho [_ [_ Hback]]]]]]].
  - unfold b. cbn [bits]. lia.
  - lia.
  - exists p, r. split; [exact Hp |]. split; [exact Hr |]. split; [exact Ho |].
    apply Hback. reflexivity.
Defined.

End BitboardOpsFacts.

(** ** Shape of the obstruction table *)

Module TableShape.
Import Bitboard Thera Geometry Checks.

Lemma shapeChecks_true :
  forallb (fun a =>
     forallb (fun b =>
        (obstructedAt a b =? obstructedAt b a)
        && negb (Z.testbit (obstructedAt a b) a)
        && negb (Z.testbit (obstructedAt a b) b)
        && (popcount (obstructedAt a b) <=? 6))
       (zrange 0 64))
    (zrange 0 64) = true.
Proof. vm_compute. reflexivity. Qed.

(** The obstruction table is symmetric, as is the function that fills it;
    an entry never holds either of its two squares, and holds at most six
    squares. *)
Theorem obstructedLUT_symmetric (a b : Z) :
  0 <= a < 64 -> 0 <= b < 64 ->
  obstructedAt a b = obstructedAt b a /\
  singleEvaluation a b = singleEvaluation b a /\
  Z.testbit (obstructedAt a b) a = false /\
  Z.testbit (obstructedAt a b) b = false /\
  popcount (obstructedAt a b) <= 6.
Proof.
  intros Ha Hb.
  pose proof (TableFacts.forallb_zrange _ 64 0 a shapeChecks_true Ha) as H.
  cbv beta in H.
  pose proof (TableFacts.forallb_zrange _ 64 0 b H Hb) as H'.
  cbv beta in H'.
  apply andb_prop in H'. destruct H' as [H' Hcount].
  apply andb_prop in H'. destruct H' as [H' Hb'].
  apply andb_prop in H'. destruct H' as [Hsym Ha'].
  apply Z.eqb_eq in Hsym. apply Z.leb_le in Hcount.
  apply negb_true_iff in Ha'. apply negb_true_iff in Hb'.
  split; [exact Hsym |]. split; [| auto].
  pose proof (TableFacts.entryChecks_true a b Ha Hb) as E1.
  pose proof (TableFacts.entryChecks_true b a Hb Ha) as E2.
  unfold entryChecks in E1, E2. cbv zeta in E1, E2.
  apply andb_prop in E1. destruct E1 as [_ E1].
  apply andb_prop in E2. destruct E2 as [_ E2].
  apply Z.eqb_eq in E1. apply Z.eqb_eq in E2.
  rewrite <- E1, <- E2. exact Hsym.
Qed.

Lemma obstructedLUT_symmetric_witness :
  obstructedAt 63 0 = obstructedAt 0 63 /\ popcount (obstructedAt 0 63) <= 6.
Proof.
  destruct (obstructedLUT_symmetric 63 0) as [Hsym _]; [lia | lia |].
  destruct (obstructedLUT_symmetric 0 63) as [_ [_ [_ [_ Hcount]]]]; [lia | lia |].
  split; assumption.
Defined.

End TableShape.

(** ** The debug count across a move on the bitboard *)

Module BitboardMoveFacts.
Import Bitboard BitboardOps BitboardFacts BitboardOpsFacts.

Lemma setBit_range (pos : Z) (b s : t) : setBit pos b = Ok s -> 0 <= pos < 128.
Proof.
  unfold setBit, shiftOne.
  destruct (Z.leb_spec 0 pos); destruct (Z.ltb_spec pos 128); cbn [andb bind];
    intros Heq; try discriminate Heq. lia.
Qed.

(** Debug build: [applyMove] never touches [numPieces]. When it returns,
    the start square held a piece; the count stays equal to the population
    count if the end square was free (or is the start square), and
    otherwise the population count has dropped by one below [numPieces], so
    that the next [getNumPieces] throws. *)
Theorem applyMove_debug_count (startPos endPos : Z) (b b' : t) :
  0 <= bits b < 2 ^ 128 ->
  numPieces b = popcount (bits b) ->
  applyMove Debug startPos endPos b = Ok b' ->
  Z.testbit (bits b) startPos = true /\
  numPieces b' = numPieces b /\
  (startPos = endPos \/ Z.testbit (bits b) endPos = false ->
   getNumPieces Debug b' = Ok (numPieces b)) /\
  (startPos <> endPos -> Z.testbit (bits b) endPos = true ->
   popcount (bits b') = numPieces b' - 1 /\
   getNumPieces Debug b' =
   Throw (runtime_error "Desync between bitboard and numPieces detected.")).
Proof.
  intros Hb Hsync H. unfold applyMove in H.
  bind_ok H checked Hchecked.
  bind_ok Hchecked occ Hocc.
  apply isOccupied_debug_ok in Hocc. destruct Hocc as [Hs ->].
  destruct (Z.testbit (bits b) startPos) eqn:Hstart; cbn [negb] in Hchecked;
    [| discriminate].
  clear Hchecked checked.
  bind_ok H b1 Hb1. bind_ok H b2 Hb2.
  pose proof (setBit_range endPos b1 b2 Hb2) as He.
  destruct (clearBit_ok startPos b Hs Hb) as [c [Hc [Hcb [_ [_ Hcn]]]]].
  rewrite Hc in Hb1. injection Hb1 as <-.
  destruct (setBit_ok endPos c He) as [s [Hset [Hsb [_ [_ Hsn]]]]].
  rewrite Hset in Hb2. injection Hb2 as <-.
  bind_ok H pieceIndex Hpi. bind_ok H ros Hros. bind_ok H ros' Hros'.
  bind_ok H os Hos. injection H as <-. cbn [bits numPieces].
  assert (Hcr : 0 <= bits c < 2 ^ 128)
    by (rewrite Hcb; apply setSquare_range; assumption).
  assert (Hpop : popcount (bits s) =
                 popcount (bits b) -
                 (if endPos =? startPos then 0
                  else Z.b2z (Z.testbit (bits b) endPos))).
  { rewrite Hsb, setSquare_popcount by assumption.
    rewrite Hcb, setSquare_popcount, setSquare_testbit by lia.
    rewrite Hstart. destruct (endPos =? startPos); cbn [Z.b2z]; lia. }
  split; [reflexivity |]. split; [lia |]. unfold getNumPieces. cbn [bits numPieces].
  split.
  - intros Hfree.
    assert (Hsame : popcount (bits s) = numPieces s).
    { rewrite Hpop, Hsn, Hcn, Hsync.
      destruct (Z.eqb_spec endPos startPos); [lia |].
      destruct Hfree as [Heq | ->]; [congruence | cbn [Z.b2z]; lia]. }
    rewrite Hsame, Z.eqb_refl. cbn [negb]. f_equal. lia.
  - intros Hne Hcapt.
    assert (Hless : popcount (bits s) = numPieces s - 1).
    { rewrite Hpop, Hsn, Hcn, Hsync, Hcapt.
      destruct (Z.eqb_spec endPos startPos); [congruence |]. cbn [Z.b2z]. lia. }
    split; [exact Hless |].
    destruct (Z.eqb_spec (popcount (bits s)) (numPieces s)); [lia |]. reflexivity.
Qed.

Lemma applyMove_debug_count_witness :
  let b := Bitboard.mk 0x30 (4 :: 5 :: repeat (-1) 10)
                       (repeat (-1) 4 ++ 0 :: 1 :: repeat (-1) 114) 2 in
  exists b',
    applyMove Debug 4 5 b = Ok b' /\
    getNumPieces Debug b' =
    Throw (runtime_error "Desync between bitboard and numPieces detected.").
Proof.
  intros b.
  assert (Hmove : exists b', applyMove Debug 4 5 b = Ok b')
    by (eexists; vm_compute; reflexivity).
  destruct Hmove as [b' Hb']. exists b'. split; [exact Hb' |].
  destruct (applyMove_debug_count 4 5 b b') as [_ [_ [_ Hthrow]]].
  - unfold b. cbn [bits]. lia.
  - vm_compute. reflexivity.
  - exact Hb'.
  - apply Hthrow; [lia | reflexivity].
Defined.

End BitboardMoveFacts.

(** ** No move is generated twice *)

Module DuplicateFacts.
Import Board MoveGenerator Buffer Sliding Stepping Targets.
Import GeneratorFacts SlidingFacts EmittedFacts MoveFacts.

Lemma NoDup_app_parts {A : Type} (l1 l2 : list A) :
  NoDup (l1 ++ l2) ->
  NoDup l1 /\ NoDup l2 /\ forall a, In a l1 -> In a l2 -> False.
Proof.
  induction l1 as [| x l1 IH]; cbn [app]; intros H.
  - split; [constructor |]. split; [exact H |]. intros a [].
  - apply NoDup_cons_iff in H. destruct H as [Hx H].
    destruct (IH H) as [H1 [H2 Hd]].
    split; [| split; [exact H2 |]].
    + constructor; [| exact H1]. intros Hin. apply Hx, in_or_app. left. exact Hin.
    + intros a [<- | Ha] Ha2.
      * apply Hx, in_or_app. right. exact Ha2.
      * exact (Hd a Ha Ha2).
Qed.

Lemma NoDup_firstn {A : Type} (n : nat) (l : list A) :
  NoDup l -> NoDup (firstn n l).
Proof.
  revert n. induction l as [| a l IH]; intros [| n] Hl; cbn [firstn];
    try constructor.
  - apply NoDup_cons_iff in Hl. destruct Hl as [Ha _].
    intros Hin. apply Ha. exact (In_prefix n l a Hin).
  - apply IH. apply NoDup_cons_iff in Hl. apply Hl.
Qed.

Section Lists.
Context {A B : Type}.

Lemma NoDup_flat_map_parts (f : A -> list B) (l : list A) :
  NoDup (flat_map f l) ->
  (forall x, In x l -> NoDup (f x)) /\
  (forall x y m, In x l -> In y l -> x <> y -> In m (f x) -> In m (f y) -> False).
Proof.
  induction l as [| a l IH]; cbn [flat_map]; intros H.
  - split; [intros x [] | intros x y m []].
  - apply NoDup_app_parts in H. destruct H as [Ha [Hl Hd]].
    destruct (IH Hl) as [IH1 IH2]. split.
    + intros x [<- | Hx]; [exact Ha | exact (IH1 x Hx)].
    + intros x y m [<- | Hx] [<- | Hy] Hne Hmx Hmy.
      * congruence.
      * apply (Hd m Hmx). apply in_flat_map. exists y. split; assumption.
      * apply (Hd m Hmy). apply in_flat_map. exists x. split; assumption.
      * exact (IH2 x y m Hx Hy Hne Hmx Hmy).
Qed.

Lemma NoDup_flat_map (f : A -> list B) (l : list A) :
  NoDup l ->
  (forall x, In x l -> NoDup (f x)) ->
  (forall x y m, In x l -> In y l -> x <> y -> In m (f x) -> In m (f y) -> False) ->
  NoDup (flat_map f l).
Proof.
  induction l as [| a l IH]; cbn [flat_map]; intros Hl Hf Hd; [constructor |].
  apply NoDup_cons_iff in Hl. destruct Hl as [Ha Hl].
  apply NoDup_app.
  - apply Hf. left. reflexivity.
  - apply IH; [exact Hl | |].
    + intros x Hx. apply Hf. right. exact Hx.
    + intros x y m Hx Hy. apply Hd; right; assumption.
  - intros m Hm Hm'. apply in_flat_map in Hm'. destruct Hm' as [y [Hy Hmy]].
    apply (Hd a y m); [left; reflexivity | right; exact Hy | | exact Hm | exact Hmy].
    intros <-. exact (Ha Hy).
Qed.

Lemma NoDup_map_on (f : A -> B) (l : list A) :
  (forall x y, In x l -> In y l -> f x = f y -> x = y) ->
  NoDup l -> NoDup (map f l).
Proof.
  induction l as [| a l IH]; cbn [map]; intros Hinj Hl; [constructor |].
  apply NoDup_cons_iff in Hl. destruct Hl as [Ha Hl]. constructor.
  - intros Hin. apply in_map_iff in Hin. destruct Hin as [x [Hx Hxl]].
    apply Ha. rewrite <- (Hinj x a); [exact Hxl | right; exact Hxl
                                    | left; reflexivity | exact Hx].
  - apply IH; [| exact Hl]. intros x y Hx Hy. apply Hinj; right; assumption.
Qed.

End Lists.

Lemma distinct_NoDup (l : list Z) : distinct l = true -> NoDup l.
Proof.
  induction l as [| x l IH]; cbn [distinct]; intros H; [constructor |].
  apply andb_prop in H. destruct H as [Hx Hl]. constructor; [| exact (IH Hl)].
  intros Hin. apply negb_true_iff in Hx.
  assert (Hex : existsb (Z.eqb x) l = true).
  { apply existsb_exists. exists x. split; [exact Hin | apply Z.eqb_refl]. }
  congruence.
Qed.

Lemma sorted_NoDup (l : list Z) : StronglySorted Z.lt l -> NoDup l.
Proof.
  induction 1 as [| x l Hs IH Hall]; constructor; [| exact IH].
  intros Hin. rewrite Forall_forall in Hall. specialize (Hall x Hin). lia.
Qed.

Lemma zrange_NoDup (lo : Z) (n : nat) : NoDup (zrange lo n).
Proof. apply sorted_NoDup, BitboardFacts.zrange_sorted. Qed.

Lemma piecesOf_NoDup (bb : Bitboard.t) : NoDup (piecesOf bb).
Proof.
  unfold piecesOf, getPieces8x8, Bitboard.occupied.
  apply NoDup_firstn, NoDup_filter, zrange_NoDup.
Qed.

Lemma targetChecks_true : forallb targetChecks (zrange 0 64) = true.
Proof. vm_compute. reflexivity. Qed.

Lemma targets_distinct (square : Z) :
  0 <= square < 64 ->
  NoDup (rayTargets square) /\
  NoDup (stepTargets square 0 8) /\ NoDup (stepTargets square 8 8) /\
  NoDup (pawnTargets square (-10)) /\ NoDup (pawnTargets square 10) /\
  to10x12Coords (applyOffset square 2) <> to10x12Coords (applyOffset square (-2)).
Proof.
  intros Hsq.
  pose proof (TableFacts.forallb_zrange targetChecks 64 0 square
                targetChecks_true Hsq) as H.
  unfold targetChecks in H.
  apply andb_prop in H. destruct H as [H H6].
  apply andb_prop in H. destruct H as [H H5].
  apply andb_prop in H. destruct H as [H H4].
  apply andb_prop in H. destruct H as [H H3].
  apply andb_prop in H. destruct H as [H1 H2].
  repeat split; try (apply distinct_NoDup; assumption).
  apply negb_true_iff, Z.eqb_neq in H6. exact H6.
Qed.

Lemma to10x12Coords_apart (a c : Z) : to10x12Coords a = to10x12Coords c -> a = c.
Proof.
  unfold to10x12Coords. intros H.
  pose proof (Z.div_mod a 8 ltac:(lia)). pose proof (Z.div_mod c 8 ltac:(lia)).
  pose proof (Z.mod_pos_bound a 8 ltac:(lia)).
  pose proof (Z.mod_pos_bound c 8 ltac:(lia)). lia.
Qed.

Lemma moveTo_apart (square a c : Z) : moveTo square a = moveTo square c -> a = c.
Proof.
  unfold moveTo, newMove. intros H. injection H as H.
  apply to10x12Coords_apart, H.
Qed.

Lemma reached_In (b : Board.t) (r : list Z) (t : Z) :
  In t (reached b r) -> In t r.
Proof.
  induction r as [| p r IH]; cbn [reached]; [intros [] |].
  destruct (isNone (at_ b p)).
  - intros [<- | H]; [left; reflexivity | right; exact (IH H)].
  - destruct (isOpponent b (at_ b p)); [| intros []].
    intros [<- | []]. left. reflexivity.
Qed.

Lemma reached_NoDup (b : Board.t) (r : list Z) : NoDup r -> NoDup (reached b r).
Proof.
  induction r as [| p r IH]; cbn [reached]; intros H; [constructor |].
  apply NoDup_cons_iff in H. destruct H as [Hp Hr].
  destruct (isNone (at_ b p)).
  - constructor; [| exact (IH Hr)]. intros Hin. exact (Hp (reached_In b r p Hin)).
  - destruct (isOpponent b (at_ b p)); [| constructor].
    constructor; [intros [] | constructor].
Qed.

(** *** The moves of one square *)

Lemma slidingMoves_NoDup (b : Board.t) (square : Z) :
  0 <= square < 64 -> NoDup (slidingMovesOf b square).
Proof.
  intros Hsq. unfold slidingMovesOf.
  destruct (negb _); [constructor |].
  destruct (targets_distinct square Hsq) as [Hrays _].
  apply NoDup_flat_map_parts in Hrays. destruct Hrays as [Hray Hapart].
  apply NoDup_flat_map.
  - destruct (getType (at_ b square)); apply distinct_NoDup; vm_compute;
      reflexivity.
  - intros d Hd. unfold rayMoves. apply NoDup_map_on.
    + intros x y _ _. apply moveTo_apart.
    + apply reached_NoDup, Hray, (directionsOf_sliding _ d Hd).
  - intros d1 d2 m Hd1 Hd2 Hne H1 H2. unfold rayMoves in H1, H2.
    apply in_map_iff in H1. destruct H1 as [t1 [<- Ht1]].
    apply in_map_iff in H2. destruct H2 as [t2 [Heq Ht2]].
    apply moveTo_apart in Heq. subst t2.
    apply (Hapart d1 d2 t1);
      [exact (directionsOf_sliding _ d1 Hd1) | exact (directionsOf_sliding _ d2 Hd2)
      | exact Hne | exact (reached_In b _ _ Ht1) | exact (reached_In b _ _ Ht2)].
Qed.

Lemma step_target (b : Board.t) (square i : Z) (m : Move) :
  In m (stepMovesOf b square (nth (Z.to_nat i) kingKnightOffsets 0)) ->
  exists t, m = moveTo square t /\ In t (stepTarget square i).
Proof.
  unfold stepMovesOf, stepTarget. cbv zeta.
  destruct (isOnBoard8x8 _ _); [| intros []].
  destruct (_ || _); [| intros []].
  intros [<- | []]. eexists. split; [reflexivity | left; reflexivity].
Qed.

Lemma offsetMoves_NoDup (b : Board.t) (square lo hi : Z) :
  0 <= square < 64 -> (lo, hi) = (0, 8) \/ (lo, hi) = (8, 16) ->
  NoDup (offsetMovesOf b square lo hi).
Proof.
  intros Hsq Hlo. unfold offsetMovesOf.
  assert (Htargets : NoDup (stepTargets square lo 8) /\ Z.to_nat (hi - lo) = 8%nat).
  { destruct (targets_distinct square Hsq) as [_ [H0 [H8 _]]].
    destruct Hlo as [Heq | Heq]; injection Heq as -> ->; split;
      first [assumption | reflexivity]. }
  destruct Htargets as [Htargets ->].
  apply NoDup_flat_map_parts in Htargets. destruct Htargets as [_ Hapart].
  apply NoDup_flat_map.
  - apply zrange_NoDup.
  - intros i _. unfold stepMovesOf.
    destruct (isOnBoard8x8 _ _); [| constructor].
    destruct (_ || _); [| constructor].
    constructor; [intros [] | constructor].
  - intros i j m Hi Hj Hne H1 H2.
    apply step_target in H1. destruct H1 as [t1 [-> Ht1]].
    apply step_target in H2. destruct H2 as [t2 [Heq Ht2]].
    apply moveTo_apart in Heq. subst t2.
    exact (Hapart i j t1 Hi Hj Hne Ht1 Ht2).
Qed.

Lemma offsetMoves_plain (b : Board.t) (square lo hi : Z) (m : Move) :
  In m (offsetMovesOf b square lo hi) ->
  exists t, m = moveTo square t.
Proof.
  unfold offsetMovesOf. intros H. apply in_flat_map in H.
  destruct H as [i [_ H]]. apply step_target in H.
  destruct H as [t [-> _]]. exists t. reflexivity.
Qed.

Lemma castlingMoves_NoDup (b : Board.t) (square : Z) :
  0 <= square < 64 -> NoDup (castlingMovesOf b square).
Proof.
  intros Hsq. unfold castlingMovesOf.
  destruct (targets_distinct square Hsq) as [_ [_ [_ [_ [_ Hends]]]]].
  destruct (mayCastleRight b square); destruct (mayCastleLeft b square);
    cbn [app]; repeat constructor; cbn [In]; try tauto.
  intros [Heq | []]. unfold castlingMove in Heq. injection Heq as Heq _.
  congruence.
Qed.

Lemma kingKnightMoves_NoDup (b : Board.t) (square : Z) :
  0 <= square < 64 -> NoDup (kingKnightMovesOf b square).
Proof.
  intros Hsq. unfold kingKnightMovesOf.
  destruct (negb _); [constructor |].
  destruct (getType (at_ b square)); try constructor.
  - apply offsetMoves_NoDup; [exact Hsq | right; reflexivity].
  - apply NoDup_app.
    + apply offsetMoves_NoDup; [exact Hsq | left; reflexivity].
    + apply castlingMoves_NoDup, Hsq.
    + intros m Hm Hc. apply offsetMoves_plain in Hm. destruct Hm as [t ->].
      apply castlingMoves_cases in Hc.
      destruct Hc as [[_ Hc] | [_ Hc]]; discriminate Hc.
Qed.

(** The destination and the two flags tell the base moves of a pawn
    apart. *)
Lemma pawnBaseMoves_NoDup (b : Board.t) (square d baseLine : Z) :
  0 <= square < 64 -> d = -10 \/ d = 10 ->
  NoDup (pawnBaseMoves b square d baseLine).
Proof.
  intros Hsq Hd.
  assert (Hends : NoDup (pawnTargets square d)).
  { destruct (targets_distinct square Hsq) as [_ [_ [_ [Hw [Hb _]]]]].
    destruct Hd as [-> | ->]; assumption. }
  unfold pawnTargets in Hends.
  apply (NoDup_map_inv
           (fun m => (endIndex m, isEnPassant m, isDoublePawnMove m))).
  unfold pawnBaseMoves, pushMove, doubleMove, captureMove, enPassantMove.
  cbv zeta.
  generalize dependent (to10x12Coords (applyOffset square (d * 2))).
  generalize dependent (to10x12Coords (applyOffset square (d + 1))).
  generalize dependent (to10x12Coords (applyOffset square (d - 1))).
  generalize dependent (to10x12Coords (applyOffset square d)).
  intros e0 e1 e2 Hends e3.
  apply NoDup_cons_iff in Hends. destruct Hends as [H0 Hends].
  apply NoDup_cons_iff in Hends. destruct Hends as [H1 _].
  cbn [In] in H0, H1.
  assert (H01 : e0 <> e1) by (intros ->; tauto).
  assert (H02 : e0 <> e2) by (intros ->; tauto).
  assert (H12 : e1 <> e2) by (intros ->; tauto).
  clear H0 H1.
  destruct (negb (isOccupied b e0));
    destruct (ChessTerms.isOnRow square baseLine && negb (isOccupied b e3));
    destruct (mayCapture b square (d - 1));
    destruct (mayCapture b square (d + 1));
    destruct (besideEnPassant b square (-1));
    destruct (besideEnPassant b square 1);
    cbn [app map endIndex isEnPassant isDoublePawnMove];
    repeat (constructor;
            [cbn [In]; intros Hin;
             repeat (destruct Hin as [Hin | Hin]); congruence |]);
    constructor.
Qed.

Lemma fanOut_NoDup (b : Board.t) (m : Move) : NoDup (fanOut b m).
Proof.
  unfold fanOut. destruct (onLastRank b m).
  - apply (NoDup_map_inv promotionType). cbn [map withPromotion promotionType].
    repeat (constructor;
            [cbn [In]; intros Hin;
             repeat (destruct Hin as [Hin | Hin]); congruence |]);
    constructor.
  - constructor; [intros [] | constructor].
Qed.

Lemma fanOut_apart (b : Board.t) (m1 m2 m : Move) :
  promotionType m1 = PieceType.None -> promotionType m2 = PieceType.None ->
  In m (fanOut b m1) -> In m (fanOut b m2) -> m1 = m2.
Proof.
  intros P1 P2 H1 H2.
  apply fanOut_fields in H1. apply fanOut_fields in H2.
  destruct m1, m2. cbn in *. intuition congruence.
Qed.

Lemma pawnMoves_NoDup (b : Board.t) (square : Z) :
  0 <= square < 64 -> NoDup (pawnMovesOf b square).
Proof.
  intros Hsq. unfold pawnMovesOf.
  destruct (isPawnToMove b square); [| constructor].
  apply NoDup_flat_map.
  - apply pawnBaseMoves_NoDup; [exact Hsq |].
    unfold pawnDirection. destruct (PieceColor.eqb _ _); auto.
  - intros m _. apply fanOut_NoDup.
  - intros m1 m2 m H1 H2 Hne F1 F2. apply Hne.
    apply (fanOut_apart b m1 m2 m);
      [exact (pawnBaseMoves_unpromoted _ _ _ _ _ H1)
      | exact (pawnBaseMoves_unpromoted _ _ _ _ _ H2) | exact F1 | exact F2].
Qed.

(** *** Where a move comes from *)

Lemma sliding_origin (b : Board.t) (square : Z) (m : Move) :
  In m (slidingMovesOf b square) ->
  startIndex m = to10x12Coords square /\
  In (getType (at_ b square)) [PieceType.Rook; PieceType.Bishop; PieceType.Queen].
Proof.
  unfold slidingMovesOf. destruct (negb _); [intros [] |].
  intros H. split.
  - apply in_flat_map in H. destruct H as [d [_ H]]. unfold rayMoves in H.
    apply in_map_iff in H. destruct H as [t [<- _]]. reflexivity.
  - destruct (getType (at_ b square)); cbn [directionsOf flat_map] in H;
      try contradiction; cbn [In]; tauto.
Qed.

Lemma kingKnight_origin (b : Board.t) (square : Z) (m : Move) :
  In m (kingKnightMovesOf b square) ->
  startIndex m = to10x12Coords square /\
  In (getType (at_ b square)) [PieceType.King; PieceType.Knight].
Proof.
  intros H. apply kingKnight_cases in H.
  destruct H as [_ [[Hty [s [e H]]] | [Hty H]]].
  - apply offsetMoves_plain in H. destruct H as [t ->]. split; [reflexivity | exact Hty].
  - split; [| rewrite Hty; left; reflexivity].
    apply castlingMoves_cases in H. destruct H as [[_ ->] | [_ ->]]; reflexivity.
Qed.

Lemma pawn_origin (b : Board.t) (square : Z) (m : Move) :
  In m (pawnMovesOf b square) ->
  startIndex m = to10x12Coords square /\
  getType (at_ b square) = PieceType.Pawn.
Proof.
  unfold pawnMovesOf. destruct (isPawnToMove b square) eqn:Hp; [| intros []].
  intros H. apply in_flat_map in H. destruct H as [m0 [H0 H]].
  apply fanOut_fields in H. destruct H as [-> _]. split.
  - apply pawnBaseMoves_cases in H0.
    destruct H0 as [[-> _] | [[-> _] | [[-> _] | [[-> _] | [[-> _] | [-> _]]]]]];
      reflexivity.
  - unfold isPawnToMove in Hp. apply andb_prop in Hp. destruct Hp as [_ Hp].
    apply type_eqb_eq, Hp.
Qed.

(** Moves of one kind, over a list of distinct board squares. *)
Lemma perSquare_NoDup (f : Z -> list Move) (squares : list Z) :
  NoDup squares ->
  (forall square, In square squares -> NoDup (f square)) ->
  (forall square m, In m (f square) -> startIndex m = to10x12Coords square) ->
  NoDup (flat_map f squares).
Proof.
  intros Hsq Heach Hstart. apply NoDup_flat_map; [exact Hsq | exact Heach |].
  intros s1 s2 m _ _ Hne H1 H2. apply Hne, to10x12Coords_apart.
  rewrite <- (Hstart s1 m H1). exact (Hstart s2 m H2).
Qed.

Lemma kinds_NoDup (b : Board.t) (steppers pawns : list Z) :
  NoDup steppers -> (forall square, In square steppers -> 0 <= square < 64) ->
  NoDup pawns -> (forall square, In square pawns -> 0 <= square < 64) ->
  NoDup (flat_map (slidingMovesOf b) (zrange 0 64) ++
         flat_map (kingKnightMovesOf b) steppers ++
         flat_map (pawnMovesOf b) pawns).
Proof.
  intros Hkn Hrange Hpn Hpr.
  apply NoDup_app; [| apply NoDup_app |].
  - apply perSquare_NoDup; [apply zrange_NoDup | |].
    + intros square H. apply slidingMoves_NoDup.
      apply BitboardFacts.In_zrange in H. lia.
    + intros square m H. apply (sliding_origin b square m H).
  - apply perSquare_NoDup; [exact Hkn | |].
    + intros square H. apply kingKnightMoves_NoDup, Hrange, H.
    + intros square m H. apply (kingKnight_origin b square m H).
  - apply perSquare_NoDup; [exact Hpn | |].
    + intros square H. apply pawnMoves_NoDup, Hpr, H.
    + intros square m H. apply (pawn_origin b square m H).
  - intros m H1 H2.
    apply in_flat_map in H1. destruct H1 as [s1 [_ H1]].
    apply in_flat_map in H2. destruct H2 as [s2 [_ H2]].
    apply kingKnight_origin in H1. apply pawn_origin in H2.
    destruct H1 as [E1 T1]. destruct H2 as [E2 T2].
    rewrite E1 in E2. apply to10x12Coords_apart in E2. subst s2.
    rewrite T2 in T1. cbn [In] in T1. intuition discriminate.
  - intros m H1 H2.
    apply in_flat_map in H1. destruct H1 as [s1 [_ H1]].
    apply sliding_origin in H1. destruct H1 as [E1 T1].
    apply in_app_or in H2. destruct H2 as [H2 | H2];
      apply in_flat_map in H2; destruct H2 as [s2 [_ H2]].
    + apply kingKnight_origin in H2. destruct H2 as [E2 T2].
      rewrite E1 in E2. apply to10x12Coords_apart in E2. subst s2.
      destruct (getType (at_ b s1)); cbn [In] in T1, T2; intuition discriminate.
    + apply pawn_origin in H2. destruct H2 as [E2 T2].
      rewrite E1 in E2. apply to10x12Coords_apart in E2. subst s2.
      rewrite T2 in T1. cbn [In] in T1. intuition discriminate.
Qed.

Lemma kingSquares_range (b : Board.t) (square : Z) :
  In square (kingSquares b) -> 0 <= square < 64.
Proof.
  exact (piecesOf_range
           (getBitboard b (mkPiece PieceType.King (getColorToMove b))) square).
Qed.

Lemma knightSquares_range (b : Board.t) (square : Z) :
  In square (knightSquares b) -> 0 <= square < 64.
Proof.
  exact (piecesOf_range
           (getBitboard b (mkPiece PieceType.Knight (getColorToMove b))) square).
Qed.

Lemma pawnSquares_range (b : Board.t) (square : Z) :
  In square (pawnSquares b) -> 0 <= square < 64.
Proof.
  exact (piecesOf_range
           (getBitboard b (mkPiece PieceType.Pawn (getColorToMove b))) square).
Qed.

(** [generateAllMoves] returns no move twice, provided the king and knight
    bitboards of the side to move share no square. *)
Theorem generateAllMoves_no_duplicates (g : t) (b : Board.t) :
  (forall square, In square (kingSquares b) -> ~ In square (knightSquares b)) ->
  exists moves g', generateAllMoves g b = Some (moves, g') /\ NoDup moves.
Proof.
  intros Hapart. exists (allMovesOf b), (mk (allMovesOf b)).
  split; [exact (generateAllMoves_eq g b) |].
  apply (kinds_NoDup b (kingSquares b ++ knightSquares b) (pawnSquares b)).
  - apply NoDup_app;
      [exact (piecesOf_NoDup _) | exact (piecesOf_NoDup _) | exact Hapart].
  - intros square H. apply in_app_or in H. destruct H as [H | H].
    + exact (kingSquares_range b square H).
    + exact (knightSquares_range b square H).
  - exact (piecesOf_NoDup _).
  - exact (pawnSquares_range b).
Qed.

Lemma generateAllMoves_no_duplicates_witness :
  exists moves g',
    generateAllMoves (mk []) Position.startingPosition = Some (moves, g') /\
    NoDup moves.
Proof.
  apply generateAllMoves_no_duplicates.
  intros square Hk Hn.
  assert (Hks : kingSquares Position.startingPosition = [60])
    by (vm_compute; reflexivity).
  assert (Hns : knightSquares Position.startingPosition = [57; 62])
    by (vm_compute; reflexivity).
  rewrite Hks in Hk. rewrite Hns in Hn. cbn [In] in Hk, Hn. lia.
Defined.

End DuplicateFacts.

(** ** Construction of a bitboard from a raw word *)

Module BitboardInitFacts.
Import Bitboard BitboardOps BitboardInit BitboardFacts BitboardOpsFacts.

Lemma replaceNth_length {A : Type} (n : nat) (x : A) (l : list A) :
  length (replaceNth n x l) = length l.
Proof.
  revert n. induction l as [| h l IH]; intros [| n]; cbn [replaceNth length];
    try reflexivity.
  rewrite IH. reflexivity.
Qed.

Lemma replaceNth_firstn {A : Type} (n : nat) (x : A) (l : list A) :
  (n < length l)%nat ->
  firstn (S n) (replaceNth n x l) = firstn n l ++ [x].
Proof.
  revert n. induction l as [| h l IH]; intros [| n] Hn; cbn [length] in Hn;
    try lia.
  - reflexivity.
  - cbn [replaceNth]. change (firstn (S (S n)) (h :: replaceNth n x l))
      with (h :: firstn (S n) (replaceNth n x l)).
    rewrite IH by lia. reflexivity.
Qed.

Lemma firstn_next {A : Type} (n : nat) (x : A) (l : list A) :
  nth_error l n = Some x -> firstn (S n) l = firstn n l ++ [x].
Proof.
  revert n. induction l as [| h l IH]; intros [| n] H; cbn [nth_error] in H;
    try discriminate.
  - injection H as ->. reflexivity.
  - change (firstn (S (S n)) (h :: l)) with (h :: firstn (S n) l).
    rewrite (IH n H). reflexivity.
Qed.

Lemma prefix_fresh (n : nat) (x : Z) (l : list Z) :
  NoDup l -> nth_error l n = Some x -> existsb (Z.eqb x) (firstn n l) = false.
Proof.
  revert n. induction l as [| h l IH]; intros [| n] Hl H; cbn [nth_error] in H;
    try discriminate; [reflexivity |].
  apply NoDup_cons_iff in Hl. destruct Hl as [Hh Hl].
  cbn [firstn existsb]. rewrite (IH n Hl H).
  destruct (Z.eqb_spec x h) as [-> | _]; [| reflexivity].
  exfalso. apply Hh. exact (nth_error_In l n H).
Qed.

(** What holds after the first [i] of the pieces have been placed. *)
Lemma placeAll_places (N : nat) (pieces : list Z) :
  NoDup pieces -> (forall square, In square pieces -> 0 <= square < 64) ->
  (length pieces <= N)%nat ->
  forall (n i : nat) (b : t),
    (i + n = length pieces)%nat ->
    0 <= bits b < 2 ^ 128 -> numPieces b = Z.of_nat i ->
    length (occupiedSquares b) = N -> length (reverseOccupiedSquares b) = 120%nat ->
    (forall j, 0 <= j ->
       Z.testbit (bits b) j = existsb (Z.eqb j) (firstn i pieces)) ->
    firstn i (occupiedSquares b) = firstn i pieces ->
    exists b',
      placeAll N pieces (zrange (Z.of_nat i) n) b = Ok b' /\
      0 <= bits b' < 2 ^ 128 /\ numPieces b' = Z.of_nat (length pieces) /\
      (forall j, 0 <= j -> Z.testbit (bits b') j = existsb (Z.eqb j) pieces) /\
      firstn (length pieces) (occupiedSquares b') = pieces.
Proof.
  intros Hnd Hrange Hcap.
  induction n as [| n IH]; intros i b Hin Hb Hnum Hos Hros Hbits Hfirst.
  - exists b. cbn [zrange placeAll].
    replace i with (length pieces) in * by lia.
    rewrite firstn_all in Hbits, Hfirst. auto.
  - cbn [zrange placeAll].
    destruct (nth_error pieces i) as [square |] eqn:Hsq;
      [| apply nth_error_None in Hsq; lia].
    pose proof (Hrange square (nth_error_In pieces i Hsq)) as Hs.
    assert (Hat : piecesAt N pieces (Z.of_nat i) = Ok square).
    { unfold piecesAt. rewrite Nat2Z.id, Hsq.
      destruct (Z.leb_spec 0 (Z.of_nat i));
        destruct (Z.ltb_spec (Z.of_nat i) (Z.of_nat N)); try lia. reflexivity. }
    rewrite Hat. cbn [bind].
    assert (Hfree : Z.testbit (bits b) square = false).
    { rewrite Hbits by lia. exact (prefix_fresh i square pieces Hnd Hsq). }
    assert (Hplace : placePiece Debug square b =
                     Ok (setSquare square true
                           (mk (bits b)
                               (replaceNth i square (occupiedSquares b))
                               (replaceNth (Z.to_nat square) (Z.of_nat i)
                                           (reverseOccupiedSquares b))
                               (Z.of_nat i + 1)))).
    { unfold placePiece, isOccupied, Utils.isInRange, Utils.getBit, arrayWrite.
      destruct (Z.leb_spec 0 square); destruct (Z.leb_spec square 127); try lia.
      cbn [andb negb bind]. rewrite Hfree, Hnum, Hos, Hros.
      destruct (Z.leb_spec 0 (Z.of_nat i));
        destruct (Z.ltb_spec (Z.of_nat i) (Z.of_nat N)); try lia.
      destruct (Z.ltb_spec square (Z.of_nat 120)); try lia.
      cbn [andb bind]. rewrite Nat2Z.id. reflexivity. }
    rewrite Hplace. cbn [bind].
    replace (Z.of_nat i + 1) with (Z.of_nat (S i)) by lia.
    apply IH; cbn [setSquare bits numPieces occupiedSquares reverseOccupiedSquares].
    + lia.
    + apply setSquare_range; [lia | exact Hb].
    + reflexivity.
    + rewrite replaceNth_length. exact Hos.
    + rewrite replaceNth_length. exact Hros.
    + intros j Hj. rewrite setSquare_testbit by lia.
      rewrite (firstn_next i square pieces Hsq), existsb_app. cbn [existsb].
      rewrite <- Hbits by exact Hj.
      destruct (j =? square); [apply eq_sym, orb_true_r |].
      rewrite !orb_false_r. reflexivity.
    + rewrite replaceNth_firstn by lia.
      rewrite (firstn_next i square pieces Hsq), Hfirst. reflexivity.
Qed.

Lemma occupied_NoDup (x : Z) : NoDup (occupied x).
Proof.
  pose proof (occupied_sorted x) as H.
  induction H as [| a l Hs IH Hall]; constructor; [| exact IH].
  intros Hin. rewrite Forall_forall in Hall. specialize (Hall a Hin). lia.
Qed.

Lemma testbit_above (x j : Z) : 0 <= x < 2 ^ 64 -> 64 <= j -> Z.testbit x j = false.
Proof.
  intros Hx Hj. destruct (Z.eq_dec x 0) as [-> | Hne]; [apply Z.bits_0 |].
  apply Z.bits_above_log2; [lia |].
  apply Z.lt_le_trans with 64; [apply Z.log2_lt_pow2; lia | exact Hj].
Qed.

(** The debug constructor from a raw 64-square word within the capacity
    registers every set square: the bits are the raw word, [numPieces] is
    its population count, the first [numPieces] entries of
    [occupiedSquares] are the set squares in ascending order, and
    [getPieces] on the result returns them. A raw word with more set
    squares than the capacity runs past the end of the array in the
    [getPieces] call the constructor makes. *)
Theorem construct_registers (N : nat) (os0 ros0 : list Z) (raw : Z) :
  0 <= raw < 2 ^ 64 ->
  length os0 = N -> length ros0 = 120%nat ->
  (popcount raw <= Z.of_nat N ->
   exists b,
     construct Debug N os0 ros0 raw = Ok b /\
     bits b = raw /\ numPieces b = popcount raw /\
     firstn (Z.to_nat (popcount raw)) (occupiedSquares b) = occupied raw /\
     getPieces Debug N b = Ok (occupied raw)) /\
  (Z.of_nat N < popcount raw -> construct Debug N os0 ros0 raw = Undefined).
Proof.
  intros Hraw Hos Hros.
  pose proof (popcount_occupied raw Hraw) as Hpop.
  assert (Hget : forall n,
            getPieces Debug N (mk raw os0 ros0 n) =
            if negb (popcount raw =? n)
            then Throw (runtime_error "Desync between bitboard and numPieces detected.")
            else if (length (occupied raw) <=? N)%nat then Ok (occupied raw)
                 else Undefined).
  { intros n. unfold getPieces. cbv zeta. cbn [bits numPieces].
    rewrite (scan_occupied raw Hraw). reflexivity. }
  split.
  - intros Hcap. unfold construct. cbv zeta.
    rewrite Hget, Z.eqb_refl. cbn [negb].
    destruct (Nat.leb_spec (length (occupied raw)) N) as [Hlen | Hlen]; [| lia].
    cbn [bind]. rewrite Hpop, Nat2Z.id.
    destruct (placeAll_places N (occupied raw) (occupied_NoDup raw)) with
      (n := length (occupied raw)) (i := 0%nat)
      (b := clear (mk raw os0 ros0 (Z.of_nat (length (occupied raw)))))
      as [b2 [Hloop [Hb2 [Hnum [Hbits Hfirst]]]]];
      cbn [clear bits numPieces occupiedSquares reverseOccupiedSquares firstn existsb];
      try reflexivity; try lia; try assumption.
    + intros square Hin. apply occupied_spec in Hin. lia.
    + rewrite repeat_length. exact Hos.
    + intros j _. apply Z.bits_0.
    + change (Z.of_nat 0) with 0 in Hloop. rewrite Hloop. cbn [bind].
      assert (Heq : bits b2 = raw).
      { apply Z.bits_inj'. intros j Hj. rewrite Hbits by exact Hj.
        destruct (Z.testbit raw j) eqn:Hbit.
        - apply existsb_exists. exists j. split; [| apply Z.eqb_refl].
          apply occupied_spec. split; [| exact Hbit].
          destruct (Z_lt_le_dec j 64); [lia |].
          rewrite (testbit_above raw j Hraw) in Hbit by lia. discriminate.
        - destruct (existsb (Z.eqb j) (occupied raw)) eqn:Hex; [| reflexivity].
          apply existsb_exists in Hex. destruct Hex as [k [Hk Hjk]].
          apply Z.eqb_eq in Hjk. subst k. apply occupied_spec in Hk.
          destruct Hk as [_ Hk]. congruence. }
      rewrite Heq, Hpop, Hnum, Z.eqb_refl. cbn [negb].
      eexists. split; [reflexivity |].
      cbn [withBits bits numPieces occupiedSquares].
      split; [reflexivity |]. split; [exact Hnum |]. split; [exact Hfirst |].
      unfold getPieces. cbv zeta. cbn [withBits bits numPieces].
      rewrite Hpop, Hnum, Z.eqb_refl, (scan_occupied raw Hraw). cbn [negb].
      destruct (Nat.leb_spec (length (occupied raw)) N); [reflexivity | lia].
  - intros Hover. unfold construct. cbv zeta.
    rewrite Hget, Z.eqb_refl. cbn [negb].
    destruct (Nat.leb_spec (length (occupied raw)) N) as [Hlen | Hlen]; [lia |].
    reflexivity.
Qed.

Lemma construct_registers_witness :
  exists b,
    construct Debug 12 (repeat 0 12) (repeat 0 120) 0x30 = Ok b /\
    bits b = 0x30 /\ numPieces b = popcount 0x30 /\
    getPieces Debug 12 b = Ok (occupied 0x30).
Proof.
  destruct (construct_registers 12 (repeat 0 12) (repeat 0 120) 0x30)
    as [Hok _]; [lia | reflexivity | reflexivity |].
  destruct Hok as [b [Hb [Hbits [Hnum [_ Hget]]]]].
  - vm_compute. discriminate.
  - exists b. auto.
Defined.

End BitboardInitFacts.

(** ** En passant and the target square *)

Module EnPassantFacts.
Import Board MoveGenerator Stepping EnPassant.
Import MoveFacts.







End EnPassantFacts.

(** ** The generated moves are the moves the rules of movement allow *)

Module PseudoLegalFacts.
Import Board MoveGenerator Buffer Sliding Stepping Geometry Lines PerSquare.
Import PseudoLegal EnPassant.
Import GeneratorFacts SlidingFacts EmittedFacts MoveFacts ExactFacts SquareFacts.
Import EnPassantFacts.


(** *** Sliding pieces *)


(** *** Kings and knights *)




(** *** Pawns *)















Lemma forward_cases (c : PieceColor.t) : forward c = -1 \/ forward c = 1.
Proof. destruct c; cbn; auto. Qed.








(** *** One square, and the whole board *)

Lemma plainTo_ext (b : Board.t) (from : Z) (m : Move)
      (reach reach' : Z -> Z -> bool) :
  (forall t, reach from t = reach' from t) ->
  plainTo b from m reach -> plainTo b from m reach'.
Proof.
  intros Hext [t [Ht [Hm [Hr Hok]]]]. exists t. rewrite <- Hext. auto.
Qed.





End PseudoLegalFacts.
